(** * CattoPic: the D1 metadata service

    A shallow embedding of [worker/src/services/metadata.ts]
    (class [MetadataService]) over the relational schema of the project
    ([images], [tags], [image_tags]), and of the handler
    [uploadHandler] of [worker/src/handlers/upload.ts] that calls it.

    The three tables are lists of rows in rowid order.  Every SQL statement
    the service prepares for a write is a constructor of [Stmt] and is given
    its meaning on the tables by [exec], with the constraints the schema
    declares: the primary keys, the UNIQUE tag name, the CHECK on
    orientation, and the two foreign keys of [image_tags] with ON DELETE
    CASCADE.  Foreign keys are enforced, as D1 does and as [deleteImage]
    relies on when it leaves the links of the image to the cascade.  The
    queries are functions on the tables that follow the FROM, WHERE,
    GROUP BY, ORDER BY and LIMIT clauses of their SQL text.

    The D1 handle is a record holding the tables and the log of the write
    calls made on it ([batch] and [run]); a batch is a transaction, rolled
    back as a whole when one of its statements fails.  Each method of the
    service is a function from the handle to the new handle and the settled
    promise.  JavaScript numbers that hold counts, pages and limits are
    integers.  D1 refuses a batch without statements, and SQLite refuses a
    LIMIT or OFFSET that is not a 64-bit integer; the number of parameters
    bound to one statement is not limited here. *)

From Stdlib Require Import ZArith String Ascii.
From stdpp Require Import base decidable option list sorting strings gmap.

Local Open Scope string_scope.
Local Open Scope Z_scope.
Local Open Scope list_scope.

(** ** JavaScript values *)

(** A promise once awaited: it is fulfilled with a value, or it is rejected
    and the exception reaches the caller ([await] rethrows it). *)
Inductive SqlError : Type :=
  | PrimaryKeyViolation (table : string)
  | UniqueViolation (table : string)
  | ForeignKeyViolation
  | CheckViolation
  (** [db.batch([])]: "No SQL statements detected" *)
  | NoStatements
  (** a LIMIT or OFFSET value that is not a 64-bit integer: "datatype
      mismatch" *)
  | DatatypeMismatch.

Inductive Promise (A : Type) : Type :=
  | Fulfilled (a : A)
  | Rejected (e : SqlError).
Arguments Fulfilled {A} a.
Arguments Rejected {A} e.

#[global] Instance SqlError_eq_dec : EqDecision SqlError.
Proof. solve_decision. Defined.

(** [s || null] on an optional string: [undefined], [null] and the empty
    string are falsy. *)
Definition or_null (s : option string) : option string :=
  match s with
  | Some v => if decide (v = "") then None else Some v
  | None => None
  end.

(** [s || ''] *)
Definition or_empty (s : option string) : string :=
  match s with
  | Some v => v
  | None => ""
  end.

(** [if (s)] on an optional string. *)
Definition truthy (s : option string) : bool :=
  match s with
  | Some v => bool_decide (v ≠ "")
  | None => false
  end.

(** [new Set(l)] iterated: the elements of [l] in order of first
    occurrence. *)
Fixpoint nub {A} `{EqDecision A} (l : list A) : list A :=
  match l with
  | [] => []
  | x :: l' => x :: filter (λ y, y ≠ x) (nub l')
  end.

(** ** The schema *)

Module ImageRow.
Record t : Type := mk {
  id : string;
  original_name : string;
  upload_time : string;
  expiry_time : option string;
  orientation : string;
  format : string;
  width : Z;
  height : Z;
  path_original : string;
  path_webp : option string;
  path_avif : option string;
  size_original : Z;
  size_webp : Z;
  size_avif : Z
}.

#[global] Instance eq_dec : EqDecision t.
Proof. solve_decision. Defined.

Definition set_expiry_time (e : option string) (r : t) : t :=
  mk (id r) (original_name r) (upload_time r) e (orientation r) (format r)
     (width r) (height r) (path_original r) (path_webp r) (path_avif r)
     (size_original r) (size_webp r) (size_avif r).
End ImageRow.

Module TagRow.
Record t : Type := mk { id : Z; name : string }.

#[global] Instance eq_dec : EqDecision t.
Proof. solve_decision. Defined.
End TagRow.

Module ImageTagRow.
Record t : Type := mk { image_id : string; tag_id : Z }.

#[global] Instance eq_dec : EqDecision t.
Proof. solve_decision. Defined.
End ImageTagRow.

(** The tables, rows in rowid order (a new row gets the largest rowid, so it
    goes last).  [tags_seq] is the AUTOINCREMENT counter of [tags]: the
    largest id ever handed out.  Ids are SQLite's 64-bit integers; the
    counter is not modelled as running out. *)
Record Tables : Type := mkTables {
  images : list ImageRow.t;
  tags : list TagRow.t;
  tags_seq : Z;
  image_tags : list ImageTagRow.t
}.

Definition empty_tables : Tables := mkTables [] [] 0 [].

Definition image_ids (T : Tables) : list string := ImageRow.id <$> images T.
Definition tag_names (T : Tables) : list string := TagRow.name <$> tags T.
Definition tag_ids (T : Tables) : list Z := TagRow.id <$> tags T.

(** [SELECT id FROM tags WHERE name = ?] *)
Definition tag_ids_named (name : string) (T : Tables) : list Z :=
  TagRow.id <$> filter (λ t, TagRow.name t = name) (tags T).

(** ** The prepared statements of the service *)

(** One constructor per SQL text the service prepares for a write, with the
    values it binds. *)
Inductive Stmt : Type :=
  (** [INSERT INTO images (...) VALUES (?, ..., ?)] *)
  | InsertImage (r : ImageRow.t)
  (** [INSERT OR IGNORE INTO tags (name) VALUES (?)] *)
  | InsertOrIgnoreTag (name : string)
  (** [INSERT INTO image_tags (image_id, tag_id)
       SELECT ?, id FROM tags WHERE name = ?] *)
  | InsertImageTag (image_id name : string)
  (** [INSERT OR IGNORE INTO image_tags (image_id, tag_id)
       SELECT ?, id FROM tags WHERE name = ?] *)
  | InsertOrIgnoreImageTag (image_id name : string)
  (** [DELETE FROM image_tags WHERE image_id = ?
       AND tag_id = (SELECT id FROM tags WHERE name = ?)] *)
  | DeleteImageTag (image_id name : string)
  (** [UPDATE images SET expiry_time = ? WHERE id = ?] *)
  | UpdateExpiryTime (expiry : option string) (id : string)
  (** [DELETE FROM images WHERE id = ?] *)
  | DeleteImage (id : string)
  (** [UPDATE tags SET name = ? WHERE name = ?] *)
  | UpdateTagName (new old : string)
  (** [DELETE FROM tags WHERE name = ?] *)
  | DeleteTag (name : string).

#[global] Instance Stmt_eq_dec : EqDecision Stmt.
Proof. solve_decision. Defined.

(** The outcome of one statement: the new tables and [meta.changes] (the
    rows the statement itself inserted, updated or deleted; rows removed by a
    cascade are not counted), or the constraint that aborted it. *)
Inductive Step : Type :=
  | Done (T : Tables) (changes : Z)
  | Abort (e : SqlError).

Definition set_images (l : list ImageRow.t) (T : Tables) : Tables :=
  mkTables l (tags T) (tags_seq T) (image_tags T).
Definition set_image_tags (l : list ImageTagRow.t) (T : Tables) : Tables :=
  mkTables (images T) (tags T) (tags_seq T) l.

(** [CHECK (orientation IN ('landscape', 'portrait'))] *)
Definition orientation_ok (o : string) : Prop :=
  o = "landscape" ∨ o = "portrait".

#[global] Instance orientation_ok_dec o : Decision (orientation_ok o).
Proof. unfold orientation_ok. apply _. Defined.

(** The id AUTOINCREMENT gives the next tag: one more than the largest id
    in the table or ever handed out. *)
Definition next_tag_id (T : Tables) : Z :=
  1 + foldr Z.max (tags_seq T) (tag_ids T).

(** Rows [rows] inserted into [image_tags] one after the other.  A row whose
    key is already there violates the primary key: the statement aborts, or
    with OR IGNORE the row is skipped.  A row whose image or tag does not
    exist violates a foreign key, which OR IGNORE does not cover. *)
Fixpoint insert_image_tags (ignore : bool) (rows : list ImageTagRow.t)
    (T : Tables) (changes : Z) : Step :=
  match rows with
  | [] => Done T changes
  | r :: rows' =>
      if decide (r ∈ image_tags T) then
        if ignore then insert_image_tags ignore rows' T changes
        else Abort (PrimaryKeyViolation "image_tags")
      else if decide (ImageTagRow.image_id r ∈ image_ids T
                      ∧ ImageTagRow.tag_id r ∈ tag_ids T) then
        insert_image_tags ignore rows'
          (set_image_tags (image_tags T ++ [r]) T) (changes + 1)
      else Abort ForeignKeyViolation
  end.

Definition rename_tag (new old : string) (t : TagRow.t) : TagRow.t :=
  if decide (TagRow.name t = old) then TagRow.mk (TagRow.id t) new else t.

Definition exec (s : Stmt) (T : Tables) : Step :=
  match s with
  | InsertImage r =>
      if decide (ImageRow.id r ∈ image_ids T) then
        Abort (PrimaryKeyViolation "images")
      else if decide (orientation_ok (ImageRow.orientation r)) then
        Done (set_images (images T ++ [r]) T) 1
      else Abort CheckViolation
  | InsertOrIgnoreTag name =>
      if decide (name ∈ tag_names T) then Done T 0
      else
        let k := next_tag_id T in
        Done (mkTables (images T) (tags T ++ [TagRow.mk k name]) k
                (image_tags T)) 1
  | InsertImageTag image_id name =>
      insert_image_tags false
        (ImageTagRow.mk image_id <$> tag_ids_named name T) T 0
  | InsertOrIgnoreImageTag image_id name =>
      insert_image_tags true
        (ImageTagRow.mk image_id <$> tag_ids_named name T) T 0
  | DeleteImageTag image_id name =>
      (* the scalar subquery is the first id found, or NULL, which equals
         no tag_id *)
      let sub := head (tag_ids_named name T) in
      let hit (r : ImageTagRow.t) :=
        ImageTagRow.image_id r = image_id ∧ Some (ImageTagRow.tag_id r) = sub in
      Done (set_image_tags (filter (λ r, ¬ hit r) (image_tags T)) T)
           (Z.of_nat (length (filter hit (image_tags T))))
  | UpdateExpiryTime expiry id =>
      let upd (r : ImageRow.t) :=
        if decide (ImageRow.id r = id)
        then ImageRow.set_expiry_time expiry r else r in
      Done (set_images (upd <$> images T) T)
           (Z.of_nat (length (filter (λ r, ImageRow.id r = id) (images T))))
  | DeleteImage id =>
      let gone := filter (λ r, ImageRow.id r = id) (images T) in
      (* ON DELETE CASCADE: the links of the deleted rows go with them *)
      Done (mkTables (filter (λ r, ImageRow.id r ≠ id) (images T))
              (tags T) (tags_seq T)
              (filter (λ l, ImageTagRow.image_id l ∉ (ImageRow.id <$> gone))
                 (image_tags T)))
           (Z.of_nat (length gone))
  | UpdateTagName new old =>
      let tags' := rename_tag new old <$> tags T in
      (* name TEXT NOT NULL UNIQUE must hold of the updated table *)
      if decide (NoDup (TagRow.name <$> tags')) then
        Done (mkTables (images T) tags' (tags_seq T) (image_tags T))
             (Z.of_nat (length (filter (λ t, TagRow.name t = old) (tags T))))
      else Abort (UniqueViolation "tags")
  | DeleteTag name =>
      let gone := filter (λ t, TagRow.name t = name) (tags T) in
      Done (mkTables (images T)
              (filter (λ t, TagRow.name t ≠ name) (tags T)) (tags_seq T)
              (filter (λ l, ImageTagRow.tag_id l ∉ (TagRow.id <$> gone))
                 (image_tags T)))
           (Z.of_nat (length gone))
  end.

(** ** The D1 handle *)

(** A write call the service made on the handle. *)
Inductive Call : Type :=
  | CallBatch (statements : list Stmt)
  | CallRun (statement : Stmt).

Record D1Database : Type := mkD1 {
  tables : Tables;
  calls : list Call
}.

(** The statements of a batch run in order inside one transaction. *)
Fixpoint exec_all (statements : list Stmt) (T : Tables) : SqlError + Tables :=
  match statements with
  | [] => inr T
  | s :: rest =>
      match exec s T with
      | Done T' _ => exec_all rest T'
      | Abort e => inl e
      end
  end.

(** [await db.batch(statements)]: D1 refuses an empty list of statements
    and the promise is rejected.  Otherwise the statements run in one
    transaction: if one fails the transaction is rolled back, the tables are
    those from before the call and the promise is rejected. *)
Definition batch (statements : list Stmt) (db : D1Database)
    : D1Database * Promise unit :=
  let log := calls db ++ [CallBatch statements] in
  match statements with
  | [] => (mkD1 (tables db) log, Rejected NoStatements)
  | _ :: _ =>
      match exec_all statements (tables db) with
      | inr T' => (mkD1 T' log, Fulfilled ())
      | inl e => (mkD1 (tables db) log, Rejected e)
      end
  end.

(** [await stmt.run()]: fulfilled with [meta.changes] ([success] is true
    whenever the promise is fulfilled). *)
Definition run (s : Stmt) (db : D1Database) : D1Database * Promise Z :=
  let log := calls db ++ [CallRun s] in
  match exec s (tables db) with
  | Done T' n => (mkD1 T' log, Fulfilled n)
  | Abort e => (mkD1 (tables db) log, Rejected e)
  end.

(** ** The records of the service *)

Module Paths.
Record t : Type := mk { original : string; webp : string; avif : string }.
End Paths.

Module Sizes.
Record t : Type := mk { original : Z; webp : Z; avif : Z }.
End Sizes.

(** [ImageMetadata], with the fields [rowToMetadata] fills in. *)
Module ImageMetadata.
Record t : Type := mk {
  id : string;
  originalName : string;
  uploadTime : string;
  expiryTime : option string;
  orientation : string;
  tags : list string;
  format : string;
  width : Z;
  height : Z;
  paths : Paths.t;
  sizes : Sizes.t
}.
End ImageMetadata.

(** [Partial<ImageMetadata>] as [updateImage] reads it: only [tags] and
    [expiryTime] are looked at; [None] is [undefined]. *)
Module Updates.
Record t : Type := mk {
  tags : option (list string);
  expiryTime : option string
}.
End Updates.

(** [ImageFilters] *)
Module ImageFilters.
Record t : Type := mk {
  page : option Z;
  limit : option Z;
  tag : option string;
  orientation : option string
}.
End ImageFilters.

(** The filters of [getRandomImage]. *)
Module RandomFilters.
Record t : Type := mk {
  tags : option (list string);
  exclude : option (list string);
  orientation : option string
}.
End RandomFilters.

Definition rowToMetadata (row : ImageRow.t) (tags : list string)
    : ImageMetadata.t :=
  ImageMetadata.mk
    (ImageRow.id row)
    (ImageRow.original_name row)
    (ImageRow.upload_time row)
    (or_null (ImageRow.expiry_time row))
    (ImageRow.orientation row)
    tags
    (ImageRow.format row)
    (ImageRow.width row)
    (ImageRow.height row)
    (Paths.mk (ImageRow.path_original row)
       (or_empty (ImageRow.path_webp row))
       (or_empty (ImageRow.path_avif row)))
    (Sizes.mk (ImageRow.size_original row)
       (ImageRow.size_webp row)
       (ImageRow.size_avif row)).

(** The values [saveImage] binds to the INSERT into [images]. *)
Definition metadataToRow (metadata : ImageMetadata.t) : ImageRow.t :=
  ImageRow.mk
    (ImageMetadata.id metadata)
    (ImageMetadata.originalName metadata)
    (ImageMetadata.uploadTime metadata)
    (or_null (ImageMetadata.expiryTime metadata))
    (ImageMetadata.orientation metadata)
    (ImageMetadata.format metadata)
    (ImageMetadata.width metadata)
    (ImageMetadata.height metadata)
    (Paths.original (ImageMetadata.paths metadata))
    (or_null (Some (Paths.webp (ImageMetadata.paths metadata))))
    (or_null (Some (Paths.avif (ImageMetadata.paths metadata))))
    (Sizes.original (ImageMetadata.sizes metadata))
    (Sizes.webp (ImageMetadata.sizes metadata))
    (Sizes.avif (ImageMetadata.sizes metadata)).

(** ** Image CRUD *)

Definition saveImage_statements (metadata : ImageMetadata.t) : list Stmt :=
  InsertImage (metadataToRow metadata)
  :: flat_map
       (λ tag, [InsertOrIgnoreTag tag;
                InsertImageTag (ImageMetadata.id metadata) tag])
       (ImageMetadata.tags metadata).

Definition saveImage (metadata : ImageMetadata.t) (db : D1Database)
    : D1Database * Promise unit :=
  batch (saveImage_statements metadata) db.

(** [SELECT t.name FROM tags t JOIN image_tags it ON t.id = it.tag_id
     WHERE it.image_id = ?] *)
Definition tag_names_of (id : string) (T : Tables) : list string :=
  t ← tags T;
  it ← image_tags T;
  if decide (TagRow.id t = ImageTagRow.tag_id it
             ∧ ImageTagRow.image_id it = id)
  then [TagRow.name t] else [].

Definition getImage (id : string) (db : D1Database)
    : option ImageMetadata.t :=
  match head (filter (λ r, ImageRow.id r = id) (images (tables db))) with
  | None => None
  | Some image => Some (rowToMetadata image (tag_names_of id (tables db)))
  end.

Definition updateImage_statements (id : string) (image : ImageMetadata.t)
    (updates : Updates.t) : list Stmt :=
  match Updates.tags updates with
  | Some tags =>
      let oldTags := nub (ImageMetadata.tags image) in
      let newTags := nub tags in
      (DeleteImageTag id <$> filter (λ tag, tag ∉ newTags) oldTags)
      ++ flat_map
           (λ tag, [InsertOrIgnoreTag tag; InsertOrIgnoreImageTag id tag])
           (filter (λ tag, tag ∉ oldTags) newTags)
  | None => []
  end
  ++ match Updates.expiryTime updates with
     | Some expiryTime => [UpdateExpiryTime (or_null (Some expiryTime)) id]
     | None => []
     end.

Definition updateImage (id : string) (updates : Updates.t) (db : D1Database)
    : D1Database * Promise (option ImageMetadata.t) :=
  match getImage id db with
  | None => (db, Fulfilled None)
  | Some image =>
      let statements := updateImage_statements id image updates in
      if decide (0 < length statements)%nat then
        match batch statements db with
        | (db', Fulfilled _) => (db', Fulfilled (getImage id db'))
        | (db', Rejected e) => (db', Rejected e)
        end
      else (db, Fulfilled (getImage id db))
  end.

Definition deleteImage (id : string) (db : D1Database)
    : D1Database * Promise bool :=
  match run (DeleteImage id) db with
  | (db', Fulfilled changes) => (db', Fulfilled (bool_decide (0 < changes)))
  | (db', Rejected e) => (db', Rejected e)
  end.

(** ** Image queries *)

(** A row of the FROM clause: the image, and the tag when the query joins
    [image_tags] and [tags]. *)
Definition Joined : Type := ImageRow.t * option TagRow.t.

(** [FROM images i], or with [join]
    [FROM images i JOIN image_tags it ON i.id = it.image_id
     JOIN tags t ON it.tag_id = t.id]. *)
Definition from_images (join : bool) (T : Tables) : list Joined :=
  if join then
    i ← images T;
    it ← image_tags T;
    t ← tags T;
    if decide (ImageRow.id i = ImageTagRow.image_id it
               ∧ ImageTagRow.tag_id it = TagRow.id t)
    then [(i, Some t)] else []
  else (λ i, (i, None)) <$> images T.

(** The strings pushed on [whereConditions], with their parameters. *)
Inductive Cond : Type :=
  (** [t.name = ?] *)
  | TagNameIs (tag : string)
  (** [t.name IN (?, ..., ?)] *)
  | TagNameIn (tags : list string)
  (** [i.id NOT IN (SELECT it2.image_id FROM image_tags it2
       JOIN tags t2 ON it2.tag_id = t2.id WHERE t2.name IN (?, ..., ?))] *)
  | NotTagged (exclude : list string)
  (** [i.orientation = ?] *)
  | OrientationIs (orientation : string).

Definition tagged_with_any (exclude : list string) (T : Tables)
    : list string :=
  it2 ← image_tags T;
  t2 ← tags T;
  if decide (ImageTagRow.tag_id it2 = TagRow.id t2
             ∧ TagRow.name t2 ∈ exclude)
  then [ImageTagRow.image_id it2] else [].

Definition holds (T : Tables) (row : Joined) (c : Cond) : Prop :=
  match c with
  | TagNameIs tag => TagRow.name <$> row.2 = Some tag
  | TagNameIn tags => ∃ t, row.2 = Some t ∧ TagRow.name t ∈ tags
  | NotTagged exclude => ImageRow.id row.1 ∉ tagged_with_any exclude T
  | OrientationIs o => ImageRow.orientation row.1 = o
  end.

#[global] Instance holds_dec T row c : Decision (holds T row c).
Proof.
  destruct c as [tag|tags|exclude|o]; simpl; try apply _.
  destruct (row.2) as [t|].
  - destruct (decide (TagRow.name t ∈ tags)) as [Hin|Hout].
    + left. by exists t.
    + right. intros (t' & Heq & Hin). by simplify_eq.
  - right. intros (t' & Heq & _). discriminate.
Defined.

(** [WHERE c1 AND ... AND cn]; no WHERE clause when there is no condition. *)
Definition where_ (T : Tables) (conds : list Cond) (rows : list Joined)
    : list Joined :=
  filter (λ row, Forall (holds T row) conds) rows.

(** [ORDER BY i.upload_time DESC]: TEXT compared byte by byte.  Nothing is
    stated about the order among rows with the same upload time. *)
Definition newer_first (a b : ImageRow.t) : Prop :=
  String.leb (ImageRow.upload_time b) (ImageRow.upload_time a) = true.

#[global] Instance newer_first_dec a b : Decision (newer_first a b).
Proof. unfold newer_first. apply _. Defined.

Definition order_by_upload_time_desc (rows : list ImageRow.t)
    : list ImageRow.t :=
  merge_sort newer_first rows.

(** [Number.MAX_SAFE_INTEGER]: up to it a JavaScript number holds an
    integer exactly, and so does a product of two such integers that stays
    below it. *)
Definition MAX_SAFE_INTEGER : Z := 2 ^ 53 - 1.

(** SQLite takes the values bound to LIMIT and OFFSET as 64-bit signed
    integers. *)
Definition int64 (z : Z) : Prop := - 2 ^ 63 ≤ z < 2 ^ 63.

#[global] Instance int64_dec z : Decision (int64 z).
Proof. unfold int64. apply _. Defined.

(** [LIMIT ? OFFSET ?]: a value that is not a 64-bit integer is refused; a
    negative limit is no limit, a negative offset is offset 0. *)
Definition limit_offset {A} (limit offset : Z) (rows : list A)
    : SqlError + list A :=
  if decide (int64 limit ∧ int64 offset) then
    let rest := drop (Z.to_nat offset) rows in
    inr (if decide (limit < 0) then rest else take (Z.to_nat limit) rest)
  else inl DatatypeMismatch.

Definition getImageIds (orientation : option string) (db : D1Database)
    : list string :=
  let conds := if truthy orientation
               then [OrientationIs (or_empty orientation)] else [] in
  ImageRow.id <$>
    order_by_upload_time_desc
      ((where_ (tables db) conds (from_images false (tables db))).*1).

(** [tagMap] is a JavaScript [Map] from image id to the names pushed for
    it. *)
Definition tagMap_push (tagMap : gmap string (list string))
    (row : string * string) : gmap string (list string) :=
  <[row.1 := default [] (tagMap !! row.1) ++ [row.2]]> tagMap.

Definition enrichWithTags (rows : list ImageRow.t) (db : D1Database)
    : list ImageMetadata.t :=
  if decide (length rows = 0%nat) then []
  else
    let imageIds := ImageRow.id <$> rows in
    let tagsResult : list (string * string) :=
      it ← image_tags (tables db);
      t ← tags (tables db);
      if decide (ImageTagRow.tag_id it = TagRow.id t
                 ∧ ImageTagRow.image_id it ∈ imageIds)
      then [(ImageTagRow.image_id it, TagRow.name t)] else [] in
    let tagMap := foldl tagMap_push ∅ tagsResult in
    (λ row, rowToMetadata row (default [] (tagMap !! ImageRow.id row)))
      <$> rows.

(** [getImages] resolves to [{ images, total }]; it is rejected when the
    second query is. *)
Definition getImages (filters : ImageFilters.t) (db : D1Database)
    : Promise (list ImageMetadata.t * Z) :=
  let page := default 1 (ImageFilters.page filters) in
  let limit := default 12 (ImageFilters.limit filters) in
  let tag := ImageFilters.tag filters in
  let orientation := ImageFilters.orientation filters in
  let offset := (page - 1) * limit in
  let T := tables db in
  let whereConditions :=
    (if truthy tag then [TagNameIs (or_empty tag)] else [])
    ++ (if truthy orientation
        then [OrientationIs (or_empty orientation)] else []) in
  let matching := where_ T whereConditions (from_images (truthy tag) T) in
  (* SELECT COUNT(DISTINCT i.id) as count *)
  let total := Z.of_nat (length (nub (ImageRow.id <$> matching.*1))) in
  (* SELECT DISTINCT i.* ... ORDER BY i.upload_time DESC LIMIT ? OFFSET ? *)
  match limit_offset limit offset
          (order_by_upload_time_desc (nub (matching.*1))) with
  | inl e => Rejected e
  | inr imagesResult => Fulfilled (enrichWithTags imagesResult db, total)
  end.

(** Rows paired with a sort key, ordered by the key. *)
Definition smaller_key {A} (a b : Z * A) : Prop := a.1 ≤ b.1.

#[global] Instance smaller_key_dec {A} (a b : Z * A)
  : Decision (smaller_key a b).
Proof. unfold smaller_key. apply _. Defined.

(** [ORDER BY RANDOM()]: [random k] is the value RANDOM() takes for the
    [k]-th row. *)
Definition order_by_random {A} (random : nat → Z) (rows : list A) : list A :=
  (merge_sort smaller_key (imap (λ k row, (random k, row)) rows)).*2.

(** [GROUP BY i.id HAVING COUNT(DISTINCT t.name) = ?]: one row per image id,
    kept when the tag names joined to it number [n]. *)
Definition group_by_id_having_count (n : nat) (rows : list Joined)
    : list ImageRow.t :=
  gid ← nub (ImageRow.id <$> rows.*1);
  let group := filter (λ row : Joined, ImageRow.id row.1 = gid) rows in
  if decide (length (nub (omap (λ row : Joined, TagRow.name <$> row.2) group))
             = n)
  then option_list (head (group.*1)) else [].

Definition nonempty (l : option (list string)) : bool :=
  match l with
  | Some (_ :: _) => true
  | _ => false
  end.

Definition getRandomImage (filters : option RandomFilters.t)
    (random : nat → Z) (db : D1Database) : option ImageMetadata.t :=
  let tags := filters ≫= RandomFilters.tags in
  let exclude := filters ≫= RandomFilters.exclude in
  let orientation := filters ≫= RandomFilters.orientation in
  let T := tables db in
  let whereConditions :=
    (if nonempty tags then [TagNameIn (default [] tags)] else [])
    ++ (if nonempty exclude then [NotTagged (default [] exclude)] else [])
    ++ (if truthy orientation
        then [OrientationIs (or_empty orientation)] else []) in
  let matching := where_ T whereConditions (from_images (nonempty tags) T) in
  let grouped :=
    if nonempty tags
    then group_by_id_having_count (length (default [] tags)) matching
    else matching.*1 in
  match head (order_by_random random grouped) with
  | None => None
  | Some result => getImage (ImageRow.id result) db
  end.

(** ** Tag management *)

Definition createTag (name : string) (db : D1Database)
    : D1Database * Promise unit :=
  match run (InsertOrIgnoreTag name) db with
  | (db', Fulfilled _) => (db', Fulfilled ())
  | (db', Rejected e) => (db', Rejected e)
  end.

(** [SELECT COUNT( * ) as count FROM image_tags it
     JOIN tags t ON it.tag_id = t.id WHERE t.name = ?] *)
Definition count_links_named (name : string) (T : Tables) : Z :=
  Z.of_nat (length (
    it ← image_tags T;
    t ← tags T;
    if decide (ImageTagRow.tag_id it = TagRow.id t ∧ TagRow.name t = name)
    then [(it, t)] else [])).

Definition renameTag (oldName newName : string) (db : D1Database)
    : D1Database * Promise Z :=
  let count := count_links_named oldName (tables db) in
  match run (UpdateTagName newName oldName) db with
  | (db', Fulfilled _) => (db', Fulfilled count)
  | (db', Rejected e) => (db', Rejected e)
  end.

Definition deleteTag (name : string) (db : D1Database)
    : D1Database * Promise Z :=
  let count := count_links_named name (tables db) in
  match run (DeleteTag name) db with
  | (db', Fulfilled _) => (db', Fulfilled count)
  | (db', Rejected e) => (db', Rejected e)
  end.

Definition batchUpdateTags_statements (imageIds addTags removeTags : list string)
    : list Stmt :=
  (InsertOrIgnoreTag <$> addTags)
  ++ flat_map
       (λ id, (DeleteImageTag id <$> removeTags)
              ++ (InsertOrIgnoreImageTag id <$> addTags))
       imageIds.

Definition batchUpdateTags (imageIds addTags removeTags : list string)
    (db : D1Database) : D1Database * Promise Z :=
  match batch (batchUpdateTags_statements imageIds addTags removeTags) db with
  | (db', Fulfilled _) => (db', Fulfilled (Z.of_nat (length imageIds)))
  | (db', Rejected e) => (db', Rejected e)
  end.

(** ** Tag list and expiry sweep *)

(** [Tag]: a tag name with the number of its links. *)
Module Tag.
Record t : Type := mk { name : string; count : Z }.

#[global] Instance eq_dec : EqDecision t.
Proof. solve_decision. Defined.
End Tag.

(** [FROM tags t LEFT JOIN image_tags it ON t.id = it.tag_id]: a tag
    without link gives one row, with NULL for the link. *)
Definition tags_left_join (T : Tables)
    : list (TagRow.t * option ImageTagRow.t) :=
  t ← tags T;
  let matched :=
    filter (λ it, TagRow.id t = ImageTagRow.tag_id it) (image_tags T) in
  if decide (matched = []) then [(t, None)]
  else (λ it, (t, Some it)) <$> matched.

(** [ORDER BY t.name]: TEXT compared byte by byte, ascending. *)
Definition name_first (a b : Tag.t) : Prop :=
  String.leb (Tag.name a) (Tag.name b) = true.

#[global] Instance name_first_dec a b : Decision (name_first a b).
Proof. unfold name_first. apply _. Defined.

(** [SELECT t.name, COUNT(it.image_id) as count ... GROUP BY t.id, t.name
     ORDER BY t.name]: COUNT counts the rows of the group whose link is
    not NULL. *)
Definition getAllTags (db : D1Database) : list Tag.t :=
  let rows := tags_left_join (tables db) in
  let key (row : TagRow.t * option ImageTagRow.t) :=
    (TagRow.id row.1, TagRow.name row.1) in
  let result :=
    (λ k,
       let group := filter (λ row, key row = k) rows in
       Tag.mk k.2
         (Z.of_nat
            (length (omap (λ row : TagRow.t * option ImageTagRow.t,
                             ImageTagRow.image_id <$> row.2) group))))
    <$> nub (key <$> rows) in
  merge_sort name_first result.

(** [expiry_time IS NOT NULL AND expiry_time < ?] *)
Definition expired_before (now : string) (r : ImageRow.t) : Prop :=
  match ImageRow.expiry_time r with
  | Some e => String.ltb e now = true
  | None => False
  end.

#[global] Instance expired_before_dec now r : Decision (expired_before now r).
Proof. unfold expired_before. destruct (ImageRow.expiry_time r); apply _. Defined.

(** [getExpiredImages]; [now] is what [new Date().toISOString()] returns
    when the method is called. *)
Definition getExpiredImages (now : string) (db : D1Database)
    : list ImageMetadata.t :=
  enrichWithTags (filter (expired_before now) (images (tables db))) db.


(** ** The constraints of the schema as an invariant of the tables *)

Record wf (T : Tables) : Prop := mk_wf {
  (** [images.id] is the primary key *)
  wf_image_ids : NoDup (image_ids T);
  (** the CHECK on [images.orientation] *)
  wf_orientation :
    Forall (λ r, orientation_ok (ImageRow.orientation r)) (images T);
  (** [tags.id] is the primary key *)
  wf_tag_ids : NoDup (tag_ids T);
  (** [tags.name] is UNIQUE *)
  wf_tag_names : NoDup (tag_names T);
  (** [(image_id, tag_id)] is the primary key of [image_tags] *)
  wf_links : NoDup (image_tags T);
  (** the two foreign keys of [image_tags] *)
  wf_link_image :
    Forall (λ l, ImageTagRow.image_id l ∈ image_ids T) (image_tags T);
  wf_link_tag :
    Forall (λ l, ImageTagRow.tag_id l ∈ tag_ids T) (image_tags T)
}.

#[global] Instance wf_dec T : Decision (wf T).
Proof.
  refine (cast_if (decide (
    NoDup (image_ids T)
    ∧ Forall (λ r, orientation_ok (ImageRow.orientation r)) (images T)
    ∧ NoDup (tag_ids T) ∧ NoDup (tag_names T) ∧ NoDup (image_tags T)
    ∧ Forall (λ l, ImageTagRow.image_id l ∈ image_ids T) (image_tags T)
    ∧ Forall (λ l, ImageTagRow.tag_id l ∈ tag_ids T) (image_tags T))));
    [ by destruct_and!; constructor
    | intros [??????]; naive_solver ].
Defined.

(** The image [id] is linked to a tag named [name]. *)
Definition linked (T : Tables) (id name : string) : Prop :=
  ∃ t, t ∈ tags T ∧ TagRow.name t = name
       ∧ ImageTagRow.mk id (TagRow.id t) ∈ image_tags T.

(** ** Definitions used to state the properties *)

(** Every tag row named [name] is linked to the image [id], and there is
    one. *)
Definition all_linked (T : Tables) (id name : string) : Prop :=
  name ∈ tag_names T
  ∧ ∀ k, k ∈ tag_ids_named name T → ImageTagRow.mk id k ∈ image_tags T.

(** The statements [saveImage] pushes for the tags of a record. *)
Definition save_tag_statements (id : string) (tags : list string) : list Stmt :=
  flat_map (λ tag, [InsertOrIgnoreTag tag; InsertImageTag id tag]) tags.

(** The statements [batchUpdateTags] pushes for one image id. *)
Definition per_image_statements (addTags removeTags : list string)
    (id : string) : list Stmt :=
  (DeleteImageTag id <$> removeTags) ++ (InsertOrIgnoreImageTag id <$> addTags).

(** The filter of [getImages] as a predicate on an image: linked to [tag]
    when a tag is given, of the given orientation when one is given. *)
Definition matches (tag orientation : option string) (T : Tables)
    (i : ImageRow.t) : Prop :=
  (truthy tag → or_empty tag ∈ tag_names_of (ImageRow.id i) T)
  ∧ (truthy orientation → ImageRow.orientation i = or_empty orientation).

#[global] Instance matches_dec tag orientation T i
  : Decision (matches tag orientation T i).
Proof. unfold matches. apply _. Defined.

(** The condition list [getImages] builds. *)
Definition getImages_conditions (tag orientation : option string)
    : list Cond :=
  (if truthy tag then [TagNameIs (or_empty tag)] else [])
  ++ (if truthy orientation then [OrientationIs (or_empty orientation)]
      else []).

(** The query of [getImages] without its LIMIT and OFFSET: the full
    filtered result. *)
Definition listing (tag orientation : option string) (db : D1Database)
    : list ImageRow.t :=
  order_by_upload_time_desc
    (nub ((where_ (tables db) (getImages_conditions tag orientation)
             (from_images (truthy tag) (tables db))).*1)).

(** The first query of [getImages]: [COUNT(DISTINCT i.id)] over the rows
    that pass the filter. *)
Definition count_distinct_ids (tag orientation : option string)
    (db : D1Database) : Z :=
  Z.of_nat
    (length (nub (ImageRow.id
                  <$> (where_ (tables db) (getImages_conditions tag orientation)
                         (from_images (truthy tag) (tables db))).*1))).

(** The statements that touch only [tags] and [image_tags], and never
    remove or rename a tag. *)
Definition tag_statement (s : Stmt) : Prop :=
  match s with
  | InsertOrIgnoreTag _ | InsertImageTag _ _ | InsertOrIgnoreImageTag _ _
  | DeleteImageTag _ _ => True
  | _ => False
  end.

(** What [UPDATE images SET expiry_time = ? WHERE id = ?] does to a row. *)
Definition with_expiry (expiry : option string) (id : string)
    (r : ImageRow.t) : ImageRow.t :=
  if decide (ImageRow.id r = id) then ImageRow.set_expiry_time expiry r else r.

(** The filter of [getRandomImage] as a predicate on an image: linked to
    every tag of [tags], to no tag of [exclude], and of the given
    orientation when one is given. *)
Definition qualifies (tags exclude : option (list string))
    (orientation : option string) (T : Tables) (i : ImageRow.t) : Prop :=
  (∀ x, x ∈ default [] tags → linked T (ImageRow.id i) x)
  ∧ (∀ x, x ∈ default [] exclude → ¬ linked T (ImageRow.id i) x)
  ∧ (truthy orientation → ImageRow.orientation i = or_empty orientation).

(** The condition list [getRandomImage] builds. *)
Definition getRandomImage_conditions (tags exclude : option (list string))
    (orientation : option string) : list Cond :=
  (if nonempty tags then [TagNameIn (default [] tags)] else [])
  ++ (if nonempty exclude then [NotTagged (default [] exclude)] else [])
  ++ (if truthy orientation
      then [OrientationIs (or_empty orientation)] else []).

(** The rows of the query of [getRandomImage] before ORDER BY and LIMIT. *)
Definition candidates (tags exclude : option (list string))
    (orientation : option string) (T : Tables) : list ImageRow.t :=
  let matching :=
    where_ T (getRandomImage_conditions tags exclude orientation)
      (from_images (nonempty tags) T) in
  if nonempty tags
  then group_by_id_having_count (length (default [] tags)) matching
  else matching.*1.

(** A call of a write method of the service. *)
Inductive Write : Type :=
  | WSaveImage (metadata : ImageMetadata.t)
  | WUpdateImage (id : string) (updates : Updates.t)
  | WDeleteImage (id : string)
  | WCreateTag (name : string)
  | WRenameTag (oldName newName : string)
  | WDeleteTag (name : string)
  | WBatchUpdateTags (imageIds addTags removeTags : list string).

(** The database after the call has settled, fulfilled or rejected. *)
Definition after (db : D1Database) (w : Write) : D1Database :=
  match w with
  | WSaveImage metadata => (saveImage metadata db).1
  | WUpdateImage id updates => (updateImage id updates db).1
  | WDeleteImage id => (deleteImage id db).1
  | WCreateTag name => (createTag name db).1
  | WRenameTag oldName newName => (renameTag oldName newName db).1
  | WDeleteTag name => (deleteTag name db).1
  | WBatchUpdateTags imageIds addTags removeTags =>
      (batchUpdateTags imageIds addTags removeTags db).1
  end.

(** ** The upload handler

    [worker/src/handlers/upload.ts], function [uploadHandler].  The services
    it calls other than [MetadataService] (storage, image inspection,
    compression, cache, request parsing, id generation, the clock) are taken
    as they are used, in the class [Collaborators]: a call that can throw
    returns [None] or a failure flag. *)

Definition MAX_UPLOAD_COUNT : nat := 20.
Definition MAX_FILE_SIZE : Z := 10 * 1024 * 1024.

(** A [File] of the form: [arrayBuffer] is what [await file.arrayBuffer()]
    gives, [None] when it is rejected. *)
Module File.
Record t : Type := mk {
  name : string;
  size : Z;
  arrayBuffer : option (list Byte.byte)
}.
End File.

(** An entry of [formData.getAll('images[]')]: a string or a [File]. *)
Inductive FormDataEntry : Type :=
  | EntryString (value : string)
  | EntryFile (file : File.t).

Module FormData.
Record t : Type := mk {
  images : list FormDataEntry;
  tags : option string;
  expiryMinutes : option string
}.
End FormData.

(** What [ImageProcessor.getImageInfo] resolves to. *)
Module ImageInfo.
Record t : Type := mk {
  format : string;
  orientation : string;
  width : Z;
  height : Z
}.
End ImageInfo.

(** What [compression.compress] resolves to: each variant may be absent. *)
Module Compressed.
Record t : Type := mk { data : list Byte.byte; size : Z }.
End Compressed.

Module CompressionResult.
Record t : Type := mk { webp : option Compressed.t; avif : option Compressed.t }.
End CompressionResult.

Module Urls.
Record t : Type := mk { original : string; webp : string; avif : string }.
End Urls.

(** [UploadResult]: a success entry, or an error entry (whose [id] is the
    empty string). *)
Inductive UploadResult : Type :=
  | UploadSuccess (id : string) (urls : Urls.t) (orientation : string)
      (tags : list string) (sizes : Sizes.t) (expiryTime : option string)
      (format : string)
  | UploadError (error : string).

(** [successResponse({ results })] and [errorResponse(message)]. *)
Inductive Response : Type :=
  | successResponse (results : list UploadResult)
  | errorResponse (message : string).

Class Collaborators : Type := {
  (** the R2 bucket and the cache namespace *)
  Bucket : Type;
  Cache : Type;
  (** the value of [parseCompressionOptions(formData)] *)
  Options : Type;
  compressionOptions : Options;
  (** JavaScript numbers as [parseNumber(_, 0)] returns them, with the test
      [expiryMinutes > 0] *)
  Number : Type;
  parseNumber : option string → Number;
  positive : Number → bool;
  parseTags : option string → list string;
  (** [ImageProcessor] *)
  getImageInfo : list Byte.byte → option ImageInfo.t;
  isSupportedFormat : string → bool;
  getContentType : string → string;
  (** the [k]-th id [generateImageId()] returns *)
  generateImageId : nat → string;
  generatePaths : string → string → string → Paths.t;
  (** [storage.upload(path, data, contentType)]: the bucket afterwards, and
      whether the promise was fulfilled *)
  upload : string → list Byte.byte → string → Bucket → Bucket * bool;
  (** [compression.compress], when [c.env.IMAGES] is bound *)
  compress :
    option (list Byte.byte → string → Options → option CompressionResult.t);
  (** [new Date(Date.now() + expiryMinutes * 60 * 1000).toISOString()] at
      the [k]-th reading of the clock; [None] when the date is invalid and
      [toISOString] throws *)
  expiryAt : nat → Number → option string;
  (** [new Date().toISOString()] at the [k]-th reading of the clock *)
  isoNow : nat → string;
  (** the two cache invalidations awaited together *)
  invalidate : Cache → Cache * bool;
  (** [new URL(c.req.url).origin] *)
  workerUrl : string
}.

Section UploadHandler.
Context `{Collaborators}.

(** What the handler acts on: the database, the bucket, the cache, and how
    many ids and clock readings have been taken. *)
Record World : Type := mkWorld {
  db : D1Database;
  bucket : Bucket;
  cache : Cache;
  generated : nat;
  clock : nat
}.

(** A computation that may throw: the world afterwards, and the value unless
    it threw. *)
Definition M (A : Type) : Type := World → World * option A.

Definition ret {A} (a : A) : M A := λ w, (w, Some a).

Definition bind {A B} (m : M A) (f : A → M B) : M B :=
  λ w, match m w with
       | (w', Some a) => f a w'
       | (w', None) => (w', None)
       end.

(** [await] of a promise that is fulfilled with [a] or rejected. *)
Definition await {A} (o : option A) : M A := λ w, (w, o).

(** [try { m } catch { handler }] *)
Definition try_catch {A} (m handler : M A) : M A :=
  λ w, match m w with
       | (w', Some a) => (w', Some a)
       | (w', None) => handler w'
       end.

Definition storage_upload (path : string) (data : list Byte.byte)
    (contentType : string) : M unit :=
  λ w, let '(b, ok) := upload path data contentType (bucket w) in
       (mkWorld (db w) b (cache w) (generated w) (clock w),
        if ok then Some () else None).

Definition generate_id : M string :=
  λ w, (mkWorld (db w) (bucket w) (cache w) (S (generated w)) (clock w),
        Some (generateImageId (generated w))).

Definition expiry_from_now (expiryMinutes : Number) : M string :=
  λ w, (mkWorld (db w) (bucket w) (cache w) (generated w) (S (clock w)),
        expiryAt (clock w) expiryMinutes).

Definition iso_now : M string :=
  λ w, (mkWorld (db w) (bucket w) (cache w) (generated w) (S (clock w)),
        Some (isoNow (clock w))).

(** [await metadata.saveImage(imageMetadata)] *)
Definition metadata_saveImage (imageMetadata : ImageMetadata.t) : M unit :=
  λ w, let '(db', settled) := saveImage imageMetadata (db w) in
       (mkWorld db' (bucket w) (cache w) (generated w) (clock w),
        match settled with
        | Fulfilled _ => Some ()
        | Rejected _ => None
        end).

Definition cache_invalidate : M unit :=
  λ w, let '(c, ok) := invalidate (cache w) in
       (mkWorld (db w) (bucket w) c (generated w) (clock w),
        if ok then Some () else None).

(** The fallback: the original is stored for both formats. *)
Definition store_original_copies (paths : Paths.t)
    (arrayBuffer : list Byte.byte) (contentType : string) (file : File.t)
    : M (Z * Z) :=
  bind (storage_upload (Paths.webp paths) arrayBuffer contentType) (λ _,
  bind (storage_upload (Paths.avif paths) arrayBuffer contentType) (λ _,
  ret (File.size file, File.size file))).

(** The WebP and AVIF versions of an image that is no GIF; the result is
    [(webpSize, avifSize)]. *)
Definition store_variants (paths : Paths.t) (arrayBuffer : list Byte.byte)
    (contentType : string) (file : File.t) (format : string) : M (Z * Z) :=
  match compress with
  | Some compress =>
      try_catch
        (bind (await (compress arrayBuffer format compressionOptions))
           (λ compressionResult,
         bind (match CompressionResult.webp compressionResult with
               | Some webp =>
                   bind (storage_upload (Paths.webp paths)
                           (Compressed.data webp) "image/webp") (λ _,
                   ret (Compressed.size webp))
               | None =>
                   bind (storage_upload (Paths.webp paths) arrayBuffer
                           contentType) (λ _,
                   ret (File.size file))
               end) (λ webpSize,
         bind (match CompressionResult.avif compressionResult with
               | Some avif =>
                   bind (storage_upload (Paths.avif paths)
                           (Compressed.data avif) "image/avif") (λ _,
                   ret (Compressed.size avif))
               | None =>
                   bind (storage_upload (Paths.avif paths) arrayBuffer
                           contentType) (λ _,
                   ret (File.size file))
               end) (λ avifSize,
         ret (webpSize, avifSize)))))
        (store_original_copies paths arrayBuffer contentType file)
  | None => store_original_copies paths arrayBuffer contentType file
  end.

(** The record the handler saves and the entry it pushes for it. *)
Definition upload_metadata (id : string) (file : File.t)
    (imageInfo : ImageInfo.t) (paths : Paths.t) (tags : list string)
    (sizes : Z * Z) (expiryTime : option string) (uploadTime : string)
    : ImageMetadata.t :=
  ImageMetadata.mk id (File.name file) uploadTime expiryTime
    (ImageInfo.orientation imageInfo) tags (ImageInfo.format imageInfo)
    (ImageInfo.width imageInfo) (ImageInfo.height imageInfo) paths
    (Sizes.mk (File.size file) sizes.1 sizes.2).

Definition upload_urls (isGif : bool) (paths : Paths.t) : Urls.t :=
  let baseUrl := workerUrl +:+ "/r2" in
  Urls.mk (baseUrl +:+ "/" +:+ Paths.original paths)
    (if isGif then "" else baseUrl +:+ "/" +:+ Paths.webp paths)
    (if isGif then "" else baseUrl +:+ "/" +:+ Paths.avif paths).

(** The body of the loop for one file: the entry pushed on [results]. *)
Definition upload_file (tags : list string) (expiryMinutes : Number)
    (file : File.t) : M UploadResult :=
  try_catch
    (if decide (MAX_FILE_SIZE < File.size file) then
       ret (UploadError
              ("File " +:+ File.name file
               +:+ " exceeds maximum size of 10MB"))
     else
       bind (await (File.arrayBuffer file)) (λ arrayBuffer,
       bind (await (getImageInfo arrayBuffer)) (λ imageInfo,
       let format := ImageInfo.format imageInfo in
       if negb (isSupportedFormat format) then
         ret (UploadError ("Unsupported format: " +:+ format))
       else
         bind generate_id (λ id,
         let paths :=
           generatePaths id (ImageInfo.orientation imageInfo) format in
         let contentType := getContentType format in
         bind (storage_upload (Paths.original paths) arrayBuffer contentType)
           (λ _,
         let isGif := bool_decide (format = "gif") in
         bind (if isGif then ret (0, 0)
               else store_variants paths arrayBuffer contentType file format)
           (λ sizes,
         bind (if positive expiryMinutes
               then bind (expiry_from_now expiryMinutes) (λ e, ret (Some e))
               else ret None) (λ expiryTime,
         bind iso_now (λ uploadTime,
         let imageMetadata :=
           upload_metadata id file imageInfo paths tags sizes expiryTime
             uploadTime in
         bind (metadata_saveImage imageMetadata) (λ _,
         ret (UploadSuccess id (upload_urls isGif paths)
                (ImageInfo.orientation imageInfo) tags
                (ImageMetadata.sizes imageMetadata) expiryTime format))))))))))
    (ret (UploadError ("Failed to upload " +:+ File.name file))).

(** [for (const file of files) { ... }] *)
Fixpoint upload_files (tags : list string) (expiryMinutes : Number)
    (files : list File.t) : M (list UploadResult) :=
  match files with
  | [] => ret []
  | file :: rest =>
      bind (upload_file tags expiryMinutes file) (λ result,
      bind (upload_files tags expiryMinutes rest) (λ results,
      ret (result :: results)))
  end.

Definition is_success (r : UploadResult) : bool :=
  match r with
  | UploadSuccess _ _ _ _ _ _ _ => true
  | UploadError _ => false
  end.

(** The entries of the form that are files. *)
Definition form_files (entries : list FormDataEntry) : list File.t :=
  omap (λ entry, match entry with
                 | EntryFile file => Some file
                 | EntryString _ => None
                 end) entries.

(** [uploadHandler]; [formData] is what [await c.req.formData()] gives,
    [None] when it is rejected. *)
Definition uploadHandler (formData : option FormData.t) (w : World)
    : World * Response :=
  let body : M Response :=
    bind (await formData) (λ formData,
    let files := form_files (FormData.images formData) in
    let expiryMinutes := parseNumber (FormData.expiryMinutes formData) in
    if decide (length files = 0%nat) then
      ret (errorResponse "No files provided")
    else if decide (MAX_UPLOAD_COUNT < length files)%nat then
      ret (errorResponse "Maximum 20 files allowed per upload")
    else
      let tags := parseTags (FormData.tags formData) in
      bind (upload_files tags expiryMinutes files) (λ results,
      let successCount := length (filter (λ r, is_success r) results) in
      bind (if decide (0 < successCount)%nat then cache_invalidate
            else ret ()) (λ _,
      ret (successResponse results)))) in
  match body w with
  | (w', Some response) => (w', response)
  | (w', None) => (w', errorResponse "Upload failed")
  end.
(** A computation that touches neither the database nor the cache. *)
Definition keeps {A} (m : M A) : Prop :=
  ∀ w w' o, m w = (w', o) → db w' = db w ∧ cache w' = cache w.

(** The ids of the success entries. *)
Definition success_ids (results : list UploadResult) : list string :=
  omap (λ r, match r with
             | UploadSuccess id _ _ _ _ _ _ => Some id
             | UploadError _ => None
             end) results.

(** What the loop body does for one file, from world [w] to world [w']:
    a success entry stands for one fulfilled [saveImage]; an error entry
    leaves the tables as they are. *)
Definition file_step (tags : list string) (w : World) (file : File.t)
    (r : UploadResult) (w' : World) : Prop :=
  cache w' = cache w
  ∧ match r with
    | UploadSuccess id urls orientation tags' sizes expiryTime format =>
        ∃ imageMetadata,
          saveImage imageMetadata (db w) = (db w', Fulfilled ())
          ∧ ImageMetadata.id imageMetadata = id
          ∧ ImageMetadata.originalName imageMetadata = File.name file
          ∧ ImageMetadata.expiryTime imageMetadata = expiryTime
          ∧ ImageMetadata.orientation imageMetadata = orientation
          ∧ ImageMetadata.tags imageMetadata = tags
          ∧ ImageMetadata.format imageMetadata = format
          ∧ ImageMetadata.sizes imageMetadata = sizes
          ∧ urls = upload_urls (bool_decide (format = "gif"))
                     (ImageMetadata.paths imageMetadata)
          ∧ tags' = tags
          ∧ Sizes.original sizes = File.size file
          ∧ File.size file ≤ MAX_FILE_SIZE
          ∧ isSupportedFormat format = true
          ∧ (format = "gif" → Sizes.webp sizes = 0 ∧ Sizes.avif sizes = 0)
    | UploadError error =>
        (error = "File " +:+ File.name file
                 +:+ " exceeds maximum size of 10MB"
         ∧ MAX_FILE_SIZE < File.size file ∧ w' = w)
        ∨ (∃ format, error = "Unsupported format: " +:+ format
                     ∧ isSupportedFormat format = false
                     ∧ File.size file ≤ MAX_FILE_SIZE ∧ w' = w)
        ∨ (error = "Failed to upload " +:+ File.name file
           ∧ File.size file ≤ MAX_FILE_SIZE
           ∧ (db w' = db w
              ∨ ∃ imageMetadata e,
                  ImageMetadata.tags imageMetadata = tags
                  ∧ saveImage imageMetadata (db w) = (db w', Rejected e)))
    end.

(** What an entry says about its file, whatever the world. *)
Definition entry_for (tags : list string) (file : File.t)
    (r : UploadResult) : Prop :=
  match r with
  | UploadSuccess id urls orientation tags' sizes expiryTime format =>
      tags' = tags
      ∧ Sizes.original sizes = File.size file
      ∧ File.size file ≤ MAX_FILE_SIZE
      ∧ isSupportedFormat format = true
      ∧ (format = "gif" →
         Urls.webp urls = "" ∧ Urls.avif urls = ""
         ∧ Sizes.webp sizes = 0 ∧ Sizes.avif sizes = 0)
  | UploadError error =>
      (MAX_FILE_SIZE < File.size file
       ∧ error = "File " +:+ File.name file
                 +:+ " exceeds maximum size of 10MB")
      ∨ (File.size file ≤ MAX_FILE_SIZE
         ∧ (error = "Failed to upload " +:+ File.name file
            ∨ ∃ format, isSupportedFormat format = false
                        ∧ error = "Unsupported format: " +:+ format))
  end.

(** A success entry is backed by the record [getImage] returns for its
    id. *)
Definition stored_entry (d : D1Database) (file : File.t)
    (r : UploadResult) : Prop :=
  match r with
  | UploadSuccess id urls orientation tags sizes expiryTime format =>
      ∃ image,
        getImage id d = Some image
        ∧ ImageMetadata.originalName image = File.name file
        ∧ ImageMetadata.tags image ≡ₚ tags
        ∧ ImageMetadata.sizes image = sizes
        ∧ ImageMetadata.orientation image = orientation
        ∧ ImageMetadata.format image = format
        ∧ ImageMetadata.expiryTime image = or_null expiryTime
        ∧ urls = upload_urls (bool_decide (format = "gif"))
                   (ImageMetadata.paths image)
  | UploadError _ => True
  end.

(** The loop: one step per file, in order. *)
Inductive files_steps (tags : list string)
    : World → list File.t → list UploadResult → World → Prop :=
  | files_steps_nil w : files_steps tags w [] [] w
  | files_steps_cons w file r w1 files results w2 :
      file_step tags w file r w1 →
      files_steps tags w1 files results w2 →
      files_steps tags w (file :: files) (r :: results) w2.
End UploadHandler.


(** ** A small database for the worked examples *)

Definition empty_db : D1Database := mkD1 empty_tables [].

Definition sample_image (id uploadTime orientation : string)
    (tags : list string) : ImageMetadata.t :=
  ImageMetadata.mk id "cat.png" uploadTime None orientation tags "png"
    800 600
    (Paths.mk ("original/" +:+ id +:+ ".png") ("webp/" +:+ id +:+ ".webp")
       ("avif/" +:+ id +:+ ".avif"))
    (Sizes.mk 4096 1024 512).

Definition img1 : ImageMetadata.t :=
  sample_image "img1" "2024-05-01T10:00:00.000Z" "landscape" ["cat"; "orange"].

(** The database after [saveImage(img1)] on an empty one. *)
Definition db1 : D1Database := (saveImage img1 empty_db).1.

Definition img3 : ImageMetadata.t :=
  ImageMetadata.mk "img3" "kitten.png" "2024-05-03T10:00:00.000Z"
    (Some "2030-01-01T00:00:00.000Z") "portrait" ["cat"] "png" 600 800
    (Paths.mk "original/img3.png" "webp/img3.webp" "avif/img3.avif")
    (Sizes.mk 2048 512 256).

(** The database after [saveImage(img1)] and [saveImage(img3)]. *)
Definition db3 : D1Database := (saveImage img3 db1).1.

(** The database [db1] after [createTag("feline")]. *)
Definition db_feline : D1Database := (createTag "feline" db1).1.

(** The pieces of [s] between the occurrences of the character [c]. *)
Fixpoint split_on (c : ascii) (s : string) : list string :=
  match s with
  | EmptyString => [""]
  | String a s' =>
      if decide (a = c) then "" :: split_on c s'
      else match split_on c s' with
           | piece :: pieces => String a piece :: pieces
           | [] => [String a ""]
           end
  end.

(** Collaborators for the worked examples: every upload and invalidation
    succeeds, there is no compression service, every image is a PNG. *)
Definition sample_collaborators : Collaborators := {|
  Bucket := list string;
  Cache := nat;
  Options := unit;
  compressionOptions := ();
  Number := Z;
  parseNumber := λ _, 0;
  positive := λ n, bool_decide (0 < n);
  parseTags := λ s, match s with Some v => split_on "," v | None => [] end;
  getImageInfo := λ _, Some (ImageInfo.mk "png" "landscape" 800 600);
  isSupportedFormat := λ format, bool_decide (format ≠ "bmp");
  getContentType := λ format, "image/" +:+ format;
  generateImageId := λ k, String.concat "-" ("upload" :: replicate k "x");
  generatePaths := λ id orientation format,
    Paths.mk ("original/" +:+ id) ("webp/" +:+ id) ("avif/" +:+ id);
  upload := λ path _ _ bucket, (bucket ++ [path], true);
  compress := None;
  expiryAt := λ _ _, Some "2030-01-01T00:00:00.000Z";
  isoNow := λ _, "2024-05-01T10:00:00.000Z";
  invalidate := λ c, (S c, true);
  workerUrl := "https://pics.example"
|}.

Definition sample_world : @World sample_collaborators :=
  @mkWorld sample_collaborators empty_db [] 0%nat 0%nat 0%nat.

(** A form with one small file and the tag [cat]. *)
Definition sample_form : FormData.t :=
  FormData.mk [EntryString "note"; EntryFile (File.mk "cat.png" 100 (Some []))]
    (Some "cat") None.

(** The same file, with the tag [cat] given twice. *)
Definition sample_form_twice : FormData.t :=
  FormData.mk [EntryFile (File.mk "cat.png" 100 (Some []))]
    (Some "cat,cat") None.

(** ** The calls on the handle *)

(** A batch with at least one statement. *)
Lemma batch_nonempty statements db :
  statements ≠ [] →
  batch statements db
  = match exec_all statements (tables db) with
    | inr T' => (mkD1 T' (calls db ++ [CallBatch statements]), Fulfilled ())
    | inl e =>
        (mkD1 (tables db) (calls db ++ [CallBatch statements]), Rejected e)
    end.
Proof. by destruct statements. Qed.

(** An empty batch is rejected and changes nothing. *)
Lemma batch_nil db :
  batch [] db
  = (mkD1 (tables db) (calls db ++ [CallBatch []]), Rejected NoStatements).
Proof. reflexivity. Qed.

(** The batch of [saveImage] always holds the image insert. *)
Lemma saveImage_batch metadata db :
  saveImage metadata db
  = match exec_all (saveImage_statements metadata) (tables db) with
    | inr T' =>
        (mkD1 T' (calls db ++ [CallBatch (saveImage_statements metadata)]),
         Fulfilled ())
    | inl e =>
        (mkD1 (tables db)
           (calls db ++ [CallBatch (saveImage_statements metadata)]),
         Rejected e)
    end.
Proof. reflexivity. Qed.

(** ** Basic facts about the tables *)

Section TableFacts.
Implicit Types (T : Tables) (id name : string).

Lemma elem_of_tag_names_of T id name :
  name ∈ tag_names_of id T ↔ linked T id name.
Proof.
  unfold tag_names_of, linked. rewrite list_elem_of_bind. split.
  - intros (t & Hin & Ht). apply list_elem_of_bind in Hin as (it & Hin & Hit).
    case_decide as Hc; [|by apply elem_of_nil in Hin].
    apply list_elem_of_singleton in Hin as ->. destruct Hc as [Hk <-].
    exists t. split_and!; [done..|]. rewrite Hk. by destruct it.
  - intros (t & Ht & Hname & Hl). exists t. split; [|done].
    apply list_elem_of_bind. eexists. split; [|exact Hl]. simpl.
    rewrite decide_True by done. rewrite Hname. by apply list_elem_of_singleton.
Qed.

Lemma filter_id_nonempty T id :
  id ∈ image_ids T ↔ filter (λ r, ImageRow.id r = id) (images T) ≠ [].
Proof.
  unfold image_ids. rewrite list_elem_of_fmap. split.
  - intros (r & -> & Hr) Hnil.
    assert (r ∈ filter (λ r', ImageRow.id r' = ImageRow.id r) (images T)) as Hin
      by (by apply list_elem_of_filter).
    rewrite Hnil in Hin. by apply elem_of_nil in Hin.
  - intros Hne. destruct (filter _ _) as [|r l] eqn:Hf; [done|].
    assert (r ∈ filter (λ r', ImageRow.id r' = id) (images T)) as Hin
      by (rewrite Hf; left).
    apply list_elem_of_filter in Hin as [? ?]. by exists r.
Qed.

Lemma filter_all {A} (P : A → Prop) `{∀ x, Decision (P x)} (l : list A) :
  Forall P l → filter P l = l.
Proof.
  induction 1 as [|x l Hx _ IH]; [done|].
  by rewrite filter_cons_True, IH.
Qed.

Lemma filter_none {A} (P : A → Prop) `{∀ x, Decision (P x)} (l : list A) :
  Forall (λ x, ¬ P x) l → filter P l = [].
Proof.
  induction 1 as [|x l Hx _ IH]; [done|].
  by rewrite filter_cons_False.
Qed.

Lemma getImage_None id db :
  getImage id db = None ↔ id ∉ image_ids (tables db).
Proof.
  unfold getImage. rewrite filter_id_nonempty.
  destruct (filter _ _) as [|r l]; simpl.
  - split; [by intros _ Hne|done].
  - split; [done|]. intros Hne. by destruct Hne.
Qed.

Lemma getImage_Some id db image :
  getImage id db = Some image →
  id ∈ image_ids (tables db)
  ∧ ImageMetadata.id image = id
  ∧ ImageMetadata.tags image = tag_names_of id (tables db).
Proof.
  intros Hget. split.
  - destruct (decide (id ∈ image_ids (tables db))) as [|Hn]; [done|].
    apply getImage_None in Hn. congruence.
  - unfold getImage in Hget.
    destruct (filter _ _) as [|r l] eqn:Hf; simpl in Hget; [done|].
    injection Hget as <-. simpl. split; [|done].
    assert (r ∈ filter (λ r', ImageRow.id r' = id) (images (tables db))) as Hin
      by (rewrite Hf; left).
    by apply list_elem_of_filter in Hin as [? ?].
Qed.
End TableFacts.

(** ** deleteImage *)

(** C8.  [deleteImage id] is fulfilled with [true] exactly when a row of
    [images] had that id, and the row is then gone together with its links;
    it is fulfilled with [false] when there was no such row, and then the
    tables are the ones from before the call.  It is never rejected. *)
Theorem deleteImage_true_iff_row_deleted (id : string) (db : D1Database) :
  ∃ b : bool,
    (deleteImage id db).2 = Fulfilled b
    ∧ (b = true ↔ id ∈ image_ids (tables db))
    ∧ (id ∉ image_ids (tables ((deleteImage id db).1)))
    ∧ (b = true →
       Forall (λ l, ImageTagRow.image_id l ≠ id)
         (image_tags (tables ((deleteImage id db).1))))
    ∧ (b = false → tables ((deleteImage id db).1) = tables db).
Proof.
  unfold deleteImage, run. simpl.
  set (gone := filter (λ r, ImageRow.id r = id) (images (tables db))).
  assert (0 < Z.of_nat (length gone) ↔ id ∈ image_ids (tables db)) as Hpos.
  { rewrite filter_id_nonempty. fold gone.
    destruct gone; simpl; [|split; [done|lia]]. split; [lia|done]. }
  eexists. split; [done|]. split_and!.
  - by rewrite bool_decide_eq_true.
  - unfold image_ids. simpl. rewrite list_elem_of_fmap.
    intros (r & -> & Hr). by apply list_elem_of_filter in Hr as [? ?].
  - rewrite bool_decide_eq_true, Hpos. intros Hin. simpl.
    apply Forall_forall. intros l Hl Heq.
    apply list_elem_of_filter in Hl as [Hl _].
    apply list_elem_of_fmap in Hin as (r & -> & Hr). apply Hl.
    apply list_elem_of_fmap. exists r. split; [done|].
    by apply list_elem_of_filter.
  - rewrite bool_decide_eq_false, Hpos, filter_id_nonempty. fold gone.
    intros Hnil. apply dec_stable in Hnil. rewrite Hnil. simpl.
    destruct (tables db) as [im tg sq lk]. simpl in *. f_equal.
    + apply filter_all, Forall_forall. intros r Hr Heq.
      assert (r ∈ gone) as Hg by (by apply list_elem_of_filter).
      rewrite Hnil in Hg. by apply elem_of_nil in Hg.
    + apply filter_all, Forall_forall. intros l _. apply not_elem_of_nil.
Qed.

(** ** What the statements of [saveImage] do, on any tables *)

Section InsertFacts.
Implicit Types (T : Tables) (id name : string).

Lemma exec_InsertOrIgnoreTag T name :
  ∃ T1 n, exec (InsertOrIgnoreTag name) T = Done T1 n
    ∧ images T1 = images T
    ∧ image_tags T1 = image_tags T
    ∧ name ∈ tag_names T1
    ∧ (name ∈ tag_names T → T1 = T)
    ∧ (name ∉ tag_names T →
       tags T1 = tags T ++ [TagRow.mk (next_tag_id T) name]).
Proof.
  simpl. case_decide as Hin.
  - by exists T, 0.
  - eexists _, _. split; [done|]. simpl. split_and!; try done.
    unfold tag_names. simpl. rewrite fmap_app. apply elem_of_app. right.
    by apply list_elem_of_singleton.
Qed.

Lemma insert_image_tags_Done ignore rows T n T' n' :
  insert_image_tags ignore rows T n = Done T' n' →
  images T' = images T ∧ tags T' = tags T ∧ tags_seq T' = tags_seq T
  ∧ (∀ r, r ∈ image_tags T' ↔ r ∈ image_tags T ∨ r ∈ rows).
Proof.
  revert T n. induction rows as [|r rows IH]; intros T n Hins; simpl in Hins.
  - injection Hins as <- <-. split_and!; try done.
    intros r. rewrite elem_of_nil. tauto.
  - case_decide as Hin.
    + destruct ignore; [|done]. apply IH in Hins as (? & ? & ? & Hl).
      split_and!; try done.
      intros r'. rewrite Hl, elem_of_cons. split; [tauto|].
      intros [?|[->|?]]; tauto.
    + case_decide as Hfk; [|done].
      apply IH in Hins as (? & ? & ? & Hl). simpl in *.
      split_and!; try done.
      intros r'. rewrite Hl, elem_of_app, list_elem_of_singleton, elem_of_cons.
      tauto.
Qed.

(** A plain INSERT of rows whose image and tags exist either goes through
    or hits the primary key. *)
Lemma insert_image_tags_plain rows T n :
  Forall (λ r, ImageTagRow.image_id r ∈ image_ids T
               ∧ ImageTagRow.tag_id r ∈ tag_ids T) rows →
  (∃ T' n', insert_image_tags false rows T n = Done T' n')
  ∨ insert_image_tags false rows T n
    = Abort (PrimaryKeyViolation "image_tags").
Proof.
  revert T n. induction rows as [|r rows IH]; intros T n Hfk; simpl.
  - left. by eexists _, _.
  - apply Forall_cons in Hfk as [Hr Hfk].
    case_decide; [by right|]. rewrite decide_True by done. by apply IH.
Qed.

(** It hits the primary key as soon as one of the rows is there already. *)
Lemma insert_image_tags_plain_present rows T n r :
  Forall (λ r, ImageTagRow.image_id r ∈ image_ids T
               ∧ ImageTagRow.tag_id r ∈ tag_ids T) rows →
  r ∈ rows → r ∈ image_tags T →
  insert_image_tags false rows T n
  = Abort (PrimaryKeyViolation "image_tags").
Proof.
  revert T n. induction rows as [|r0 rows IH]; intros T n Hfk Hr Hin; simpl.
  - by apply elem_of_nil in Hr.
  - apply Forall_cons in Hfk as [Hr0 Hfk].
    case_decide as Hin0; [done|]. rewrite decide_True by done.
    apply elem_of_cons in Hr as [->|Hr]; [done|].
    apply IH; [done..|]. simpl. apply elem_of_app. by left.
Qed.

Lemma tag_ids_named_fk T name :
  Forall (λ k, k ∈ tag_ids T) (tag_ids_named name T).
Proof.
  apply Forall_forall. intros k Hk. unfold tag_ids_named in Hk.
  apply list_elem_of_fmap in Hk as (t & -> & Ht).
  apply list_elem_of_filter in Ht as [_ Ht]. by apply list_elem_of_fmap_2.
Qed.

Lemma tag_ids_named_nonempty T name :
  name ∈ tag_names T → ∃ k, k ∈ tag_ids_named name T.
Proof.
  intros Hin. apply list_elem_of_fmap in Hin as (t & -> & Ht).
  exists (TagRow.id t). apply list_elem_of_fmap_2.
  by apply list_elem_of_filter.
Qed.

Lemma link_rows_fk T id name :
  id ∈ image_ids T →
  Forall (λ r, ImageTagRow.image_id r ∈ image_ids T
               ∧ ImageTagRow.tag_id r ∈ tag_ids T)
    (ImageTagRow.mk id <$> tag_ids_named name T).
Proof.
  intros Hid. apply Forall_fmap. eapply Forall_impl; [apply tag_ids_named_fk|].
  by intros k Hk.
Qed.
End InsertFacts.

(** ** saveImage *)

Section SaveImage.
Implicit Types (T : Tables) (id name : string).

Lemma exec_all_Done s rest T T' n :
  exec s T = Done T' n → exec_all (s :: rest) T = exec_all rest T'.
Proof. intros He. cbn [exec_all]. by rewrite He. Qed.

Lemma exec_all_Abort s rest T e :
  exec s T = Abort e → exec_all (s :: rest) T = inl e.
Proof. intros He. cbn [exec_all]. by rewrite He. Qed.

Lemma tag_ids_named_ext T T' name :
  tags T' = tags T → tag_ids_named name T' = tag_ids_named name T.
Proof. unfold tag_ids_named. by intros ->. Qed.

Lemma tag_ids_named_snoc T T' name k other :
  tags T' = tags T ++ [TagRow.mk k other] → other ≠ name →
  tag_ids_named name T' = tag_ids_named name T.
Proof.
  unfold tag_ids_named. intros -> Hne.
  rewrite filter_app, filter_cons_False, filter_nil by (simpl; congruence).
  by rewrite app_nil_r.
Qed.

(** The two statements [saveImage] pushes for one tag. *)
Lemma save_tag_step T id tag :
  id ∈ image_ids T →
  (∀ rest, exec_all (InsertOrIgnoreTag tag :: InsertImageTag id tag :: rest) T
           = inl (PrimaryKeyViolation "image_tags"))
  ∨ ∃ T2,
      (∀ rest,
         exec_all (InsertOrIgnoreTag tag :: InsertImageTag id tag :: rest) T
         = exec_all rest T2)
      ∧ images T2 = images T
      ∧ all_linked T2 id tag
      ∧ linked T2 id tag
      ∧ (∀ x, all_linked T id x → all_linked T2 id x)
      ∧ (∀ id' x, linked T id' x → linked T2 id' x).
Proof.
  intros Hid.
  destruct (exec_InsertOrIgnoreTag T tag)
    as (T1 & n & He & Him & Hlk & Htag & Hsame & Hnew).
  assert (id ∈ image_ids T1) as Hid1 by (unfold image_ids; by rewrite Him).
  assert (∀ x, x ∈ tag_names T →
               tag_ids_named x T1 = tag_ids_named x T) as Hnamed.
  { intros x Hx. destruct (decide (tag ∈ tag_names T)) as [Hin|Hout].
    - by rewrite (Hsame Hin).
    - eapply tag_ids_named_snoc; [by apply Hnew|]. by intros ->. }
  assert (∀ t, t ∈ tags T → t ∈ tags T1) as Hsub.
  { intros t Ht. destruct (decide (tag ∈ tag_names T)) as [Hin|Hout].
    - by rewrite (Hsame Hin).
    - rewrite (Hnew Hout). apply elem_of_app. by left. }
  destruct (insert_image_tags_plain
              (ImageTagRow.mk id <$> tag_ids_named tag T1) T1 0
              (link_rows_fk T1 id tag Hid1)) as [(T2 & n2 & Hins)|Hab].
  - right. exists T2.
    apply insert_image_tags_Done in Hins as Hdone.
    destruct Hdone as (Him2 & Htg2 & _ & Hl2).
    assert (all_linked T2 id tag) as Hall.
    { split.
      - unfold tag_names. by rewrite Htg2.
      - intros k Hk. rewrite (tag_ids_named_ext T1 T2) in Hk by done.
        apply Hl2. right. by apply list_elem_of_fmap_2. }
    split_and!.
    + intros rest. rewrite (exec_all_Done _ _ _ _ _ He).
      by rewrite (exec_all_Done (InsertImageTag id tag) rest T1 T2 n2 Hins).
    + congruence.
    + done.
    + destruct (tag_ids_named_nonempty T2 tag (proj1 Hall)) as (k & Hk).
      pose proof (proj2 Hall k Hk) as Hrow.
      apply list_elem_of_fmap in Hk as (t & -> & Ht).
      apply list_elem_of_filter in Ht as [Hn Ht]. by exists t.
    + intros x [Hx Hks]. split.
      * unfold tag_names. rewrite Htg2. apply list_elem_of_fmap in Hx as (t & -> & Ht).
        apply list_elem_of_fmap_2. by apply Hsub.
      * intros k Hk. rewrite (tag_ids_named_ext T1 T2), Hnamed in Hk by done.
        apply Hl2. left. rewrite Hlk. by apply Hks.
    + intros id' x (t & Ht & Hn & Hrow). exists t. split_and!; [|done|].
      * rewrite Htg2. by apply Hsub.
      * apply Hl2. left. by rewrite Hlk.
  - left. intros rest. rewrite (exec_all_Done _ _ _ _ _ He).
    by rewrite (exec_all_Abort (InsertImageTag id tag) rest T1 _ Hab).
Qed.

Lemma save_tag_statements_cons id tag tags :
  save_tag_statements id (tag :: tags)
  = InsertOrIgnoreTag tag :: InsertImageTag id tag
    :: save_tag_statements id tags.
Proof. reflexivity. Qed.

Lemma save_tags_outcome id tags T :
  id ∈ image_ids T →
  exec_all (save_tag_statements id tags) T
  = inl (PrimaryKeyViolation "image_tags")
  ∨ ∃ T', exec_all (save_tag_statements id tags) T = inr T'
          ∧ images T' = images T
          ∧ (∀ id' x, linked T id' x → linked T' id' x)
          ∧ (∀ x, x ∈ tags → linked T' id x).
Proof.
  revert T. induction tags as [|tag tags IH]; intros T Hid.
  - right. exists T. split_and!; try done. intros x Hx.
    by apply elem_of_nil in Hx.
  - rewrite save_tag_statements_cons.
    destruct (save_tag_step T id tag Hid)
      as [Hab|(T2 & Hgo & Him & _ & Hlinked & _ & Hmono)].
    + left. apply Hab.
    + rewrite Hgo.
      destruct (IH T2) as [Hab|(T' & He & Him' & Hmono' & Hall)].
      * unfold image_ids. by rewrite Him.
      * by left.
      * right. exists T'. split_and!; [done|congruence|auto|].
        intros x [->|Hx]%elem_of_cons; auto.
Qed.

Lemma save_tags_present id tags T x :
  id ∈ image_ids T → x ∈ tags → all_linked T id x →
  exec_all (save_tag_statements id tags) T
  = inl (PrimaryKeyViolation "image_tags").
Proof.
  revert T. induction tags as [|tag tags IH]; intros T Hid Hx Hall.
  - by apply elem_of_nil in Hx.
  - destruct (decide (tag = x)) as [->|Hne].
    + rewrite save_tag_statements_cons. destruct Hall as [Hin Hks].
      destruct (exec_InsertOrIgnoreTag T x) as (T1 & n & He & _ & _ & _ & Hsame & _).
      rewrite (exec_all_Done _ _ _ _ _ He), (Hsame Hin).
      destruct (tag_ids_named_nonempty T x Hin) as (k & Hk).
      apply exec_all_Abort. cbn [exec].
      eapply insert_image_tags_plain_present; [by apply link_rows_fk|..].
      * by apply list_elem_of_fmap_2.
      * by apply Hks.
    + apply elem_of_cons in Hx as [->|Hx]; [done|].
      rewrite save_tag_statements_cons.
      destruct (save_tag_step T id tag Hid)
        as [Hab|(T2 & Hgo & Him & _ & _ & Hkeep & _)].
      * apply Hab.
      * rewrite Hgo. apply IH; [|done|by apply Hkeep].
        unfold image_ids. by rewrite Him.
Qed.

Lemma save_tags_duplicate id tags T :
  id ∈ image_ids T → ¬ NoDup tags →
  exec_all (save_tag_statements id tags) T
  = inl (PrimaryKeyViolation "image_tags").
Proof.
  revert T. induction tags as [|tag tags IH]; intros T Hid Hdup.
  - destruct Hdup. constructor.
  - rewrite save_tag_statements_cons.
    destruct (save_tag_step T id tag Hid)
      as [Hab|(T2 & Hgo & Him & Hall & _ & _ & _)]; [apply Hab|].
    rewrite Hgo.
    assert (id ∈ image_ids T2) as Hid2 by (unfold image_ids; by rewrite Him).
    destruct (decide (tag ∈ tags)) as [Hin|Hout].
    + by eapply save_tags_present.
    + apply IH; [done|]. intros Hnd. apply Hdup. by constructor.
Qed.
End SaveImage.

Lemma saveImage_statements_exec (metadata : ImageMetadata.t) (T : Tables) :
  let id := ImageMetadata.id metadata in
  let statements := saveImage_statements metadata in
  (id ∈ image_ids T →
   exec_all statements T = inl (PrimaryKeyViolation "images"))
  ∧ (id ∉ image_ids T →
     ¬ orientation_ok (ImageMetadata.orientation metadata) →
     exec_all statements T = inl CheckViolation)
  ∧ (id ∉ image_ids T →
     orientation_ok (ImageMetadata.orientation metadata) →
     (¬ NoDup (ImageMetadata.tags metadata) →
      exec_all statements T = inl (PrimaryKeyViolation "image_tags"))
     ∧ (exec_all statements T = inl (PrimaryKeyViolation "image_tags")
        ∨ ∃ T', exec_all statements T = inr T'
             ∧ images T' = images T ++ [metadataToRow metadata]
             ∧ (∀ id' x, linked T id' x → linked T' id' x)
             ∧ (∀ x, x ∈ ImageMetadata.tags metadata → linked T' id x))).
Proof.
  intros id statements. unfold statements, saveImage_statements.
  fold (save_tag_statements id (ImageMetadata.tags metadata)).
  split_and!.
  - intros Hin. apply exec_all_Abort. cbn [exec]. by rewrite decide_True.
  - intros Hout Hbad. apply exec_all_Abort. cbn [exec].
    by rewrite decide_False, decide_False.
  - intros Hout Hok.
    set (T1 := set_images (images T ++ [metadataToRow metadata]) T).
    assert (exec (InsertImage (metadataToRow metadata)) T = Done T1 1) as He.
    { cbn [exec]. by rewrite decide_False, decide_True. }
    assert (id ∈ image_ids T1) as Hid1.
    { unfold image_ids, T1. simpl. rewrite fmap_app. apply elem_of_app.
      right. by apply list_elem_of_singleton. }
    rewrite (exec_all_Done _ _ _ _ _ He). split.
    + intros Hdup. by apply save_tags_duplicate.
    + destruct (save_tags_outcome id (ImageMetadata.tags metadata) T1 Hid1)
        as [Hab|(T' & Hrun & Him & Hmono & Hall)]; [by left|].
      right. exists T'. split_and!; [done|by rewrite Him|..|done].
      intros id' x (t & Ht & Hn & Hrow). apply Hmono. by exists t.
Qed.


(** C10.  A record whose tag list names a tag twice is rejected by
    [saveImage] on a constraint, and the tables are those from before the
    call; when the image insert itself is accepted, the constraint is the
    primary key of [image_tags], hit by the second link insert.  So a
    fulfilled [saveImage] had a tag list without duplicates. *)
Theorem saveImage_duplicate_tag_rejected
    (metadata : ImageMetadata.t) (db : D1Database) :
  ¬ NoDup (ImageMetadata.tags metadata) →
  ∃ e, (saveImage metadata db).2 = Rejected e
    ∧ tables ((saveImage metadata db).1) = tables db
    ∧ (ImageMetadata.id metadata ∉ image_ids (tables db) →
       orientation_ok (ImageMetadata.orientation metadata) →
       e = PrimaryKeyViolation "image_tags").
Proof.
  intros Hdup. rewrite !saveImage_batch.
  destruct (saveImage_statements_exec metadata (tables db))
    as (Hpk & Hcheck & Hgo).
  destruct (decide (ImageMetadata.id metadata ∈ image_ids (tables db)))
    as [Hin|Hout].
  { rewrite (Hpk Hin). eexists. split_and!; done. }
  destruct (decide (orientation_ok (ImageMetadata.orientation metadata)))
    as [Hok|Hbad].
  2: { rewrite (Hcheck Hout Hbad). eexists. split_and!; done. }
  destruct (Hgo Hout Hok) as [Hab _]. rewrite (Hab Hdup).
  eexists. split_and!; done.
Qed.

(** ** Facts about [nub] and about SELECT *)

Section QueryFacts.
Context {A : Type} `{EqDecision A}.
Implicit Types (l : list A) (x : A).

Lemma elem_of_nub l x : x ∈ nub l ↔ x ∈ l.
Proof.
  induction l as [|y l IH]; [done|]. simpl.
  rewrite !elem_of_cons, list_elem_of_filter, IH.
  destruct (decide (x = y)); tauto.
Qed.

Lemma NoDup_nub l : NoDup (nub l).
Proof.
  induction l as [|y l IH]; simpl; constructor.
  - rewrite list_elem_of_filter. by intros [? _].
  - by apply NoDup_filter.
Qed.

Lemma nub_NoDup l : NoDup l → nub l = l.
Proof.
  induction 1 as [|y l Hy _ IH]; [done|]. simpl. rewrite IH. f_equal.
  apply filter_all, Forall_forall. by intros x Hx ->.
Qed.

Lemma length_nub_le l : (length (nub l) ≤ length l)%nat.
Proof.
  induction l as [|y l IH]; simpl; [lia|].
  pose proof (length_filter (λ z, z ≠ y) (nub l)). lia.
Qed.

(** A list of distinct values drawn from [k] and as long as [k] has
    every value of [k], and [k] has no duplicate. *)
Lemma covers_of_length l k :
  NoDup l → (∀ x, x ∈ l → x ∈ k) → length l = length k →
  l ≡ₚ k.
Proof.
  intros Hnd Hsub Hlen. apply submseteq_length_Permutation.
  - by apply NoDup_submseteq.
  - lia.
Qed.

Lemma head_order_by_random (random : nat → Z) l x :
  head (order_by_random random l) = Some x → x ∈ l.
Proof.
  intros Hhead. apply head_Some_elem_of in Hhead.
  unfold order_by_random in Hhead.
  apply list_elem_of_fmap in Hhead as ([k y] & -> & Hin).
  rewrite merge_sort_Permutation in Hin.
  apply elem_of_lookup_imap in Hin as (i & z & Heq & Hz).
  simplify_eq. simpl. by eapply list_elem_of_lookup_2.
Qed.

Lemma order_by_random_nil (random : nat → Z) :
  order_by_random random (@nil A) = [].
Proof. reflexivity. Qed.
End QueryFacts.

Section JoinFacts.
Implicit Types (T : Tables) (row : Joined).

Lemma elem_of_from_images_join T i t :
  (i, Some t) ∈ from_images true T →
  i ∈ images T ∧ t ∈ tags T
  ∧ ImageTagRow.mk (ImageRow.id i) (TagRow.id t) ∈ image_tags T.
Proof.
  unfold from_images. intros Hin.
  apply list_elem_of_bind in Hin as (i' & Hin & Hi).
  apply list_elem_of_bind in Hin as (it & Hin & Hit).
  apply list_elem_of_bind in Hin as (t' & Hin & Ht).
  case_decide as Hc; [|by apply elem_of_nil in Hin].
  apply list_elem_of_singleton in Hin. simplify_eq.
  destruct Hc as [-> <-]. by destruct it.
Qed.

Lemma elem_of_where T conds rows row c :
  row ∈ where_ T conds rows → c ∈ conds → holds T row c.
Proof.
  intros [Hall _]%list_elem_of_filter Hc.
  rewrite Forall_forall in Hall. by apply Hall.
Qed.

Lemma elem_of_where_rows T conds rows row :
  row ∈ where_ T conds rows → row ∈ rows.
Proof. by intros [_ ?]%list_elem_of_filter. Qed.

(** A row that passes GROUP BY ... HAVING: the tag names joined to its
    image number [n]. *)
Lemma elem_of_group_by_id_having_count n rows r :
  r ∈ group_by_id_having_count n rows →
  length (nub (omap (λ row : Joined, TagRow.name <$> row.2)
                 (filter (λ row : Joined,
                            ImageRow.id row.1 = ImageRow.id r) rows))) = n
  ∧ ∃ t, (r, t) ∈ rows.
Proof.
  unfold group_by_id_having_count. intros Hin.
  apply list_elem_of_bind in Hin as (gid & Hin & _).
  case_decide as Hlen; [|by apply elem_of_nil in Hin].
  destruct (head _) as [r'|] eqn:Hhead; simpl in Hin;
    [|by apply elem_of_nil in Hin].
  apply list_elem_of_singleton in Hin as ->.
  apply head_Some_elem_of in Hhead.
  apply list_elem_of_fmap in Hhead as ([i t] & -> & Hrow).
  apply list_elem_of_filter in Hrow as [Hid Hrow]. simpl in *.
  subst gid. split; [done|]. by exists t.
Qed.
End JoinFacts.

(** ** getRandomImage *)

Section RandomImage.
Implicit Types (T : Tables) (tags : list string).

(** An image that passes the tag filter of [getRandomImage]: the list has
    no duplicate and the image is linked to each of its tags. *)
Lemma having_all_tags T tags conds r :
  TagNameIn tags ∈ conds →
  r ∈ group_by_id_having_count (length tags)
        (where_ T conds (from_images true T)) →
  NoDup tags ∧ ∀ tag, tag ∈ tags → linked T (ImageRow.id r) tag.
Proof.
  intros Hcond Hr.
  apply elem_of_group_by_id_having_count in Hr as [Hlen _].
  set (group := filter (λ row : Joined, ImageRow.id row.1 = ImageRow.id r)
                  (where_ T conds (from_images true T))) in Hlen.
  set (names := nub (omap (λ row : Joined, TagRow.name <$> row.2) group))
    in Hlen.
  assert (∀ x, x ∈ names →
            x ∈ tags ∧ linked T (ImageRow.id r) x) as Hnames.
  { intros x Hx. apply elem_of_nub, list_elem_of_omap in Hx
      as ([i o] & Hrow & Hname).
    apply list_elem_of_filter in Hrow as [Hid Hrow]. simpl in *.
    pose proof (elem_of_where _ _ _ _ _ Hrow Hcond) as Hholds.
    simpl in Hholds. destruct Hholds as (t & -> & Ht).
    simpl in *. simplify_eq. split; [done|].
    apply elem_of_where_rows, elem_of_from_images_join in Hrow
      as (_ & Htag & Hlink).
    exists t. split_and!; [done..|]. by rewrite <-Hid. }
  assert (names ≡ₚ tags) as Hperm.
  { apply covers_of_length; [apply NoDup_nub| |done].
    intros x Hx. by apply Hnames. }
  split.
  - rewrite <-Hperm. apply NoDup_nub.
  - intros tag Htag. rewrite <-Hperm in Htag. by apply Hnames.
Qed.

Lemma getRandomImage_result tag tags exclude orientation random db image :
  getRandomImage
    (Some (RandomFilters.mk (Some (tag :: tags)) exclude orientation))
    random db = Some image →
  ∃ r conds,
    TagNameIn (tag :: tags) ∈ conds
    ∧ r ∈ group_by_id_having_count (length (tag :: tags))
            (where_ (tables db) conds (from_images true (tables db)))
    ∧ getImage (ImageRow.id r) db = Some image.
Proof.
  unfold getRandomImage. cbn [mbind option_bind RandomFilters.tags
    RandomFilters.exclude RandomFilters.orientation nonempty default].
  destruct (head _) as [r|] eqn:Hhead; [|done]. intros Hget.
  apply head_order_by_random in Hhead.
  eexists r, _. split_and!; [|exact Hhead|done]. left.
Qed.
End RandomImage.

(** C1.  With a non-empty [tags] filter, an image that [getRandomImage]
    returns is linked to every tag of the list, and each of them is among
    the tags of the returned record; whatever the other filters, the random
    draw and the tables. *)
Theorem getRandomImage_has_every_tag
    (tags : list string) (exclude : option (list string))
    (orientation : option string) (random : nat → Z) (db : D1Database)
    (image : ImageMetadata.t) :
  tags ≠ [] →
  getRandomImage (Some (RandomFilters.mk (Some tags) exclude orientation))
    random db = Some image →
  ∀ tag, tag ∈ tags →
    linked (tables db) (ImageMetadata.id image) tag
    ∧ tag ∈ ImageMetadata.tags image.
Proof.
  intros Hne Hget tag Htag. destruct tags as [|tag0 tags]; [done|].
  apply getRandomImage_result in Hget as (r & conds & Hcond & Hr & Hget).
  apply getImage_Some in Hget as (_ & Hid & Htags).
  apply having_all_tags in Hr as [_ Hall]; [|done].
  rewrite Hid, Htags, elem_of_tag_names_of. split; by apply Hall.
Qed.

(** C9.  When the [tags] filter names a tag twice, [getRandomImage] returns
    the not-found signal on every database: no image can have as many
    distinct tag names among those of the list as the list is long. *)
Theorem getRandomImage_duplicate_tag_not_found
    (tags : list string) (exclude : option (list string))
    (orientation : option string) (random : nat → Z) (db : D1Database) :
  (length (nub tags) < length tags)%nat →
  getRandomImage (Some (RandomFilters.mk (Some tags) exclude orientation))
    random db = None.
Proof.
  intros Hdup.
  destruct (getRandomImage _ random db) as [image|] eqn:Hget; [|done].
  destruct tags as [|tag0 tags]; [simpl in Hdup; lia|].
  apply getRandomImage_result in Hget as (r & conds & Hcond & Hr & _).
  apply having_all_tags in Hr as [Hnd _]; [|done].
  rewrite (nub_NoDup _ Hnd) in Hdup. lia.
Qed.

Lemma getRandomImage_has_every_tag_witness :
  ["cat"; "orange"] ≠ []
  ∧ getRandomImage
      (Some (RandomFilters.mk (Some ["cat"; "orange"]) None None))
      (λ _, 0) db1 = Some img1
  ∧ ∀ tag, tag ∈ ["cat"; "orange"] →
      linked (tables db1) (ImageMetadata.id img1) tag
      ∧ tag ∈ ImageMetadata.tags img1.
Proof.
  assert (getRandomImage
            (Some (RandomFilters.mk (Some ["cat"; "orange"]) None None))
            (λ _, 0) db1 = Some img1) as Hget by (vm_compute; reflexivity).
  split; [done|]. split; [exact Hget|].
  exact (getRandomImage_has_every_tag ["cat"; "orange"] None None (λ _, 0)
           db1 img1 ltac:(done) Hget).
Defined.

Lemma getRandomImage_duplicate_tag_not_found_witness :
  (length (nub ["cat"; "cat"]) < length ["cat"; "cat"])%nat
  ∧ linked (tables db1) "img1" "cat"
  ∧ getRandomImage
      (Some (RandomFilters.mk (Some ["cat"; "cat"]) None None))
      (λ _, 0) db1 = None.
Proof.
  split; [vm_compute; lia|]. split.
  - exists (TagRow.mk 1 "cat"). vm_compute. split_and!; [left|done|left].
  - apply getRandomImage_duplicate_tag_not_found. vm_compute. lia.
Defined.

Lemma saveImage_duplicate_tag_rejected_witness :
  ¬ NoDup ["cat"; "cat"]
  ∧ ∃ e,
      (saveImage (sample_image "img2" "2024-05-02T10:00:00.000Z" "portrait"
                    ["cat"; "cat"]) db1).2 = Rejected e
      ∧ tables ((saveImage
                   (sample_image "img2" "2024-05-02T10:00:00.000Z" "portrait"
                      ["cat"; "cat"]) db1).1) = tables db1
      ∧ ("img2" ∉ image_ids (tables db1) →
         orientation_ok "portrait" →
         e = PrimaryKeyViolation "image_tags").
Proof.
  assert (¬ NoDup ["cat"; "cat"]) as Hdup.
  { intros Hnd. apply NoDup_cons_1_1 in Hnd. apply Hnd. left. }
  split; [exact Hdup|].
  exact (saveImage_duplicate_tag_rejected
           (sample_image "img2" "2024-05-02T10:00:00.000Z" "portrait"
              ["cat"; "cat"]) db1 Hdup).
Defined.

(** ** The statements on tables that satisfy the schema *)

Section ListFacts.
Context {A B : Type} `{EqDecision B} (f : A → B).
Implicit Types (l : list A) (x y : A).

Lemma NoDup_fmap_eq l x y :
  NoDup (f <$> l) → x ∈ l → y ∈ l → f x = f y → x = y.
Proof.
  induction l as [|a l IH]; intros Hnd Hx Hy Heq.
  - by apply elem_of_nil in Hx.
  - rewrite fmap_cons in Hnd. apply NoDup_cons in Hnd as [Ha Hnd].
    apply elem_of_cons in Hx as [->|Hx]; apply elem_of_cons in Hy as [->|Hy].
    + done.
    + destruct Ha. rewrite Heq. by apply list_elem_of_fmap_2.
    + destruct Ha. rewrite <-Heq. by apply list_elem_of_fmap_2.
    + by apply IH.
Qed.

Lemma filter_fmap_unique l x :
  NoDup (f <$> l) → x ∈ l → filter (λ y, f y = f x) l = [x].
Proof.
  induction l as [|a l IH]; intros Hnd Hx.
  - by apply elem_of_nil in Hx.
  - rewrite fmap_cons in Hnd. apply NoDup_cons in Hnd as [Ha Hnd].
    destruct (decide (f a = f x)) as [Heq|Hne].
    + rewrite filter_cons_True by done.
      assert (x = a) as ->.
      { apply elem_of_cons in Hx as [->|Hx]; [done|].
        destruct Ha. rewrite Heq. by apply list_elem_of_fmap_2. }
      f_equal. apply filter_none, Forall_forall. intros y Hy Hfy.
      apply Ha. rewrite <-Hfy. by apply list_elem_of_fmap_2.
    + rewrite filter_cons_False by done.
      apply elem_of_cons in Hx as [->|Hx]; [done|]. by apply IH.
Qed.
End ListFacts.

Section WfFacts.
Implicit Types (T : Tables) (id name : string).

Lemma foldr_max_ge (a : Z) (l : list Z) k :
  k ∈ l → k ≤ foldr Z.max a l.
Proof.
  induction l as [|x l IH]; intros Hk; [by apply elem_of_nil in Hk|].
  simpl. apply elem_of_cons in Hk as [->|Hk]; [lia|].
  specialize (IH Hk). lia.
Qed.

Lemma next_tag_id_fresh T : next_tag_id T ∉ tag_ids T.
Proof.
  intros Hin. apply (foldr_max_ge (tags_seq T)) in Hin.
  unfold next_tag_id in Hin. lia.
Qed.

(** On well-formed tables a name selects at most one tag id. *)
Lemma tag_ids_named_unique T t :
  wf T → t ∈ tags T → tag_ids_named (TagRow.name t) T = [TagRow.id t].
Proof.
  intros Hwf Ht. unfold tag_ids_named.
  rewrite (filter_fmap_unique TagRow.name); [done|apply Hwf|done].
Qed.

Lemma tag_ids_named_absent T name :
  name ∉ tag_names T → tag_ids_named name T = [].
Proof.
  intros Hout. unfold tag_ids_named.
  rewrite filter_none; [done|]. apply Forall_forall. intros t Ht Hn.
  apply Hout. rewrite <-Hn. by apply list_elem_of_fmap_2.
Qed.

Lemma linked_tag_name T id name : linked T id name → name ∈ tag_names T.
Proof. intros (t & Ht & <- & _). by apply list_elem_of_fmap_2. Qed.

Lemma linked_image_id T id name :
  wf T → linked T id name → id ∈ image_ids T.
Proof.
  intros Hwf (t & _ & _ & Hrow).
  pose proof (wf_link_image T Hwf) as Hfk. rewrite Forall_forall in Hfk.
  by apply Hfk in Hrow.
Qed.

Lemma exec_InsertOrIgnoreTag_wf T name :
  wf T →
  ∃ T1 n, exec (InsertOrIgnoreTag name) T = Done T1 n
    ∧ wf T1
    ∧ images T1 = images T
    ∧ name ∈ tag_names T1
    ∧ (∀ x, x ∈ tag_names T → x ∈ tag_names T1)
    ∧ (∀ id x, linked T1 id x ↔ linked T id x).
Proof.
  intros Hwf. cbn [exec]. case_decide as Hin.
  { exists T, 0. split_and!; done. }
  eexists _, _. split; [done|].
  pose proof (next_tag_id_fresh T) as Hfresh.
  pose proof (wf_link_tag T Hwf) as Hfk. rewrite Forall_forall in Hfk.
  split_and!; simpl.
  - destruct Hwf as [Hi Ho Hti Htn Hl Hfi Hft].
    constructor; simpl; try done.
    + unfold tag_ids. simpl. rewrite fmap_app. apply NoDup_app.
      split_and!; [done| |apply NoDup_singleton].
      intros k Hk ->%list_elem_of_singleton. done.
    + unfold tag_names. simpl. rewrite fmap_app. apply NoDup_app.
      split_and!; [done| |apply NoDup_singleton].
      intros k Hk ->%list_elem_of_singleton. done.
    + eapply Forall_impl; [exact Hft|]. intros l Hl'. unfold tag_ids. simpl.
      rewrite fmap_app. apply elem_of_app. by left.
  - done.
  - unfold tag_names. simpl. rewrite fmap_app. apply elem_of_app. right.
    by apply list_elem_of_singleton.
  - intros x Hx. unfold tag_names. simpl. rewrite fmap_app.
    apply elem_of_app. by left.
  - intros id x. unfold linked. simpl. split.
    + intros (t & Ht & Hn & Hrow). exists t. split_and!; [|done..].
      apply elem_of_app in Ht as [Ht|Ht]; [done|].
      apply list_elem_of_singleton in Ht as ->. simpl in *.
      apply Hfk in Hrow. simpl in Hrow. done.
    + intros (t & Ht & Hn & Hrow). exists t. split_and!; [|done..].
      apply elem_of_app. by left.
Qed.
End WfFacts.

Section LinkStatements.
Implicit Types (T : Tables) (id name : string).

Lemma insert_image_tags_wf ignore rows T n T' n' :
  wf T → insert_image_tags ignore rows T n = Done T' n' → wf T'.
Proof.
  revert T n. induction rows as [|r rows IH]; intros T n Hwf Hins;
    simpl in Hins.
  - by injection Hins as <- <-.
  - case_decide as Hin.
    + destruct ignore; [|done]. by eapply IH.
    + case_decide as Hfk; [|done]. eapply IH; [|exact Hins].
      destruct Hwf as [Hi Ho Hti Htn Hl Hfi Hft].
      constructor; simpl; try done.
      * apply NoDup_app. split_and!; [done| |apply NoDup_singleton].
        by intros l Hl' ->%list_elem_of_singleton.
      * apply Forall_app. split; [done|]. apply Forall_singleton, Hfk.
      * apply Forall_app. split; [done|]. apply Forall_singleton, Hfk.
Qed.

Lemma insert_image_tags_ignore rows T n :
  Forall (λ r, ImageTagRow.image_id r ∈ image_ids T
               ∧ ImageTagRow.tag_id r ∈ tag_ids T) rows →
  ∃ T' n', insert_image_tags true rows T n = Done T' n'.
Proof.
  revert T n. induction rows as [|r rows IH]; intros T n Hfk; simpl.
  - by eexists _, _.
  - apply Forall_cons in Hfk as [Hr Hfk].
    case_decide; [by apply IH|]. rewrite decide_True by done. by apply IH.
Qed.

Lemma exec_InsertOrIgnoreImageTag_wf T id name :
  wf T → id ∈ image_ids T →
  ∃ T2 n, exec (InsertOrIgnoreImageTag id name) T = Done T2 n
    ∧ wf T2
    ∧ images T2 = images T
    ∧ tags T2 = tags T
    ∧ (∀ id' x, linked T2 id' x
                ↔ linked T id' x
                  ∨ (id' = id ∧ x = name ∧ name ∈ tag_names T)).
Proof.
  intros Hwf Hid. cbn [exec].
  destruct (insert_image_tags_ignore
              (ImageTagRow.mk id <$> tag_ids_named name T) T 0
              (link_rows_fk T id name Hid)) as (T2 & n & Hins).
  exists T2, n. split; [done|].
  pose proof (insert_image_tags_wf _ _ _ _ _ _ Hwf Hins) as Hwf2.
  apply insert_image_tags_Done in Hins as (Him & Htg & _ & Hl).
  split_and!; [done..|].
  intros id' x. unfold linked. rewrite Htg. split.
  - intros (t & Ht & Hn & Hrow). apply Hl in Hrow as [Hrow|Hrow].
    { left. by exists t. }
    right. apply list_elem_of_fmap in Hrow as (k & Heq & Hk).
    injection Heq as -> Hidk. subst k. split; [done|].
    apply list_elem_of_fmap in Hk as (t' & Hidt & Ht').
    apply list_elem_of_filter in Ht' as [Hn' Ht'].
    assert (t = t') as <-.
    { eapply (NoDup_fmap_eq TagRow.id); [apply Hwf|done..]. }
    split; [congruence|]. subst name. by apply list_elem_of_fmap_2.
  - intros [(t & Ht & Hn & Hrow)|(-> & -> & Hname)].
    { exists t. split_and!; [done..|]. apply Hl. by left. }
    apply list_elem_of_fmap in Hname as (t & -> & Ht).
    exists t. split_and!; [done..|]. apply Hl. right.
    rewrite tag_ids_named_unique by done. by apply list_elem_of_singleton.
Qed.

Lemma exec_DeleteImageTag_wf T id name :
  wf T →
  ∃ T3 n, exec (DeleteImageTag id name) T = Done T3 n
    ∧ wf T3
    ∧ images T3 = images T
    ∧ tags T3 = tags T
    ∧ (∀ id' x, linked T3 id' x
                ↔ linked T id' x ∧ ¬ (id' = id ∧ x = name)).
Proof.
  intros Hwf. cbn [exec]. eexists _, _. split; [done|].
  split_and!; simpl; try done.
  - destruct Hwf as [Hi Ho Hti Htn Hl Hfi Hft].
    constructor; simpl; try done.
    + by apply NoDup_filter.
    + apply Forall_forall. intros l [_ Hl']%list_elem_of_filter.
      rewrite Forall_forall in Hfi. by apply Hfi.
    + apply Forall_forall. intros l [_ Hl']%list_elem_of_filter.
      rewrite Forall_forall in Hft. by apply Hft.
  - intros id' x. unfold linked. simpl.
    assert (∀ t, t ∈ tags T →
              Some (TagRow.id t) = head (tag_ids_named name T)
              ↔ TagRow.name t = name) as Hsub.
    { intros t Ht. split.
      - intros Hhead. symmetry in Hhead. apply head_Some_elem_of in Hhead.
        apply list_elem_of_fmap in Hhead as (t' & Hidt & Ht').
        apply list_elem_of_filter in Ht' as [Hn' Ht'].
        assert (t = t') as <-; [|done].
        eapply (NoDup_fmap_eq TagRow.id); [apply Hwf|done..].
      - intros <-. by rewrite tag_ids_named_unique. }
    split.
    + intros (t & Ht & Hn & Hrow).
      apply list_elem_of_filter in Hrow as [Hmiss Hrow]. simpl in Hmiss.
      split; [by exists t|]. intros [-> ->]. apply Hmiss.
      split; [done|]. by apply Hsub.
    + intros [(t & Ht & Hn & Hrow) Hne]. exists t. split_and!; [done..|].
      apply list_elem_of_filter. split; [|done]. simpl. intros [-> Hhead].
      apply Hne. split; [done|]. rewrite <-Hn. by apply Hsub.
Qed.

Lemma exec_UpdateExpiryTime_wf T expiry id :
  wf T →
  ∃ T4 n, exec (UpdateExpiryTime expiry id) T = Done T4 n
    ∧ wf T4
    ∧ image_ids T4 = image_ids T
    ∧ tags T4 = tags T
    ∧ image_tags T4 = image_tags T.
Proof.
  intros Hwf. cbn [exec]. eexists _, _. split; [done|].
  assert (image_ids
            (set_images
               ((λ r, if decide (ImageRow.id r = id)
                      then ImageRow.set_expiry_time expiry r else r)
                <$> images T) T) = image_ids T) as Hids.
  { unfold image_ids. simpl. rewrite <-list_fmap_compose.
    apply list_fmap_ext. intros i r _. simpl. by case_decide. }
  split_and!; try done.
  destruct Hwf as [Hi Ho Hti Htn Hl Hfi Hft].
  constructor; try done.
  - by rewrite Hids.
  - simpl. apply Forall_fmap. eapply Forall_impl; [exact Ho|].
    intros r Hr. simpl. by case_decide.
  - by rewrite Hids.
Qed.
End LinkStatements.

(** ** Runs of statements inside a batch *)

Section Runs.
Implicit Types (T : Tables) (id name : string).

Lemma exec_all_app l1 l2 T :
  exec_all (l1 ++ l2) T
  = match exec_all l1 T with
    | inr T' => exec_all l2 T'
    | inl e => inl e
    end.
Proof.
  revert T. induction l1 as [|s l1 IH]; intros T; [done|].
  cbn [app exec_all]. by destruct (exec s T).
Qed.

(** The DELETEs of links of one image. *)
Lemma run_unlink T id (names : list string) :
  wf T →
  ∃ T', exec_all (DeleteImageTag id <$> names) T = inr T'
    ∧ wf T'
    ∧ images T' = images T
    ∧ tags T' = tags T
    ∧ (∀ id' x, linked T' id' x
                ↔ linked T id' x ∧ ¬ (id' = id ∧ x ∈ names)).
Proof.
  revert T. induction names as [|name names IH]; intros T Hwf.
  - exists T. split_and!; try done. intros id' x. rewrite elem_of_nil. tauto.
  - destruct (exec_DeleteImageTag_wf T id name Hwf)
      as (T3 & n & He & Hwf3 & Him & Htg & Hl).
    destruct (IH T3 Hwf3) as (T' & Hrun & Hwf' & Him' & Htg' & Hl').
    exists T'. rewrite fmap_cons, (exec_all_Done _ _ _ _ _ He).
    split_and!; [done..|congruence|congruence|].
    intros id' x. rewrite Hl', Hl, elem_of_cons. tauto.
Qed.

(** The idempotent creations of tags. *)
Lemma run_ensure_tags T (names : list string) :
  wf T →
  ∃ T', exec_all (InsertOrIgnoreTag <$> names) T = inr T'
    ∧ wf T'
    ∧ images T' = images T
    ∧ (∀ x, x ∈ names → x ∈ tag_names T')
    ∧ (∀ x, x ∈ tag_names T → x ∈ tag_names T')
    ∧ (∀ id' x, linked T' id' x ↔ linked T id' x).
Proof.
  revert T. induction names as [|name names IH]; intros T Hwf.
  - exists T. split_and!; try done. by intros x Hx%elem_of_nil.
  - destruct (exec_InsertOrIgnoreTag_wf T name Hwf)
      as (T1 & n & He & Hwf1 & Him & Hname & Hkeep & Hl).
    destruct (IH T1 Hwf1) as (T' & Hrun & Hwf' & Him' & Hnew & Hkeep' & Hl').
    exists T'. rewrite fmap_cons, (exec_all_Done _ _ _ _ _ He).
    split_and!; [done..|congruence| |auto|].
    + intros x [->|Hx]%elem_of_cons; auto.
    + intros id' x. by rewrite Hl', Hl.
Qed.

(** The link inserts of one image, for tags that exist. *)
Lemma run_link T id (names : list string) :
  wf T → id ∈ image_ids T → (∀ x, x ∈ names → x ∈ tag_names T) →
  ∃ T', exec_all (InsertOrIgnoreImageTag id <$> names) T = inr T'
    ∧ wf T'
    ∧ images T' = images T
    ∧ tags T' = tags T
    ∧ (∀ id' x, linked T' id' x
                ↔ linked T id' x ∨ (id' = id ∧ x ∈ names)).
Proof.
  revert T. induction names as [|name names IH]; intros T Hwf Hid Hnames.
  - exists T. split_and!; try done. intros id' x. rewrite elem_of_nil. tauto.
  - destruct (exec_InsertOrIgnoreImageTag_wf T id name Hwf Hid)
      as (T2 & n & He & Hwf2 & Him & Htg & Hl).
    destruct (IH T2 Hwf2) as (T' & Hrun & Hwf' & Him' & Htg' & Hl').
    { unfold image_ids. by rewrite Him. }
    { intros x Hx. unfold tag_names. rewrite Htg. apply Hnames. by right. }
    exists T'. rewrite fmap_cons, (exec_all_Done _ _ _ _ _ He).
    split_and!; [done..|congruence|congruence|].
    intros id' x. rewrite Hl', Hl, elem_of_cons.
    assert (name ∈ tag_names T) by (apply Hnames; left). tauto.
Qed.

(** The pairs (create the tag, link it) that [updateImage] pushes. *)
Lemma run_create_and_link T id (names : list string) :
  wf T → id ∈ image_ids T →
  ∃ T', exec_all
          (flat_map
             (λ tag, [InsertOrIgnoreTag tag; InsertOrIgnoreImageTag id tag])
             names) T = inr T'
    ∧ wf T'
    ∧ images T' = images T
    ∧ (∀ id' x, linked T' id' x
                ↔ linked T id' x ∨ (id' = id ∧ x ∈ names)).
Proof.
  revert T. induction names as [|name names IH]; intros T Hwf Hid.
  - exists T. split_and!; try done. intros id' x. rewrite elem_of_nil. tauto.
  - destruct (exec_InsertOrIgnoreTag_wf T name Hwf)
      as (T1 & n1 & He1 & Hwf1 & Him1 & Hname & _ & Hl1).
    assert (id ∈ image_ids T1) as Hid1 by (unfold image_ids; by rewrite Him1).
    destruct (exec_InsertOrIgnoreImageTag_wf T1 id name Hwf1 Hid1)
      as (T2 & n2 & He2 & Hwf2 & Him2 & Htg2 & Hl2).
    destruct (IH T2 Hwf2) as (T' & Hrun & Hwf' & Him' & Hl').
    { unfold image_ids. by rewrite Him2. }
    exists T'. cbn [flat_map app].
    rewrite (exec_all_Done _ _ _ _ _ He1), (exec_all_Done _ _ _ _ _ He2).
    split_and!; [done..|congruence|].
    intros id' x. rewrite Hl', Hl2, Hl1, elem_of_cons. tauto.
Qed.
End Runs.

(** ** updateImage *)

Section UpdateImage.
Implicit Types (T : Tables) (id name : string) (db : D1Database).

Lemma getImage_tables id db db' :
  tables db' = tables db → getImage id db' = getImage id db.
Proof. unfold getImage. by intros ->. Qed.

Lemma linked_ext T T' :
  tags T' = tags T → image_tags T' = image_tags T →
  ∀ id x, linked T' id x ↔ linked T id x.
Proof. unfold linked. by intros -> ->. Qed.

Lemma getImage_is_Some id db :
  id ∈ image_ids (tables db) → is_Some (getImage id db).
Proof.
  intros Hid. destruct (getImage id db) eqn:Hget; [done|].
  by apply getImage_None in Hget.
Qed.

(** The tags an update deletes and the tags it adds. *)
Lemma elem_of_tag_diff (old new : list string) x :
  x ∈ filter (λ tag, tag ∉ nub new) (nub old) ↔ x ∈ old ∧ x ∉ new.
Proof. rewrite list_elem_of_filter, !elem_of_nub. tauto. Qed.

Lemma updateImage_statements_run T id image updates :
  wf T → id ∈ image_ids T →
  ImageMetadata.tags image = tag_names_of id T →
  ∃ T', exec_all (updateImage_statements id image updates) T = inr T'
    ∧ wf T'
    ∧ image_ids T' = image_ids T
    ∧ (∀ id' x,
         linked T' id' x
         ↔ match Updates.tags updates with
           | Some tags =>
               if decide (id' = id) then x ∈ tags else linked T id' x
           | None => linked T id' x
           end).
Proof.
  intros Hwf Hid Hold. unfold updateImage_statements.
  rewrite exec_all_app.
  assert (∃ Ta,
    exec_all
      match Updates.tags updates with
      | Some tags =>
          (DeleteImageTag id
           <$> filter (λ tag, tag ∉ nub tags) (nub (ImageMetadata.tags image)))
          ++ flat_map
               (λ tag, [InsertOrIgnoreTag tag; InsertOrIgnoreImageTag id tag])
               (filter (λ tag, tag ∉ nub (ImageMetadata.tags image)) (nub tags))
      | None => []
      end T = inr Ta
    ∧ wf Ta ∧ image_ids Ta = image_ids T
    ∧ (∀ id' x,
         linked Ta id' x
         ↔ match Updates.tags updates with
           | Some tags =>
               if decide (id' = id) then x ∈ tags else linked T id' x
           | None => linked T id' x
           end)) as (Ta & -> & Hwfa & Hida & Hla).
  { destruct (Updates.tags updates) as [tags|].
    2: { exists T. split_and!; done. }
    rewrite exec_all_app.
    destruct (run_unlink T id
                (filter (λ tag, tag ∉ nub tags) (nub (ImageMetadata.tags image)))
                Hwf) as (T1 & -> & Hwf1 & Him1 & Htg1 & Hl1).
    assert (id ∈ image_ids T1) as Hid1 by (unfold image_ids; by rewrite Him1).
    destruct (run_create_and_link T1 id
                (filter (λ tag, tag ∉ nub (ImageMetadata.tags image)) (nub tags))
                Hwf1 Hid1) as (T2 & -> & Hwf2 & Him2 & Hl2).
    exists T2. split_and!; [done..| |].
    { unfold image_ids. by rewrite Him2, Him1. }
    intros id' x. rewrite Hl2, Hl1, !elem_of_tag_diff.
    case_decide as Heq; [subst id'|tauto].
    rewrite Hold, elem_of_tag_names_of.
    destruct (decide (x ∈ tags)); destruct (decide (x ∈ tag_names_of id T))
      as [Hin|Hout]; rewrite elem_of_tag_names_of in *; tauto. }
  destruct (Updates.expiryTime updates) as [expiryTime|].
  2: { exists Ta. split_and!; done. }
  destruct (exec_UpdateExpiryTime_wf Ta (or_null (Some expiryTime)) id Hwfa)
    as (T4 & n & He & Hwf4 & Hid4 & Htg4 & Hl4).
  exists T4. rewrite (exec_all_Done _ _ _ _ _ He).
  split_and!; [done..|congruence|].
  intros id' x. by rewrite (linked_ext Ta T4).
Qed.

(** [updateImage] on an image that exists: the statements run (as one batch,
    or not at all when there is none) and the record is read back. *)
Lemma updateImage_Some id image updates db :
  wf (tables db) → getImage id db = Some image →
  ∃ T' log image',
    updateImage id updates db = (mkD1 T' log, Fulfilled (Some image'))
    ∧ exec_all (updateImage_statements id image updates) (tables db) = inr T'
    ∧ log = (if decide (updateImage_statements id image updates = [])
             then calls db
             else calls db
                  ++ [CallBatch (updateImage_statements id image updates)])
    ∧ getImage id (mkD1 T' log) = Some image'.
Proof.
  intros Hwf Hget. pose proof (getImage_Some _ _ _ Hget) as (Hid & _ & Hold).
  destruct (updateImage_statements_run (tables db) id image updates Hwf Hid Hold)
    as (T' & Hrun & Hwf' & Hids & Hl).
  unfold updateImage. rewrite Hget. cbv zeta.
  destruct (updateImage_statements id image updates) as [|s l] eqn:Hst.
  - simpl in Hrun. injection Hrun as <-.
    rewrite decide_False by (simpl; lia). rewrite decide_True by done.
    destruct db as [T log]. by eexists _, _, _.
  - rewrite decide_True by (simpl; lia). unfold batch. rewrite Hrun.
    rewrite decide_False by done.
    destruct (getImage_is_Some id (mkD1 T' (calls db ++ [CallBatch (s :: l)])))
      as [image' Hget'].
    { simpl. by rewrite Hids. }
    rewrite Hget'. by eexists _, _, _.
Qed.
End UpdateImage.

Lemma elem_of_updateImage_statements id image updates s :
  s ∈ updateImage_statements id image updates
  ↔ (∃ tags tag, Updates.tags updates = Some tags
       ∧ tag ∈ ImageMetadata.tags image ∧ (tag ∉ tags)
       ∧ s = DeleteImageTag id tag)
    ∨ (∃ tags tag, Updates.tags updates = Some tags
         ∧ tag ∈ tags ∧ (tag ∉ ImageMetadata.tags image)
         ∧ (s = InsertOrIgnoreTag tag ∨ s = InsertOrIgnoreImageTag id tag))
    ∨ (∃ expiryTime, Updates.expiryTime updates = Some expiryTime
         ∧ s = UpdateExpiryTime (or_null (Some expiryTime)) id).
Proof.
  unfold updateImage_statements. rewrite elem_of_app. split.
  - intros [Hs|Hs].
    + destruct (Updates.tags updates) as [tags|]; [|by apply elem_of_nil in Hs].
      apply elem_of_app in Hs as [Hs|Hs].
      * apply list_elem_of_fmap in Hs as (tag & -> & Htag).
        apply elem_of_tag_diff in Htag as [? ?]. left. by exists tags, tag.
      * apply list_elem_of_In, in_flat_map in Hs as (tag & Htag & Hs).
        apply list_elem_of_In, elem_of_tag_diff in Htag as [? ?].
        apply list_elem_of_In in Hs. right. left. exists tags, tag.
        split_and!; [done..|].
        apply elem_of_cons in Hs as [->|Hs]; [by left|].
        apply list_elem_of_singleton in Hs as ->. by right.
    + destruct (Updates.expiryTime updates) as [e|]; [|by apply elem_of_nil in Hs].
      apply list_elem_of_singleton in Hs as ->. right. right. by exists e.
  - intros [(tags & tag & -> & Hold & Hnew & ->)
           |[(tags & tag & -> & Hnew & Hold & Hs)|(e & -> & ->)]].
    + left. apply elem_of_app. left. apply list_elem_of_fmap_2.
      by apply elem_of_tag_diff.
    + left. apply elem_of_app. right. apply list_elem_of_In, in_flat_map.
      exists tag. split.
      * by apply list_elem_of_In, elem_of_tag_diff.
      * apply list_elem_of_In. destruct Hs as [-> | ->]; [left|right; left].
    + right. left.
Qed.

(** C3.  On tables that satisfy the schema, [updateImage id {tags}] on a
    missing image resolves to the not-found signal and leaves the handle as
    it was.  On an existing image whose tags are [old], its statements are
    the link deletions for the tags of [old] that are not in [tags], the tag
    creations and link insertions for the tags of [tags] that are not in
    [old] (and the expiry update when one is supplied); afterwards the image
    is linked to exactly the tags of [tags], the links of the other images
    are as before, [getImage id] returns the record the call resolved to,
    whose tags are those of [tags], and the tables still satisfy the schema:
    every link has its image and its tag. *)
Theorem updateImage_replaces_tag_set
    (id : string) (tags : list string) (expiryTime : option string)
    (db : D1Database) :
  wf (tables db) →
  let updates := Updates.mk (Some tags) expiryTime in
  let db' := (updateImage id updates db).1 in
  (getImage id db = None → updateImage id updates db = (db, Fulfilled None))
  ∧ (∀ image, getImage id db = Some image →
       let old := ImageMetadata.tags image in
       (∀ s, s ∈ updateImage_statements id image updates
             ↔ (∃ tag, tag ∈ old ∧ (tag ∉ tags) ∧ s = DeleteImageTag id tag)
               ∨ (∃ tag, tag ∈ tags ∧ (tag ∉ old)
                    ∧ (s = InsertOrIgnoreTag tag
                       ∨ s = InsertOrIgnoreImageTag id tag))
               ∨ (∃ e, expiryTime = Some e
                    ∧ s = UpdateExpiryTime (or_null (Some e)) id))
       ∧ ∃ image',
           (updateImage id updates db).2 = Fulfilled (Some image')
           ∧ getImage id db' = Some image'
           ∧ (∀ tag, tag ∈ ImageMetadata.tags image' ↔ tag ∈ tags)
           ∧ (∀ id' x, linked (tables db') id' x
                       ↔ if decide (id' = id) then x ∈ tags
                         else linked (tables db) id' x)
           ∧ wf (tables db')
           ∧ Forall (λ l, ImageTagRow.image_id l ∈ image_ids (tables db')
                          ∧ ImageTagRow.tag_id l ∈ tag_ids (tables db'))
               (image_tags (tables db'))).
Proof.
  intros Hwf updates db'. split.
  { intros Hnone. unfold updateImage. by rewrite Hnone. }
  intros image Hget old. split.
  { intros s. rewrite elem_of_updateImage_statements. simpl.
    split; intros [H|[H|H]].
    - destruct H as (? & tag & ? & ? & ? & ?). simplify_eq. left. by exists tag.
    - destruct H as (? & tag & ? & ? & ? & ?). simplify_eq.
      right. left. by exists tag.
    - by right; right.
    - destruct H as (tag & ? & ? & ?). left. by exists tags, tag.
    - destruct H as (tag & ? & ? & ?). right. left. by exists tags, tag.
    - by right; right. }
  pose proof (getImage_Some _ _ _ Hget) as (Hid & _ & Hold).
  destruct (updateImage_Some id image updates db Hwf Hget)
    as (T' & log & image' & Hupd & Hrun & _ & Hget').
  destruct (updateImage_statements_run (tables db) id image updates Hwf Hid Hold)
    as (T'' & Hrun' & Hwf' & Hids & Hl).
  rewrite Hrun in Hrun'. injection Hrun' as <-.
  unfold db'. rewrite Hupd. simpl in *. exists image'.
  pose proof (getImage_Some _ _ _ Hget') as (_ & _ & Htags').
  split_and!; [done..| |done|done|].
  - intros tag. rewrite Htags', elem_of_tag_names_of. simpl.
    rewrite Hl. by rewrite decide_True.
  - apply Forall_forall. intros l Hin. split.
    + pose proof (wf_link_image T' Hwf') as Hfk.
      rewrite Forall_forall in Hfk. by apply Hfk.
    + pose proof (wf_link_tag T' Hwf') as Hfk.
      rewrite Forall_forall in Hfk. by apply Hfk.
Qed.

Lemma set_expiry_time_same (r : ImageRow.t) :
  ImageRow.set_expiry_time (ImageRow.expiry_time r) r = r.
Proof. by destruct r. Qed.

Lemma or_null_Some (o : option string) (e : string) :
  or_null o = Some e → o = Some e ∧ or_null (Some e) = Some e.
Proof.
  destruct o as [v|]; simpl; [|done]. case_decide; [done|].
  intros [= ->]. by rewrite decide_False.
Qed.

(** An expiry update that binds the stored value changes no table. *)
Lemma exec_UpdateExpiryTime_same (T : Tables) (id e : string) image db :
  wf T → tables db = T → getImage id db = Some image →
  ImageMetadata.expiryTime image = Some e →
  ∃ n, exec (UpdateExpiryTime (or_null (Some e)) id) T = Done T n.
Proof.
  intros Hwf HT Hget Hexp.
  unfold getImage in Hget. rewrite HT in Hget.
  destruct (filter _ (images T)) as [|r0 l] eqn:Hf; simpl in Hget; [done|].
  injection Hget as <-. simpl in Hexp.
  apply or_null_Some in Hexp as [Hstored Hbound].
  assert (r0 ∈ filter (λ r, ImageRow.id r = id) (images T)) as Hr0
    by (rewrite Hf; left).
  apply list_elem_of_filter in Hr0 as [Hid0 Hr0].
  cbn [exec]. rewrite Hbound. eexists.
  replace (set_images _ T) with T; [done|].
  destruct T as [im tg sq lk]. unfold set_images. cbn [images tags tags_seq
    image_tags] in *. f_equal.
  rewrite <-(list_fmap_id im) at 1. apply list_fmap_ext.
  intros i r Hr. cbv beta. case_decide as Hid; [|done].
  assert (r = r0) as ->.
  { eapply (NoDup_fmap_eq ImageRow.id im); [apply Hwf| |done|congruence].
    by eapply list_elem_of_lookup_2. }
  rewrite <-Hstored. by rewrite set_expiry_time_same.
Qed.

(** C7, as the code has it.  On an existing image, [updateImage] issues no
    write exactly when its statement list is empty, that is when the update
    supplies no [expiryTime] and no tag set or a tag set equal to the current
    one; the handle is then untouched and the current record is returned.
    Otherwise it issues one batch with the statements; a supplied
    [expiryTime] always puts its UPDATE in the batch, also when it equals
    the current value.  When all supplied values equal the current ones the
    tables are unchanged and the current record is returned, batch or not. *)
Theorem updateImage_writes_iff_statements
    (id : string) (updates : Updates.t) (db : D1Database)
    (image : ImageMetadata.t) :
  wf (tables db) → getImage id db = Some image →
  let statements := updateImage_statements id image updates in
  let same_tags :=
    ∀ tags, Updates.tags updates = Some tags →
            ∀ x, x ∈ tags ↔ x ∈ ImageMetadata.tags image in
  (statements = [] ↔ same_tags ∧ Updates.expiryTime updates = None)
  ∧ (statements = [] →
     updateImage id updates db = (db, Fulfilled (Some image)))
  ∧ (statements ≠ [] →
     calls ((updateImage id updates db).1)
     = calls db ++ [CallBatch statements])
  ∧ (∀ e, Updates.expiryTime updates = Some e →
          UpdateExpiryTime (or_null (Some e)) id ∈ statements)
  ∧ (same_tags →
     (∀ e, Updates.expiryTime updates = Some e →
           ImageMetadata.expiryTime image = Some e) →
     tables ((updateImage id updates db).1) = tables db
     ∧ (updateImage id updates db).2 = Fulfilled (Some image)).
Proof.
  intros Hwf Hget statements same_tags.
  assert (same_tags →
          statements
          = match Updates.expiryTime updates with
            | Some e => [UpdateExpiryTime (or_null (Some e)) id]
            | None => []
            end) as Hsame.
  { intros Hsame. unfold same_tags in Hsame.
    unfold statements, updateImage_statements.
    destruct (Updates.tags updates) as [tags|]; [|done].
    rewrite !filter_none; [done|..]; apply Forall_forall; intros x Hx Hout;
      apply Hout; rewrite elem_of_nub in Hx |- *;
      by apply (Hsame tags eq_refl). }
  destruct (updateImage_Some id image updates db Hwf Hget)
    as (T' & log & image' & Hupd & Hrun & Hlog & Hget').
  fold statements in Hrun, Hlog. rewrite Hupd. simpl.
  split_and!.
  - split.
    + intros Hnil. split.
      * intros tags Htags x.
        destruct (decide (x ∈ tags)) as [Hx|Hx];
          destruct (decide (x ∈ ImageMetadata.tags image)) as [Ho|Ho];
          try tauto; exfalso.
        -- assert (InsertOrIgnoreTag x ∈ statements) as Hin; [|].
           { apply elem_of_updateImage_statements. right. left.
             exists tags, x. split_and!; [done..|by left]. }
           rewrite Hnil in Hin. by apply elem_of_nil in Hin.
        -- assert (DeleteImageTag id x ∈ statements) as Hin.
           { apply elem_of_updateImage_statements. left. by exists tags, x. }
           rewrite Hnil in Hin. by apply elem_of_nil in Hin.
      * destruct (Updates.expiryTime updates) as [e|] eqn:He; [|done].
        assert (UpdateExpiryTime (or_null (Some e)) id ∈ statements) as Hin.
        { apply elem_of_updateImage_statements. right. right. by exists e. }
        rewrite Hnil in Hin. by apply elem_of_nil in Hin.
    + intros [Htags Hexp]. rewrite (Hsame Htags). by rewrite Hexp.
  - intros Hnil. rewrite Hnil in Hrun, Hlog. simpl in Hrun.
    injection Hrun as <-. rewrite decide_True in Hlog by done. subst log.
    destruct db as [T lg]. simpl in *. rewrite Hget in Hget'. by simplify_eq.
  - intros Hne. by rewrite decide_False in Hlog.
  - intros e He. apply elem_of_updateImage_statements. right. right.
    by exists e.
  - intros Htags Hexp. rewrite (Hsame Htags) in Hrun.
    assert (T' = tables db) as ->.
    { destruct (Updates.expiryTime updates) as [e|] eqn:He.
      - destruct (exec_UpdateExpiryTime_same (tables db) id e image db
                    Hwf eq_refl Hget (Hexp e eq_refl)) as (n & Hex).
        rewrite (exec_all_Done _ _ _ _ _ Hex) in Hrun. simpl in Hrun.
        by injection Hrun.
      - simpl in Hrun. by injection Hrun. }
    split; [done|]. rewrite (getImage_tables id db) in Hget' by done.
    congruence.
Qed.

Lemma wf_db1 : wf (tables db1).
Proof. apply (bool_decide_unpack _). vm_compute. exact I. Defined.

Lemma wf_db3 : wf (tables db3).
Proof. apply (bool_decide_unpack _). vm_compute. exact I. Defined.

Lemma updateImage_replaces_tag_set_witness :
  wf (tables db1)
  ∧ getImage "img1" db1 = Some img1
  ∧ ∃ image',
      (updateImage "img1" (Updates.mk (Some ["orange"; "tabby"]) None) db1).2
      = Fulfilled (Some image')
      ∧ (∀ tag, tag ∈ ImageMetadata.tags image' ↔ tag ∈ ["orange"; "tabby"]).
Proof.
  assert (getImage "img1" db1 = Some img1) as Hget by (vm_compute; reflexivity).
  split; [exact wf_db1|]. split; [exact Hget|].
  destruct (updateImage_replaces_tag_set "img1" ["orange"; "tabby"] None db1
              wf_db1) as [_ Hsome].
  destruct (Hsome img1 Hget) as (_ & image' & Hres & _ & Htags & _).
  exists image'. split; [exact Hres|exact Htags].
Defined.

(** C7 as stated fails: the update below supplies the current tag set and
    the current expiry time of [img3], and [updateImage] still issues a
    batch, holding the expiry UPDATE. *)
Lemma updateImage_unchanged_expiry_issues_batch :
  let updates :=
    Updates.mk (Some ["cat"]) (Some "2030-01-01T00:00:00.000Z") in
  getImage "img3" db3 = Some img3
  ∧ Updates.tags updates = Some (ImageMetadata.tags img3)
  ∧ Updates.expiryTime updates = ImageMetadata.expiryTime img3
  ∧ calls ((updateImage "img3" updates db3).1)
    = calls db3
      ++ [CallBatch
            [UpdateExpiryTime (Some "2030-01-01T00:00:00.000Z") "img3"]]
  ∧ calls ((updateImage "img3" updates db3).1) ≠ calls db3.
Proof.
  assert (calls ((updateImage "img3"
                    (Updates.mk (Some ["cat"])
                       (Some "2030-01-01T00:00:00.000Z")) db3).1)
          = calls db3
            ++ [CallBatch
                  [UpdateExpiryTime (Some "2030-01-01T00:00:00.000Z") "img3"]])
    as Hcalls by (vm_compute; reflexivity).
  split_and!; [vm_compute; reflexivity|reflexivity|reflexivity|exact Hcalls|].
  rewrite Hcalls. intros Heq. apply (f_equal length) in Heq.
  rewrite length_app in Heq. simpl in Heq. lia.
Qed.

Lemma updateImage_writes_iff_statements_witness :
  wf (tables db3)
  ∧ getImage "img3" db3 = Some img3
  ∧ updateImage "img3" (Updates.mk (Some ["cat"]) None) db3
    = (db3, Fulfilled (Some img3)).
Proof.
  assert (getImage "img3" db3 = Some img3) as Hget by (vm_compute; reflexivity).
  split; [exact wf_db3|]. split; [exact Hget|].
  destruct (updateImage_writes_iff_statements "img3"
              (Updates.mk (Some ["cat"]) None) db3 img3 wf_db3 Hget)
    as (_ & Hnil & _).
  apply Hnil. vm_compute. reflexivity.
Defined.

(** ** batchUpdateTags *)

Section BatchUpdateTags.
Implicit Types (T : Tables) (id name : string).
Implicit Types (imageIds addTags removeTags : list string).

Lemma batchUpdateTags_statements_eq imageIds addTags removeTags :
  batchUpdateTags_statements imageIds addTags removeTags
  = (InsertOrIgnoreTag <$> addTags)
    ++ flat_map (per_image_statements addTags removeTags) imageIds.
Proof. reflexivity. Qed.

(** The statements of one image: its removals, then its additions. *)
Lemma run_per_image T id addTags removeTags :
  wf T → (addTags ≠ [] → id ∈ image_ids T) →
  (∀ x, x ∈ addTags → x ∈ tag_names T) →
  ∃ T', exec_all (per_image_statements addTags removeTags id) T = inr T'
    ∧ wf T'
    ∧ images T' = images T
    ∧ tags T' = tags T
    ∧ (∀ id' x, linked T' id' x
                ↔ (linked T id' x ∧ ¬ (id' = id ∧ x ∈ removeTags))
                  ∨ (id' = id ∧ x ∈ addTags)).
Proof.
  intros Hwf Hid Hadd. unfold per_image_statements. rewrite exec_all_app.
  destruct (run_unlink T id removeTags Hwf)
    as (T1 & -> & Hwf1 & Him1 & Htg1 & Hl1).
  destruct addTags as [|tag addTags].
  { exists T1. split_and!; [done..|].
    intros id' x. rewrite Hl1, elem_of_nil. tauto. }
  destruct (run_link T1 id (tag :: addTags) Hwf1)
    as (T2 & Hrun & Hwf2 & Him2 & Htg2 & Hl2).
  { unfold image_ids. rewrite Him1. by apply Hid. }
  { intros x Hx. unfold tag_names. rewrite Htg1. by apply Hadd. }
  exists T2. split_and!; [done..|congruence|congruence|].
  intros id' x. by rewrite Hl2, Hl1.
Qed.

Lemma run_all_images T imageIds addTags removeTags :
  wf T → (addTags ≠ [] → ∀ id, id ∈ imageIds → id ∈ image_ids T) →
  (∀ x, x ∈ addTags → x ∈ tag_names T) →
  ∃ T', exec_all
          (flat_map (per_image_statements addTags removeTags) imageIds) T
        = inr T'
    ∧ wf T'
    ∧ images T' = images T
    ∧ tags T' = tags T
    ∧ (∀ id' x, linked T' id' x
                ↔ if decide (id' ∈ imageIds)
                  then x ∈ addTags ∨ (linked T id' x ∧ x ∉ removeTags)
                  else linked T id' x).
Proof.
  revert T. induction imageIds as [|id imageIds IH]; intros T Hwf Hids Hadd.
  - exists T. split_and!; done.
  - cbn [flat_map]. rewrite exec_all_app.
    destruct (run_per_image T id addTags removeTags Hwf)
      as (T1 & -> & Hwf1 & Him1 & Htg1 & Hl1); [|done|].
    { intros Hne. apply Hids; [done|left]. }
    destruct (IH T1 Hwf1) as (T' & Hrun & Hwf' & Him' & Htg' & Hl').
    { intros Hne id' Hid'. unfold image_ids. rewrite Him1.
      apply Hids; [done|by right]. }
    { intros x Hx. unfold tag_names. rewrite Htg1. by apply Hadd. }
    exists T'. split_and!; [done..|congruence|congruence|].
    intros id' x. rewrite Hl'.
    destruct (decide (id' = id)) as [->|Hne].
    + rewrite (decide_True (P:=id ∈ id :: imageIds)) by left.
      case_decide; rewrite Hl1; tauto.
    + destruct (decide (id' ∈ imageIds)) as [Hin|Hout].
      * rewrite decide_True by (by right). rewrite Hl1. tauto.
      * rewrite decide_False by (by intros [?|?]%elem_of_cons).
        rewrite Hl1. tauto.
Qed.

Lemma exec_all_ensure_tags_keep T T' (names : list string) :
  exec_all (InsertOrIgnoreTag <$> names) T = inr T' →
  tags T `prefix_of` tags T'.
Proof.
  revert T. induction names as [|name names IH]; intros T Hrun.
  - simpl in Hrun. by injection Hrun as <-.
  - destruct (exec_InsertOrIgnoreTag T name)
      as (T1 & n & He & _ & _ & _ & Hsame & Hnew).
    rewrite fmap_cons, (exec_all_Done _ _ _ _ _ He) in Hrun.
    apply IH in Hrun. etrans; [|exact Hrun].
    destruct (decide (name ∈ tag_names T)) as [Hin|Hout].
    + by rewrite (Hsame Hin).
    + rewrite (Hnew Hout). by apply prefix_app_r.
Qed.

(** Where the statements of an image sit in the batch. *)
Lemma batchUpdateTags_statements_order imageIds addTags removeTags id :
  id ∈ imageIds →
  ∃ before after,
    batchUpdateTags_statements imageIds addTags removeTags
    = before ++ (DeleteImageTag id <$> removeTags)
      ++ (InsertOrIgnoreImageTag id <$> addTags) ++ after.
Proof.
  intros Hid. apply list_elem_of_split in Hid as (l1 & l2 & ->).
  rewrite batchUpdateTags_statements_eq, flat_map_app. cbn [flat_map].
  unfold per_image_statements at 2.
  eexists ((InsertOrIgnoreTag <$> addTags) ++ flat_map _ l1), _.
  by rewrite <-!app_assoc.
Qed.
End BatchUpdateTags.

Lemma exec_InsertOrIgnoreImageTag_unknown (T : Tables) (id name : string) :
  wf T → id ∉ image_ids T → name ∈ tag_names T →
  exec (InsertOrIgnoreImageTag id name) T = Abort ForeignKeyViolation.
Proof.
  intros Hwf Hid Hname. apply list_elem_of_fmap in Hname as (t & -> & Ht).
  cbn [exec]. rewrite tag_ids_named_unique by done. simpl.
  rewrite decide_False, decide_False; [done|tauto|].
  intros Hrow. pose proof (wf_link_image T Hwf) as Hfk.
  rewrite Forall_forall in Hfk. by apply Hfk in Hrow.
Qed.

Lemma run_all_images_unknown (T : Tables)
    (imageIds addTags removeTags : list string) :
  wf T → addTags ≠ [] → (∀ x, x ∈ addTags → x ∈ tag_names T) →
  (∃ id, id ∈ imageIds ∧ id ∉ image_ids T) →
  exec_all (flat_map (per_image_statements addTags removeTags) imageIds) T
  = inl ForeignKeyViolation.
Proof.
  intros Hwf Hne. revert T Hwf.
  induction imageIds as [|id imageIds IH]; intros T Hwf Hadd (bad & Hbad & Hout).
  { by apply elem_of_nil in Hbad. }
  cbn [flat_map]. rewrite exec_all_app.
  destruct (decide (id ∈ image_ids T)) as [Hin|Hnot].
  - destruct (run_per_image T id addTags removeTags Hwf)
      as (T1 & -> & Hwf1 & Him1 & Htg1 & _); [done..|].
    apply IH; [done| |].
    + intros x Hx. unfold tag_names. rewrite Htg1. by apply Hadd.
    + exists bad. unfold image_ids. rewrite Him1. split; [|done].
      apply elem_of_cons in Hbad as [->|Hbad]; done.
  - unfold per_image_statements. rewrite exec_all_app.
    destruct (run_unlink T id removeTags Hwf)
      as (T1 & -> & Hwf1 & Him1 & Htg1 & _).
    destruct addTags as [|tag addTags]; [done|].
    rewrite fmap_cons.
    rewrite (exec_all_Abort _ _ _ ForeignKeyViolation); [done|].
    apply exec_InsertOrIgnoreImageTag_unknown; [done|..].
    + unfold image_ids. by rewrite Him1.
    + unfold tag_names. rewrite Htg1. apply Hadd. left.
Qed.

(** The batch of [batchUpdateTags] is empty exactly when there is no tag to
    add and no pair of an image and a tag to remove. *)
Lemma batchUpdateTags_statements_nonempty
    (imageIds addTags removeTags : list string) :
  batchUpdateTags_statements imageIds addTags removeTags ≠ []
  ↔ addTags ≠ [] ∨ (imageIds ≠ [] ∧ removeTags ≠ []).
Proof.
  unfold batchUpdateTags_statements.
  destruct addTags as [|a addTags]; [|by split; [left|]].
  cbn [fmap list_fmap app].
  destruct removeTags as [|r removeTags].
  - split; [|by intros [?|[_ ?]]]. intros Hne. destruct Hne.
    induction imageIds as [|id ids IH]; [done|]. exact IH.
  - destruct imageIds as [|id ids]; [by split; [|intros [?|[? _]]]|].
    split; [by right|]. by intros _.
Qed.

Lemma batch_calls statements db :
  calls ((batch statements db).1) = calls db ++ [CallBatch statements].
Proof.
  unfold batch. destruct statements; [done|]. by destruct (exec_all _ _).
Qed.

(** C5, as the code has it.  [batchUpdateTags] issues one batch: the
    creations of the tags to add, then for each image id its removals
    followed by its additions.  On tables that satisfy the schema, when the
    batch holds a statement and the image ids all name images (or
    [addTags] is empty), the promise is fulfilled with the length of
    [imageIds]; tags that existed keep their rows and every tag of
    [addTags] exists afterwards; an image of the list ends up linked to the
    tags of [addTags] and to those of its former tags that are not in
    [removeTags], so a tag in both lists is linked; the other images keep
    their links.  When [addTags] is not empty and some id names no image,
    the link insert violates the foreign key: the promise is rejected and
    the tables are those from before the call. *)
Theorem batchUpdateTags_removes_then_adds
    (imageIds addTags removeTags : list string) (db : D1Database) :
  wf (tables db) →
  let statements := batchUpdateTags_statements imageIds addTags removeTags in
  let db' := (batchUpdateTags imageIds addTags removeTags db).1 in
  let settled := (batchUpdateTags imageIds addTags removeTags db).2 in
  calls db' = calls db ++ [CallBatch statements]
  ∧ (∀ id, id ∈ imageIds →
       ∃ before after,
         statements
         = before ++ (DeleteImageTag id <$> removeTags)
           ++ (InsertOrIgnoreImageTag id <$> addTags) ++ after)
  ∧ (statements ≠ [] ↔ addTags ≠ [] ∨ (imageIds ≠ [] ∧ removeTags ≠ []))
  ∧ (statements ≠ [] →
     (addTags ≠ [] → ∀ id, id ∈ imageIds → id ∈ image_ids (tables db)) →
     settled = Fulfilled (Z.of_nat (length imageIds))
     ∧ wf (tables db')
     ∧ images (tables db') = images (tables db)
     ∧ tags (tables db) `prefix_of` tags (tables db')
     ∧ (∀ x, x ∈ addTags → x ∈ tag_names (tables db'))
     ∧ (∀ id x, id ∈ imageIds → x ∈ addTags → linked (tables db') id x)
     ∧ (∀ id x,
          linked (tables db') id x
          ↔ if decide (id ∈ imageIds)
            then x ∈ addTags ∨ (linked (tables db) id x ∧ x ∉ removeTags)
            else linked (tables db) id x))
  ∧ (addTags ≠ [] →
     (∃ id, id ∈ imageIds ∧ id ∉ image_ids (tables db)) →
     settled = Rejected ForeignKeyViolation ∧ tables db' = tables db).
Proof.
  intros Hwf statements db' settled.
  destruct (run_ensure_tags (tables db) addTags Hwf)
    as (T1 & Hrun1 & Hwf1 & Him1 & Hnew & Hkeep & Hl1).
  assert (exec_all statements (tables db)
          = exec_all
              (flat_map (per_image_statements addTags removeTags) imageIds) T1)
    as Hsplit.
  { unfold statements. rewrite batchUpdateTags_statements_eq, exec_all_app.
    by rewrite Hrun1. }
  assert (statements ≠ [] →
          batchUpdateTags imageIds addTags removeTags db
          = match exec_all statements (tables db) with
            | inr T' =>
                (mkD1 T' (calls db ++ [CallBatch statements]),
                 Fulfilled (Z.of_nat (length imageIds)))
            | inl e =>
                (mkD1 (tables db) (calls db ++ [CallBatch statements]),
                 Rejected e)
            end) as Hbatch.
  { intros Hne. unfold batchUpdateTags. fold statements.
    rewrite batch_nonempty by done.
    by destruct (exec_all statements (tables db)). }
  split_and!.
  - unfold db', batchUpdateTags. fold statements.
    pose proof (batch_calls statements db) as Hcalls.
    by destruct (batch statements db) as [? [?|?]].
  - intros id Hid. by apply batchUpdateTags_statements_order.
  - apply batchUpdateTags_statements_nonempty.
  - intros Hst Hids.
    destruct (run_all_images T1 imageIds addTags removeTags Hwf1)
      as (T' & Hrun & Hwf' & Him' & Htg' & Hl'); [|done|].
    { intros Hne id Hid. unfold image_ids. rewrite Him1. by apply Hids. }
    unfold db', settled. rewrite (Hbatch Hst), Hsplit, Hrun. simpl.
    assert (∀ id x,
              linked T' id x
              ↔ if decide (id ∈ imageIds)
                then x ∈ addTags ∨ (linked (tables db) id x ∧ x ∉ removeTags)
                else linked (tables db) id x) as Hlinks.
    { intros id x. rewrite Hl'. case_decide; by rewrite Hl1. }
    split_and!; [done..|congruence| | | |done].
    + rewrite Htg'. by eapply exec_all_ensure_tags_keep.
    + intros x Hx. unfold tag_names. rewrite Htg'. by apply Hnew.
    + intros id x Hid Hx. apply Hlinks. rewrite decide_True by done. by left.
  - intros Hne (bad & Hbad & Hout).
    assert (statements ≠ []) as Hst.
    { apply batchUpdateTags_statements_nonempty. by left. }
    unfold db', settled.
    rewrite (Hbatch Hst), Hsplit, (run_all_images_unknown T1); [done..|].
    exists bad. unfold image_ids. by rewrite Him1.
Qed.

(** C5 as stated fails on an id that names no image: the batch is rejected,
    no count is returned, and the image of the list that does exist is not
    linked to the tag that was in both lists. *)
Lemma batchUpdateTags_unknown_image_rejected :
  let result := batchUpdateTags ["img1"; "ghost"] ["tabby"] ["tabby"] db1 in
  wf (tables db1)
  ∧ result.2 = Rejected ForeignKeyViolation
  ∧ result.2 ≠ Fulfilled (Z.of_nat (length ["img1"; "ghost"]))
  ∧ ¬ linked (tables (result.1)) "img1" "tabby".
Proof.
  split; [exact wf_db1|]. split; [vm_compute; reflexivity|].
  split; [vm_compute; discriminate|].
  rewrite <-elem_of_tag_names_of. vm_compute.
  intros Hin. repeat (apply elem_of_cons in Hin as [Hin|Hin]; [discriminate|]).
  by apply elem_of_nil in Hin.
Qed.

Lemma batchUpdateTags_removes_then_adds_witness :
  wf (tables db1)
  ∧ batchUpdateTags_statements ["img1"] ["cat"] ["cat"] ≠ []
  ∧ (batchUpdateTags ["img1"] ["cat"] ["cat"] db1).2 = Fulfilled 1
  ∧ linked (tables ((batchUpdateTags ["img1"] ["cat"] ["cat"] db1).1))
      "img1" "cat".
Proof.
  assert (batchUpdateTags_statements ["img1"] ["cat"] ["cat"] ≠ []) as Hst
    by discriminate.
  split; [exact wf_db1|]. split; [exact Hst|].
  destruct (batchUpdateTags_removes_then_adds ["img1"] ["cat"] ["cat"] db1
              wf_db1) as (_ & _ & _ & Hok & _).
  destruct (Hok Hst) as (Hres & _ & _ & _ & _ & Hadd & _).
  { intros _ id Hid. apply list_elem_of_singleton in Hid as ->.
    vm_compute. left. }
  split; [exact Hres|]. apply Hadd; left.
Defined.

(** ** renameTag *)

Section RenameTag.
Implicit Types (T : Tables) (id name : string).

Lemma bind_if_fmap_filter {A B} (P : A → Prop) `{∀ x, Decision (P x)}
    (f : A → B) (l : list A) :
  (l ≫= λ x, if decide (P x) then [f x] else []) = f <$> filter P l.
Proof.
  induction l as [|a l IH]; [done|]. csimpl. rewrite IH.
  destruct (decide (P a)).
  - by rewrite filter_cons_True.
  - by rewrite filter_cons_False.
Qed.

Lemma bind_nil_all {A B} (f : A → list B) (l : list A) :
  (∀ x, x ∈ l → f x = []) → l ≫= f = [].
Proof.
  induction l as [|a l IH]; intros Hall; [done|]. csimpl.
  rewrite (Hall a) by left. apply IH. intros x Hx. apply Hall. by right.
Qed.

Lemma bind_ext_in {A B} (f g : A → list B) (l : list A) :
  (∀ x, x ∈ l → f x = g x) → l ≫= f = l ≫= g.
Proof.
  induction l as [|a l IH]; intros Hall; [done|]. csimpl.
  rewrite (Hall a) by left. f_equal. apply IH. intros x Hx. apply Hall.
  by right.
Qed.

(** On well-formed tables, being linked to a tag name is having the link
    row to the tag of that name. *)
Lemma linked_row T t id :
  wf T → t ∈ tags T →
  linked T id (TagRow.name t) ↔ ImageTagRow.mk id (TagRow.id t) ∈ image_tags T.
Proof.
  intros Hwf Ht. split.
  - intros (t' & Ht' & Hn & Hrow).
    assert (t' = t) as ->; [|done].
    eapply (NoDup_fmap_eq TagRow.name); [apply Hwf|done..].
  - intros Hrow. by exists t.
Qed.

(** The count [renameTag] and [deleteTag] read is the number of images
    linked to the tag. *)
Lemma count_links_named_images T name :
  wf T →
  count_links_named name T
  = Z.of_nat (length (filter (λ i, name ∈ tag_names_of (ImageRow.id i) T)
                        (images T))).
Proof.
  intros Hwf. unfold count_links_named. f_equal.
  destruct (decide (name ∈ tag_names T)) as [Hin|Hout].
  - apply list_elem_of_fmap in Hin as (t0 & -> & Ht0).
    rewrite (bind_ext_in _
      (λ it, if decide (ImageTagRow.tag_id it = TagRow.id t0)
             then [(it, t0)] else [])).
    2: { intros it _. rewrite bind_if_fmap_filter.
         rewrite <-(list_filter_filter
                      (λ t, ImageTagRow.tag_id it = TagRow.id t)
                      (λ t, TagRow.name t = TagRow.name t0)).
         rewrite (filter_fmap_unique TagRow.name); [|apply Hwf|done].
         case_decide.
         - by rewrite filter_cons_True.
         - by rewrite filter_cons_False. }
    rewrite bind_if_fmap_filter, length_fmap.
    rewrite <-(length_fmap ImageTagRow.image_id),
            <-(length_fmap ImageRow.id (filter _ (images T))).
    apply Permutation_length, NoDup_Permutation.
    + apply NoDup_fmap_2_strong; [|apply NoDup_filter, Hwf].
      intros [i1 k1] [i2 k2] [Hk1 _]%list_elem_of_filter
        [Hk2 _]%list_elem_of_filter Heq. simpl in *. congruence.
    + apply NoDup_fmap_2_strong; [|apply NoDup_filter].
      * intros i1 i2 [_ H1]%list_elem_of_filter [_ H2]%list_elem_of_filter.
        eapply (NoDup_fmap_eq ImageRow.id); [apply Hwf|done..].
      * eapply NoDup_fmap_1, Hwf.
    + intros id. rewrite !list_elem_of_fmap. split.
      * intros ([i k] & -> & [Hk Hrow]%list_elem_of_filter). simpl in *.
        subst k. pose proof (wf_link_image T Hwf) as Hfk.
        rewrite Forall_forall in Hfk. apply Hfk in Hrow as Himg.
        simpl in Himg. apply list_elem_of_fmap in Himg as (r & -> & Hr).
        exists r. split; [done|]. apply list_elem_of_filter. split; [|done].
        apply elem_of_tag_names_of. by apply linked_row.
      * intros (r & -> & [Hl Hr]%list_elem_of_filter).
        apply elem_of_tag_names_of, linked_row in Hl; [|done..].
        eexists. split; [|apply list_elem_of_filter; split; [|exact Hl]]; done.
  - rewrite bind_nil_all, filter_none; [done|..].
    + apply Forall_forall. intros i _ Hl.
      by apply elem_of_tag_names_of, linked_tag_name in Hl.
    + intros it _. apply bind_nil_all. intros t Ht.
      rewrite decide_False; [done|]. intros [_ <-]. apply Hout.
      by apply list_elem_of_fmap_2.
Qed.
End RenameTag.

Lemma rename_tag_id new old t : TagRow.id (rename_tag new old t) = TagRow.id t.
Proof. unfold rename_tag. by case_decide. Qed.

Lemma exec_UpdateTagName_wf (T : Tables) (new old : string) :
  wf T → new ∉ tag_names T ∨ old ∉ tag_names T →
  ∃ T' n, exec (UpdateTagName new old) T = Done T' n
    ∧ wf T'
    ∧ images T' = images T
    ∧ image_tags T' = image_tags T
    ∧ tag_ids T' = tag_ids T
    ∧ (∀ id x, linked T' id x
               ↔ (x = new ∧ linked T id old) ∨ (x ≠ old ∧ linked T id x)).
Proof.
  intros Hwf Hfree. cbn [exec].
  assert (NoDup (TagRow.name <$> (rename_tag new old <$> tags T))) as Hnd.
  { rewrite <-list_fmap_compose. apply NoDup_fmap_2_strong.
    - intros t1 t2 Ht1 Ht2. unfold rename_tag. simpl.
      pose proof (list_elem_of_fmap_2 TagRow.name _ _ Ht1) as Hn1.
      pose proof (list_elem_of_fmap_2 TagRow.name _ _ Ht2) as Hn2.
      fold (tag_names T) in Hn1, Hn2.
      do 2 case_decide; simpl; intros Heq.
      + eapply (NoDup_fmap_eq TagRow.name); [apply Hwf|done..|congruence].
      + exfalso. destruct Hfree as [Hf|Hf]; apply Hf; congruence.
      + exfalso. destruct Hfree as [Hf|Hf]; apply Hf; congruence.
      + eapply (NoDup_fmap_eq TagRow.name); [apply Hwf|done..].
    - eapply NoDup_fmap_1, Hwf. }
  rewrite decide_True by done. eexists _, _. split; [done|].
  assert (TagRow.id <$> (rename_tag new old <$> tags T) = tag_ids T) as Hids.
  { rewrite <-list_fmap_compose. apply list_fmap_ext.
    intros i t _. apply rename_tag_id. }
  split_and!; try done.
  - destruct Hwf as [Hi Ho Hti Htn Hl Hfi Hft].
    constructor; try done; unfold tag_ids; simpl; by rewrite Hids.
  - intros id x. unfold linked. simpl. split.
    + intros (t' & Ht' & Hn & Hrow).
      apply list_elem_of_fmap in Ht' as (t & -> & Ht).
      rewrite rename_tag_id in Hrow. unfold rename_tag in Hn.
      case_decide as Hold; simpl in Hn.
      * left. split; [done|]. by exists t.
      * right. split; [congruence|]. by exists t.
    + intros [[-> (t & Ht & Hn & Hrow)]|[Hne (t & Ht & Hn & Hrow)]].
      * exists (rename_tag new old t). rewrite rename_tag_id.
        split_and!; [by apply list_elem_of_fmap_2| |done].
        unfold rename_tag. by rewrite decide_True.
      * exists (rename_tag new old t). rewrite rename_tag_id.
        split_and!; [by apply list_elem_of_fmap_2| |done].
        unfold rename_tag. rewrite decide_False; congruence.
Qed.

Lemma exec_UpdateTagName_taken (T : Tables) (new old : string) :
  wf T → new ∈ tag_names T → old ∈ tag_names T → new ≠ old →
  exec (UpdateTagName new old) T = Abort (UniqueViolation "tags").
Proof.
  intros Hwf Hnew Hold Hne. cbn [exec]. rewrite decide_False; [done|].
  intros Hnd.
  apply list_elem_of_fmap in Hnew as (tn & -> & Htn).
  apply list_elem_of_fmap in Hold as (to & -> & Hto).
  assert (rename_tag (TagRow.name tn) (TagRow.name to) to
          = rename_tag (TagRow.name tn) (TagRow.name to) tn) as Heq.
  { eapply (NoDup_fmap_eq TagRow.name); [exact Hnd|..].
    - by apply list_elem_of_fmap_2.
    - by apply list_elem_of_fmap_2.
    - unfold rename_tag. rewrite decide_True by done.
      by rewrite decide_False by done. }
  apply (f_equal TagRow.id) in Heq. rewrite !rename_tag_id in Heq.
  apply Hne. f_equal.
  eapply (NoDup_fmap_eq TagRow.id); [apply Hwf|done..].
Qed.

(** C6, as the code has it.  On tables that satisfy the schema, when
    [newName] and [oldName] are not both names of tags, [renameTag] is
    fulfilled with the number of images linked to [oldName] before the call;
    the link rows and the tag ids are untouched, every image that was linked
    to [oldName] is linked to [newName], none is linked to [oldName] any more
    (for distinct names), and the other links are as before.  When both are
    names of tags and differ, the UPDATE violates the uniqueness of tag
    names: the promise is rejected and the tables are those from before the
    call.  In the scenario of the specification the call returns 1 and
    [img1] then has the tags feline and orange. *)
Theorem renameTag_keeps_links
    (oldName newName : string) (db : D1Database) :
  wf (tables db) →
  let T := tables db in
  let db' := (renameTag oldName newName db).1 in
  let settled := (renameTag oldName newName db).2 in
  (newName ∉ tag_names T ∨ oldName ∉ tag_names T →
   settled
   = Fulfilled
       (Z.of_nat
          (length (filter (λ i, oldName ∈ tag_names_of (ImageRow.id i) T)
                     (images T))))
   ∧ wf (tables db')
   ∧ images (tables db') = images T
   ∧ image_tags (tables db') = image_tags T
   ∧ tag_ids (tables db') = tag_ids T
   ∧ (∀ id, linked T id oldName → linked (tables db') id newName)
   ∧ (newName ≠ oldName → ∀ id, ¬ linked (tables db') id oldName)
   ∧ (∀ id x, linked (tables db') id x
              ↔ (x = newName ∧ linked T id oldName)
                ∨ (x ≠ oldName ∧ linked T id x)))
  ∧ (newName ∈ tag_names T → oldName ∈ tag_names T → newName ≠ oldName →
     settled = Rejected (UniqueViolation "tags") ∧ tables db' = T)
  ∧ (renameTag "cat" "feline" db1).2 = Fulfilled 1
  ∧ ImageMetadata.tags
    <$> getImage "img1" ((renameTag "cat" "feline" db1).1)
    = Some ["feline"; "orange"].
Proof.
  intros Hwf T db' settled. unfold db', settled, renameTag, run. split_and!.
  - intros Hfree.
    destruct (exec_UpdateTagName_wf T newName oldName Hwf Hfree)
      as (T' & n & He & Hwf' & Him & Hlk & Hids & Hl).
    fold T. rewrite He. simpl.
    split_and!; [|done..| | |done].
    + f_equal. by apply count_links_named_images.
    + intros id Hold. apply Hl. by left.
    + intros Hne id Hold. apply Hl in Hold as [[? _]|[? _]]; congruence.
  - intros Hnew Hold Hne. fold T.
    by rewrite (exec_UpdateTagName_taken T newName oldName).
  - vm_compute. reflexivity.
  - vm_compute. reflexivity.
Qed.

(** C6 as stated fails when the new name is taken: the rename is rejected,
    and the image stays linked to the old name and not to the new one. *)
Lemma renameTag_onto_existing_tag_rejected :
  let result := renameTag "cat" "feline" db_feline in
  wf (tables db_feline)
  ∧ linked (tables db_feline) "img1" "cat"
  ∧ result.2 = Rejected (UniqueViolation "tags")
  ∧ result.2 ≠ Fulfilled 1
  ∧ linked (tables (result.1)) "img1" "cat"
  ∧ ¬ linked (tables (result.1)) "img1" "feline".
Proof.
  cbv zeta. rewrite <-!elem_of_tag_names_of. split_and!.
  - apply (bool_decide_unpack _). vm_compute. exact I.
  - apply (bool_decide_unpack _). vm_compute. exact I.
  - vm_compute. reflexivity.
  - vm_compute. discriminate.
  - apply (bool_decide_unpack _). vm_compute. exact I.
  - apply (bool_decide_unpack _). vm_compute. exact I.
Qed.

Lemma renameTag_keeps_links_witness :
  wf (tables db1)
  ∧ ("feline" ∉ tag_names (tables db1) ∨ "cat" ∉ tag_names (tables db1))
  ∧ (renameTag "cat" "feline" db1).2 = Fulfilled 1
  ∧ linked (tables ((renameTag "cat" "feline" db1).1)) "img1" "feline"
  ∧ ¬ linked (tables ((renameTag "cat" "feline" db1).1)) "img1" "cat".
Proof.
  assert ("feline" ∉ tag_names (tables db1) ∨ "cat" ∉ tag_names (tables db1))
    as Hfree.
  { left. apply (bool_decide_unpack _). vm_compute. exact I. }
  split; [exact wf_db1|]. split; [exact Hfree|].
  destruct (renameTag_keeps_links "cat" "feline" db1 wf_db1)
    as (Hok & _ & Hone & _).
  destruct (Hok Hfree) as (_ & _ & _ & _ & _ & Hnew & Hold & _).
  split; [exact Hone|]. split.
  - apply Hnew, elem_of_tag_names_of.
    apply (bool_decide_unpack _). vm_compute. exact I.
  - apply Hold. discriminate.
Defined.

(** ** getImages *)

Section GetImages.
Implicit Types (T : Tables) (db : D1Database) (tag orientation : option string).

#[local] Instance newer_first_total : Total newer_first.
Proof. intros a b. unfold newer_first. apply String.leb_total. Qed.

Lemma elem_of_from_images_join_2 T i t :
  i ∈ images T → t ∈ tags T →
  ImageTagRow.mk (ImageRow.id i) (TagRow.id t) ∈ image_tags T →
  (i, Some t) ∈ from_images true T.
Proof.
  intros Hi Ht Hrow. unfold from_images.
  apply list_elem_of_bind. exists i. split; [|done].
  apply list_elem_of_bind. eexists. split; [|exact Hrow].
  apply list_elem_of_bind. exists t. split; [|done].
  rewrite decide_True by done. left.
Qed.

Lemma elem_of_from_images_plain T row :
  row ∈ from_images false T ↔ row.2 = None ∧ row.1 ∈ images T.
Proof.
  unfold from_images. rewrite list_elem_of_fmap. split.
  - by intros (i & -> & Hi).
  - destruct row as [i o]. simpl. intros [-> Hi]. by exists i.
Qed.

Lemma elem_of_from_images_Some T row :
  row ∈ from_images true T → ∃ t, row.2 = Some t.
Proof.
  unfold from_images. intros Hin.
  apply list_elem_of_bind in Hin as (i' & Hin & Hi).
  apply list_elem_of_bind in Hin as (it & Hin & Hit).
  apply list_elem_of_bind in Hin as (t' & Hin & Ht).
  case_decide as Hc; [|by apply elem_of_nil in Hin].
  apply list_elem_of_singleton in Hin as ->. by exists t'.
Qed.

(** The images the FROM and WHERE clauses of [getImages] select. *)
Lemma elem_of_getImages_matching T tag orientation i :
  i ∈ (where_ T (getImages_conditions tag orientation)
         (from_images (truthy tag) T)).*1
  ↔ i ∈ images T ∧ matches tag orientation T i.
Proof.
  rewrite list_elem_of_fmap. unfold where_, getImages_conditions, matches.
  split.
  - intros ([i' o] & -> & Hrow). apply list_elem_of_filter in Hrow as [Hc Hrow].
    apply Forall_app in Hc as [Htag Hor]. simpl.
    assert (truthy orientation →
            ImageRow.orientation i' = or_empty orientation) as Hori.
    { intros Ht. destruct (truthy orientation); [|done].
      rewrite Forall_singleton in Hor. exact Hor. }
    destruct (truthy tag) eqn:Htruthy.
    + rewrite Forall_singleton in Htag. simpl in Htag.
      destruct o as [t|]; [|done]. simpl in Htag. injection Htag as Hname.
      apply elem_of_from_images_join in Hrow as (Hi & Ht & Hlink).
      split; [done|]. split; [|done]. intros _.
      apply elem_of_tag_names_of. by exists t.
    + apply elem_of_from_images_plain in Hrow as [_ Hi]. by split.
  - intros (Hi & Htag & Hor).
    assert (Forall (holds T (i, None))
              (if truthy orientation
               then [OrientationIs (or_empty orientation)] else []))
      as Hor_none.
    { destruct (truthy orientation); [|done].
      apply Forall_singleton. by apply Hor. }
    destruct (truthy tag) eqn:Htruthy.
    + apply elem_of_tag_names_of in Htag as (t & Ht & Hname & Hrow); [|done].
      exists (i, Some t). split; [done|]. apply list_elem_of_filter. split.
      * apply Forall_app. split; [by apply Forall_singleton; simpl; f_equal|].
        destruct (truthy orientation); [|done].
        apply Forall_singleton. by apply Hor.
      * by apply elem_of_from_images_join_2.
    + exists (i, None). split; [done|]. apply list_elem_of_filter.
      split; [by apply Forall_app|]. by apply elem_of_from_images_plain.
Qed.

Lemma NoDup_images T : wf T → NoDup (images T).
Proof. intros Hwf. eapply NoDup_fmap_1, Hwf. Qed.

Lemma listing_Permutation tag orientation db :
  wf (tables db) →
  listing tag orientation db
  ≡ₚ filter (matches tag orientation (tables db)) (images (tables db)).
Proof.
  intros Hwf. unfold listing, order_by_upload_time_desc.
  rewrite merge_sort_Permutation. apply NoDup_Permutation.
  - apply NoDup_nub.
  - by apply NoDup_filter, NoDup_images.
  - intros i. rewrite elem_of_nub, elem_of_getImages_matching,
      list_elem_of_filter. tauto.
Qed.

Lemma listing_ids_NoDup tag orientation db :
  wf (tables db) → NoDup (ImageRow.id <$> listing tag orientation db).
Proof.
  intros Hwf. rewrite listing_Permutation by done.
  apply NoDup_fmap_2_strong; [|by apply NoDup_filter, NoDup_images].
  intros i1 i2 [_ H1]%list_elem_of_filter [_ H2]%list_elem_of_filter.
  eapply (NoDup_fmap_eq ImageRow.id); [apply Hwf|done..].
Qed.

Lemma listing_Sorted tag orientation db :
  Sorted newer_first (listing tag orientation db).
Proof. apply Sorted_merge_sort, _. Qed.

(** COUNT(DISTINCT i.id) counts the matching images. *)
Lemma getImages_total tag orientation db :
  wf (tables db) →
  count_distinct_ids tag orientation db
  = Z.of_nat (length (filter (matches tag orientation (tables db))
                        (images (tables db)))).
Proof.
  intros Hwf. unfold count_distinct_ids. f_equal.
  rewrite <-(length_fmap ImageRow.id (filter _ _)).
  apply Permutation_length, NoDup_Permutation.
  - apply NoDup_nub.
  - apply NoDup_fmap_2_strong; [|by apply NoDup_filter, NoDup_images].
    intros i1 i2 [_ H1]%list_elem_of_filter [_ H2]%list_elem_of_filter.
    eapply (NoDup_fmap_eq ImageRow.id); [apply Hwf|done..].
  - intros id. rewrite elem_of_nub, !list_elem_of_fmap.
    setoid_rewrite elem_of_getImages_matching.
    setoid_rewrite list_elem_of_filter. split.
    + intros (i & -> & Hi & Hm). by exists i.
    + intros (i & -> & Hm & Hi). by exists i.
Qed.
End GetImages.

Section EnrichWithTags.
Implicit Types (db : D1Database) (rows : list ImageRow.t).

Lemma tagMap_lookup (l : list (string * string))
    (m : gmap string (list string)) (k : string) :
  default [] (foldl tagMap_push m l !! k)
  = default [] (m !! k) ++ (snd <$> filter (λ r, r.1 = k) l).
Proof.
  revert m. induction l as [|r l IH]; intros m; simpl.
  - by rewrite app_nil_r.
  - rewrite IH. unfold tagMap_push.
    destruct (decide (r.1 = k)) as [<-|Hne].
    + rewrite lookup_insert_eq, filter_cons_True by done. simpl.
      by rewrite <-app_assoc.
    + by rewrite lookup_insert_ne, filter_cons_False by done.
Qed.

Lemma enrichWithTags_ids rows db :
  ImageMetadata.id <$> enrichWithTags rows db = ImageRow.id <$> rows.
Proof.
  unfold enrichWithTags. case_decide as Hlen.
  - by destruct rows.
  - rewrite <-list_fmap_compose. by apply list_fmap_ext.
Qed.

(** A record of [enrichWithTags] is its row with the names of the tags the
    image is linked to. *)
Lemma elem_of_enrichWithTags rows db m :
  m ∈ enrichWithTags rows db →
  ∃ row, row ∈ rows
    ∧ m = rowToMetadata row (ImageMetadata.tags m)
    ∧ ∀ x, x ∈ ImageMetadata.tags m
           ↔ linked (tables db) (ImageRow.id row) x.
Proof.
  unfold enrichWithTags. case_decide as Hlen; [by intros ?%elem_of_nil|].
  intros (row & -> & Hrow)%list_elem_of_fmap. exists row.
  split; [done|]. split; [done|]. intros x. simpl.
  rewrite tagMap_lookup, lookup_empty. simpl.
  rewrite list_elem_of_fmap. split.
  - intros ([i n] & -> & [Hi Hin]%list_elem_of_filter). simpl in *. subst i.
    apply list_elem_of_bind in Hin as (it & Hin & Hit).
    apply list_elem_of_bind in Hin as (t & Hin & Ht).
    case_decide as Hc; [|by apply elem_of_nil in Hin].
    apply list_elem_of_singleton in Hin. injection Hin as Hid ->.
    exists t. split_and!; [done..|]. destruct Hc as [<- _].
    rewrite Hid. by destruct it.
  - intros (t & Ht & <- & Hlink). exists (ImageRow.id row, TagRow.name t).
    split; [done|]. apply list_elem_of_filter. split; [done|].
    apply list_elem_of_bind. eexists. split; [|exact Hlink].
    apply list_elem_of_bind. exists t. split; [|done]. simpl.
    rewrite decide_True; [left|]. split; [done|].
    by apply list_elem_of_fmap_2.
Qed.
End EnrichWithTags.

Section Pages.
Context {A : Type}.
Implicit Types (l : list A) (n a : nat).

Lemma limit_offset_nonneg (limit offset : Z) l :
  0 ≤ limit → int64 limit → int64 offset →
  limit_offset limit offset l
  = inr (take (Z.to_nat limit) (drop (Z.to_nat offset) l)).
Proof.
  intros Hl Hlimit Hoffset. unfold limit_offset.
  rewrite decide_True by done. by rewrite decide_False by lia.
Qed.

Lemma limit_offset_out_of_range (limit offset : Z) l :
  ¬ (int64 limit ∧ int64 offset) →
  limit_offset limit offset l = inl DatatypeMismatch.
Proof. intros Hout. unfold limit_offset. by rewrite decide_False. Qed.

Lemma Sorted_drop (R : relation A) l n : Sorted R l → Sorted R (drop n l).
Proof.
  revert l. induction n as [|n IH]; intros l Hs; [by rewrite drop_0|].
  destruct l as [|x l]; simpl; [constructor|].
  apply IH. apply Sorted_inv in Hs. apply Hs.
Qed.

Lemma Sorted_take (R : relation A) l n : Sorted R l → Sorted R (take n l).
Proof.
  revert n. induction l as [|x l IH]; intros n Hs.
  { rewrite take_nil. constructor. }
  destruct n as [|n]; [constructor|]. simpl.
  apply Sorted_inv in Hs as [Hs Hhd]. constructor; [by apply IH|].
  destruct Hhd as [|y l' Hxy]; [rewrite take_nil; constructor|].
  destruct n; simpl; by constructor.
Qed.

(** Two consecutive windows of a list without duplicates share nothing. *)
Lemma consecutive_windows_disjoint l n a x :
  NoDup l → x ∈ take n (drop a l) → x ∉ take n (drop (a + n) l).
Proof.
  intros Hnd Hx Hx'. rewrite <-drop_drop in Hx'.
  assert (NoDup (drop a l)) as Hnd'.
  { rewrite <-(take_drop a l) in Hnd. by apply NoDup_app in Hnd as (_ & _ & ?). }
  rewrite <-(take_drop n (drop a l)) in Hnd'.
  apply NoDup_app in Hnd' as (_ & Hdisj & _). apply (Hdisj x Hx).
  apply elem_of_take in Hx' as (i & Hi & _). by eapply list_elem_of_lookup_2.
Qed.

(** The first two windows make up a list of at most twice their size. *)
Lemma first_two_windows l n :
  (length l ≤ 2 * n)%nat →
  take n (drop 0 l) ++ take n (drop (0 + n) l) = l.
Proof.
  intros Hlen. rewrite drop_0. simpl. rewrite take_take_drop.
  apply take_ge. lia.
Qed.
End Pages.

Lemma getImages_page (tag orientation : option string) (page limit : Z)
    (db : D1Database) :
  1 ≤ limit → int64 limit → int64 ((page - 1) * limit) →
  getImages (ImageFilters.mk (Some page) (Some limit) tag orientation) db
  = Fulfilled
      (enrichWithTags
         (take (Z.to_nat limit)
            (drop (Z.to_nat ((page - 1) * limit))
               (listing tag orientation db)))
         db,
       count_distinct_ids tag orientation db).
Proof.
  intros Hlimit Hl Ho. unfold getImages.
  cbn [ImageFilters.page ImageFilters.limit ImageFilters.tag
    ImageFilters.orientation default from_option id].
  fold (getImages_conditions tag orientation).
  fold (listing tag orientation db).
  by rewrite limit_offset_nonneg by (done || lia).
Qed.

(** A limit or an offset that is not a 64-bit integer: the second query is
    refused and [getImages] is rejected. *)
Lemma getImages_out_of_range (tag orientation : option string)
    (page limit : Z) (db : D1Database) :
  ¬ (int64 limit ∧ int64 ((page - 1) * limit)) →
  getImages (ImageFilters.mk (Some page) (Some limit) tag orientation) db
  = Rejected DatatypeMismatch.
Proof.
  intros Hout. unfold getImages.
  cbn [ImageFilters.page ImageFilters.limit ImageFilters.tag
    ImageFilters.orientation default from_option id].
  by rewrite limit_offset_out_of_range.
Qed.

(** C4, as the code has it.  On tables that satisfy the schema, for a page
    and a limit of at least 1 whose limit and offset [(page - 1) * limit]
    are at most [MAX_SAFE_INTEGER]: the query of [getImages] without LIMIT
    and OFFSET lists the images that match the filter, each once, newest
    upload first;
    [getImages] is fulfilled with the page and the total; the page is the
    window of [limit] rows of that list starting at the offset, in that
    order, each row enriched with the tags of its image; the total is the
    number of matching images; the ids of two consecutive pages are
    disjoint; and when the total is at most twice the limit, the ids of
    pages 1 and 2 together are the ids of the whole list, without
    duplicates. *)
Theorem getImages_pages
    (tag orientation : option string) (page limit : Z) (db : D1Database) :
  wf (tables db) → 1 ≤ page → 1 ≤ limit →
  limit ≤ MAX_SAFE_INTEGER → (page - 1) * limit ≤ MAX_SAFE_INTEGER →
  let T := tables db in
  let filters p := ImageFilters.mk (Some p) (Some limit) tag orientation in
  let all := listing tag orientation db in
  let window p :=
    take (Z.to_nat limit) (drop (Z.to_nat ((p - 1) * limit)) all) in
  let records p := enrichWithTags (window p) db in
  let ids p := ImageMetadata.id <$> records p in
  let total :=
    Z.of_nat (length (filter (matches tag orientation T) (images T))) in
  all ≡ₚ filter (matches tag orientation T) (images T)
  ∧ NoDup (ImageRow.id <$> all)
  ∧ Sorted newer_first all
  ∧ Sorted newer_first (window page)
  ∧ getImages (filters page) db = Fulfilled (records page, total)
  ∧ ids page = ImageRow.id <$> window page
  ∧ (∀ m, m ∈ records page →
       ∃ row, row ∈ window page
         ∧ matches tag orientation T row
         ∧ m = rowToMetadata row (ImageMetadata.tags m)
         ∧ ∀ x, x ∈ ImageMetadata.tags m ↔ linked T (ImageRow.id row) x)
  ∧ (page * limit ≤ MAX_SAFE_INTEGER →
     getImages (filters (page + 1)) db
     = Fulfilled (records (page + 1), total))
  ∧ (∀ x, x ∈ ids page → x ∉ ids (page + 1))
  ∧ (total ≤ 2 * limit →
     getImages (filters 1) db = Fulfilled (records 1, total)
     ∧ getImages (filters 2) db = Fulfilled (records 2, total)
     ∧ ids 1 ++ ids 2 = ImageRow.id <$> all ∧ NoDup (ids 1 ++ ids 2)).
Proof.
  intros Hwf Hpage Hlimit Hlmax Homax T filters all window records ids total.
  pose proof (listing_Permutation tag orientation db Hwf) as Hperm.
  pose proof (listing_ids_NoDup tag orientation db Hwf) as Hnd.
  assert (∀ p, ids p
               = take (Z.to_nat limit)
                   (drop (Z.to_nat ((p - 1) * limit)) (ImageRow.id <$> all)))
    as Hids.
  { intros p. unfold ids, records, window.
    by rewrite enrichWithTags_ids, fmap_take, fmap_drop. }
  assert (∀ p, 1 ≤ p → (p - 1) * limit ≤ MAX_SAFE_INTEGER →
               getImages (filters p) db = Fulfilled (records p, total))
    as Hget.
  { intros p Hp Ho. unfold filters. unfold MAX_SAFE_INTEGER in *.
    rewrite getImages_page.
    - by rewrite getImages_total.
    - done.
    - unfold int64. lia.
    - unfold int64. nia. }
  split_and!; [done|done|apply listing_Sorted| |by apply Hget|..].
  - apply Sorted_take, Sorted_drop, listing_Sorted.
  - rewrite Hids. unfold window. by rewrite fmap_take, fmap_drop.
  - intros m Hm.
    apply elem_of_enrichWithTags in Hm as (row & Hrow & Heq & Htags).
    exists row. split_and!; [done| |done..].
    assert (row ∈ all) as Hall.
    { apply elem_of_take in Hrow as (i & Hi & _).
      rewrite lookup_drop in Hi. by eapply list_elem_of_lookup_2. }
    fold all in Hperm. rewrite Hperm in Hall.
    by apply list_elem_of_filter in Hall as [? _].
  - intros Hnext. apply Hget; [lia|].
    by replace ((page + 1 - 1) * limit) with (page * limit) by lia.
  - intros x. rewrite !Hids.
    replace (Z.to_nat ((page + 1 - 1) * limit))
      with (Z.to_nat ((page - 1) * limit) + Z.to_nat limit)%nat by nia.
    by apply consecutive_windows_disjoint.
  - intros Htotal.
    assert (ids 1 ++ ids 2 = ImageRow.id <$> all) as Hcover.
    { rewrite !Hids.
      replace (Z.to_nat ((1 - 1) * limit)) with 0%nat by lia.
      replace (Z.to_nat ((2 - 1) * limit)) with (0 + Z.to_nat limit)%nat
        by lia.
      apply first_two_windows. rewrite length_fmap.
      apply Permutation_length in Hperm. unfold total, all, T in *. lia. }
    split_and!; [apply Hget; lia|apply Hget; lia|done|by rewrite Hcover].
Qed.

(** C4 as stated fails on a limit that SQLite does not take: with page 1
    and limit [2 ^ 63] the paginated query is refused and [getImages] is
    rejected, so no page and no total are returned. *)
Lemma getImages_limit_out_of_range_rejected :
  let filters := ImageFilters.mk (Some 1) (Some (2 ^ 63)) None None in
  wf (tables db3) ∧ 1 ≤ 1 ∧ 1 ≤ 2 ^ 63
  ∧ getImages filters db3 = Rejected DatatypeMismatch
  ∧ ∀ result, getImages filters db3 ≠ Fulfilled result.
Proof.
  assert (getImages (ImageFilters.mk (Some 1) (Some (2 ^ 63)) None None) db3
          = Rejected DatatypeMismatch) as Hrej by (vm_compute; reflexivity).
  cbv zeta. split; [exact wf_db3|]. split; [lia|]. split; [lia|].
  split; [exact Hrej|]. intros result. rewrite Hrej. discriminate.
Qed.

Lemma getImages_pages_witness :
  let filters p := ImageFilters.mk (Some p) (Some 1) (Some "cat") None in
  wf (tables db3) ∧ 1 ≤ 1 ∧ 1 ≤ 1
  ∧ 1 ≤ MAX_SAFE_INTEGER ∧ (1 - 1) * 1 ≤ MAX_SAFE_INTEGER
  ∧ (∃ records,
       getImages (filters 1) db3 = Fulfilled (records, 2)
       ∧ ImageMetadata.id <$> records = ["img3"])
  ∧ (∃ records,
       getImages (filters 2) db3 = Fulfilled (records, 2)
       ∧ ImageMetadata.id <$> records = ["img1"]).
Proof.
  cbv zeta.
  split; [exact wf_db3|]. split; [lia|]. split; [lia|].
  split; [by vm_compute|]. split; [by vm_compute|].
  destruct (getImages_pages (Some "cat") None 1 1 db3 wf_db3
              ltac:(lia) ltac:(lia) ltac:(by vm_compute) ltac:(by vm_compute))
    as (_ & _ & _ & _ & Hfirst & _ & _ & Hsecond & _).
  split.
  - eexists. split; [exact Hfirst|]. vm_compute. reflexivity.
  - eexists. split; [apply Hsecond; by vm_compute|]. vm_compute. reflexivity.
Defined.

(** ** The schema is an invariant of the service *)

Section Invariant.
Implicit Types (T : Tables) (db : D1Database).

Lemma wf_empty_tables : wf empty_tables.
Proof. constructor; simpl; constructor. Qed.

Lemma NoDup_fmap_filter {A B} (f : A → B) (P : A → Prop)
    `{∀ x, Decision (P x)} (l : list A) :
  NoDup (f <$> l) → NoDup (f <$> filter P l).
Proof.
  intros Hnd. eapply sublist_NoDup; [exact Hnd|].
  apply fmap_sublist, sublist_filter.
Qed.

(** A statement that goes through leaves tables that satisfy the schema. *)
Lemma exec_wf s T T' n : wf T → exec s T = Done T' n → wf T'.
Proof.
  intros Hwf He. destruct s as [r|name|id name|id name|id name|e id|id|new old|name].
  - cbn [exec] in He. case_decide as Hid; [done|].
    case_decide as Hok; [|done]. injection He as <- _.
    destruct Hwf as [Hi Ho Hti Htn Hl Hfi Hft].
    constructor; simpl; try done.
    + unfold image_ids. simpl. rewrite fmap_app. apply NoDup_app.
      split_and!; [done| |apply NoDup_singleton].
      by intros x Hx ->%list_elem_of_singleton.
    + apply Forall_app. split; [done|]. by apply Forall_singleton.
    + eapply Forall_impl; [exact Hfi|]. intros l Hl'. unfold image_ids.
      simpl. rewrite fmap_app. apply elem_of_app. by left.
  - destruct (exec_InsertOrIgnoreTag_wf T name Hwf) as (T1 & n1 & He1 & ? & _).
    congruence.
  - by eapply insert_image_tags_wf.
  - by eapply insert_image_tags_wf.
  - destruct (exec_DeleteImageTag_wf T id name Hwf) as (T1 & n1 & He1 & ? & _).
    congruence.
  - destruct (exec_UpdateExpiryTime_wf T e id Hwf) as (T1 & n1 & He1 & ? & _).
    congruence.
  - cbn [exec] in He. injection He as <- _.
    destruct Hwf as [Hi Ho Hti Htn Hl Hfi Hft].
    constructor; simpl; try done.
    + by apply NoDup_fmap_filter.
    + apply Forall_forall. intros r [_ Hr]%list_elem_of_filter.
      rewrite Forall_forall in Ho. by apply Ho.
    + by apply NoDup_filter.
    + apply Forall_forall. intros l [Hkeep Hl']%list_elem_of_filter.
      rewrite Forall_forall in Hfi. apply Hfi in Hl' as Himg.
      apply list_elem_of_fmap in Himg as (r & Heq & Hr).
      unfold image_ids. simpl. rewrite Heq. apply list_elem_of_fmap_2.
      apply list_elem_of_filter. split; [|done]. intros Hid.
      apply Hkeep. rewrite Heq. apply list_elem_of_fmap_2.
      by apply list_elem_of_filter.
    + apply Forall_forall. intros l [_ Hl']%list_elem_of_filter.
      rewrite Forall_forall in Hft. by apply Hft.
  - cbn [exec] in He. case_decide as Hnd; [|done]. injection He as <- _.
    assert (TagRow.id <$> (rename_tag new old <$> tags T) = tag_ids T) as Hids.
    { rewrite <-list_fmap_compose. apply list_fmap_ext.
      intros i t _. apply rename_tag_id. }
    destruct Hwf as [Hi Ho Hti Htn Hl Hfi Hft].
    constructor; try done; unfold tag_ids; simpl; by rewrite Hids.
  - cbn [exec] in He. injection He as <- _.
    destruct Hwf as [Hi Ho Hti Htn Hl Hfi Hft].
    constructor; simpl; try done.
    + by apply NoDup_fmap_filter.
    + by apply NoDup_fmap_filter.
    + by apply NoDup_filter.
    + apply Forall_forall. intros l [_ Hl']%list_elem_of_filter.
      rewrite Forall_forall in Hfi. by apply Hfi.
    + apply Forall_forall. intros l [Hkeep Hl']%list_elem_of_filter.
      rewrite Forall_forall in Hft. apply Hft in Hl' as Htag.
      apply list_elem_of_fmap in Htag as (t & Heq & Ht).
      unfold tag_ids. simpl. rewrite Heq. apply list_elem_of_fmap_2.
      apply list_elem_of_filter. split; [|done]. intros Hname.
      apply Hkeep. rewrite Heq. apply list_elem_of_fmap_2.
      by apply list_elem_of_filter.
Qed.

Lemma exec_all_wf statements T T' :
  wf T → exec_all statements T = inr T' → wf T'.
Proof.
  revert T. induction statements as [|s rest IH]; intros T Hwf Hrun.
  - simpl in Hrun. by injection Hrun as <-.
  - cbn [exec_all] in Hrun. destruct (exec s T) as [T1 n|e] eqn:He; [|done].
    eapply IH; [|exact Hrun]. by eapply exec_wf.
Qed.

Lemma batch_wf statements db :
  wf (tables db) → wf (tables ((batch statements db).1)).
Proof.
  intros Hwf. unfold batch. destruct statements as [|s rest]; [done|].
  destruct (exec_all (s :: rest) (tables db)) as [e|T'] eqn:Hrun; [done|].
  cbn [fst tables]. by eapply exec_all_wf.
Qed.

Lemma run_wf s db : wf (tables db) → wf (tables ((run s db).1)).
Proof.
  intros Hwf. unfold run.
  destruct (exec s (tables db)) as [T' n|e] eqn:He; [|done].
  simpl. by eapply exec_wf.
Qed.

(** Every write method of the service keeps the schema. *)
Lemma saveImage_wf metadata db :
  wf (tables db) → wf (tables ((saveImage metadata db).1)).
Proof. apply batch_wf. Qed.

Lemma deleteImage_wf id db :
  wf (tables db) → wf (tables ((deleteImage id db).1)).
Proof.
  intros Hwf. unfold deleteImage. pose proof (run_wf (DeleteImage id) db Hwf).
  by destruct (run (DeleteImage id) db) as [db' [n|e]].
Qed.

Lemma updateImage_wf id updates db :
  wf (tables db) → wf (tables ((updateImage id updates db).1)).
Proof.
  intros Hwf. unfold updateImage. destruct (getImage id db); [|done].
  cbv zeta. case_decide; [|done].
  pose proof (batch_wf (updateImage_statements id t updates) db Hwf).
  by destruct (batch _ db) as [db' [u|e]].
Qed.

Lemma batchUpdateTags_wf imageIds addTags removeTags db :
  wf (tables db) →
  wf (tables ((batchUpdateTags imageIds addTags removeTags db).1)).
Proof.
  intros Hwf. unfold batchUpdateTags.
  pose proof (batch_wf (batchUpdateTags_statements imageIds addTags removeTags)
                db Hwf).
  by destruct (batch _ db) as [db' [u|e]].
Qed.

Lemma renameTag_wf oldName newName db :
  wf (tables db) → wf (tables ((renameTag oldName newName db).1)).
Proof.
  intros Hwf. unfold renameTag.
  pose proof (run_wf (UpdateTagName newName oldName) db Hwf).
  by destruct (run _ db) as [db' [n|e]].
Qed.

Lemma createTag_wf name db :
  wf (tables db) → wf (tables ((createTag name db).1)).
Proof.
  intros Hwf. unfold createTag.
  pose proof (run_wf (InsertOrIgnoreTag name) db Hwf).
  by destruct (run _ db) as [db' [n|e]].
Qed.

Lemma deleteTag_wf name db :
  wf (tables db) → wf (tables ((deleteTag name db).1)).
Proof.
  intros Hwf. unfold deleteTag.
  pose proof (run_wf (DeleteTag name) db Hwf).
  by destruct (run _ db) as [db' [n|e]].
Qed.
End Invariant.

(** ** saveImage and getImage together *)

Section SaveThenGet.
Implicit Types (T : Tables) (id name : string) (db : D1Database).

Lemma filter_eq_NoDup {A} `{EqDecision A} (a : A) (l : list A) :
  NoDup l → filter (λ y, y = a) l = if decide (a ∈ l) then [a] else [].
Proof.
  induction 1 as [|x l Hx Hnd IH]; [done|].
  destruct (decide (x = a)) as [->|Hne].
  - rewrite filter_cons_True, decide_True by (done || left).
    f_equal. apply filter_none, Forall_forall. by intros y Hy ->.
  - rewrite filter_cons_False, IH by done.
    destruct (decide (a ∈ l)) as [Hin|Hout].
    + by rewrite decide_True by (by right).
    + rewrite decide_False; [done|]. by intros [?|?]%elem_of_cons.
Qed.

Lemma filter_ext_in {A} (P Q : A → Prop) `{∀ x, Decision (P x)}
    `{∀ x, Decision (Q x)} (l : list A) :
  (∀ x, x ∈ l → P x ↔ Q x) → filter P l = filter Q l.
Proof.
  induction l as [|a l IH]; intros Hext; [done|].
  rewrite !filter_cons, IH by (intros x Hx; apply Hext; by right).
  destruct (decide (P a)) as [Hp|Hp]; destruct (decide (Q a)) as [Hq|Hq];
    try done; exfalso; apply (Hext a) in Hp || apply (Hext a) in Hq;
    done || left.
Qed.

(** On tables that satisfy the schema, the join of [getImage] lists the
    names of the tags that have a link row to the image, in the order of the
    [tags] table. *)
Lemma tag_names_of_filter T id :
  wf T →
  tag_names_of id T
  = TagRow.name
    <$> filter (λ t, ImageTagRow.mk id (TagRow.id t) ∈ image_tags T) (tags T).
Proof.
  intros Hwf. unfold tag_names_of.
  rewrite <-(bind_if_fmap_filter
               (λ t, ImageTagRow.mk id (TagRow.id t) ∈ image_tags T)).
  apply bind_ext_in. intros t _.
  rewrite bind_if_fmap_filter.
  rewrite (list_filter_iff _ (λ it, it = ImageTagRow.mk id (TagRow.id t))).
  2: { intros [i k]. simpl. split; [by intros [-> ->]|by intros [= -> ->]]. }
  rewrite filter_eq_NoDup by apply Hwf. by case_decide.
Qed.

Lemma tag_names_of_NoDup T id : wf T → NoDup (tag_names_of id T).
Proof.
  intros Hwf. rewrite tag_names_of_filter by done.
  apply NoDup_fmap_filter, Hwf.
Qed.

(** What a link insert that goes through does, plain or OR IGNORE. *)
Lemma insert_link_Done ignore T id name T2 n :
  wf T →
  insert_image_tags ignore (ImageTagRow.mk id <$> tag_ids_named name T) T 0
  = Done T2 n →
  wf T2 ∧ images T2 = images T ∧ tags T2 = tags T
  ∧ ∀ id' x, linked T2 id' x
             ↔ linked T id' x ∨ (id' = id ∧ x = name ∧ name ∈ tag_names T).
Proof.
  intros Hwf Hins.
  pose proof (insert_image_tags_wf _ _ _ _ _ _ Hwf Hins) as Hwf2.
  apply insert_image_tags_Done in Hins as (Him & Htg & _ & Hl).
  split_and!; [done..|].
  intros id' x. unfold linked. rewrite Htg. split.
  - intros (t & Ht & Hn & Hrow). apply Hl in Hrow as [Hrow|Hrow].
    { left. by exists t. }
    right. apply list_elem_of_fmap in Hrow as (k & Heq & Hk).
    injection Heq as -> Hidk. subst k. split; [done|].
    apply list_elem_of_fmap in Hk as (t' & Hidt & Ht').
    apply list_elem_of_filter in Ht' as [Hn' Ht'].
    assert (t = t') as <-.
    { eapply (NoDup_fmap_eq TagRow.id); [apply Hwf|done..]. }
    split; [congruence|]. subst name. by apply list_elem_of_fmap_2.
  - intros [(t & Ht & Hn & Hrow)|(-> & -> & Hname)].
    { exists t. split_and!; [done..|]. apply Hl. by left. }
    apply list_elem_of_fmap in Hname as (t & -> & Ht).
    exists t. split_and!; [done..|]. apply Hl. right.
    rewrite tag_ids_named_unique by done. by apply list_elem_of_singleton.
Qed.

Lemma exec_InsertImageTag_fresh T id name :
  wf T → id ∈ image_ids T → ¬ linked T id name →
  ∃ T2 n, exec (InsertImageTag id name) T = Done T2 n.
Proof.
  intros Hwf Hid Hfresh. cbn [exec].
  destruct (insert_image_tags_plain
              (ImageTagRow.mk id <$> tag_ids_named name T) T 0
              (link_rows_fk T id name Hid)) as [Hdone|Hab]; [done|].
  exfalso. destruct (decide (name ∈ tag_names T)) as [Hin|Hout].
  - apply list_elem_of_fmap in Hin as (t & -> & Ht).
    rewrite tag_ids_named_unique in Hab by done. simpl in Hab.
    case_decide as Hrow; [|by case_decide]. apply Hfresh. by exists t.
  - by rewrite tag_ids_named_absent in Hab.
Qed.

Lemma exec_InsertOrIgnoreTag_prefix T name T1 n :
  exec (InsertOrIgnoreTag name) T = Done T1 n → tags T `prefix_of` tags T1.
Proof.
  destruct (exec_InsertOrIgnoreTag T name)
    as (T1' & n' & He & _ & _ & _ & Hsame & Hnew).
  rewrite He. intros [= <- <-].
  destruct (decide (name ∈ tag_names T)) as [Hin|Hout].
  - by rewrite (Hsame Hin).
  - rewrite (Hnew Hout). by apply prefix_app_r.
Qed.

(** The tag statements of [saveImage] for an image that has none of the
    tags yet. *)
Lemma run_save_tags T id (names : list string) :
  wf T → id ∈ image_ids T → NoDup names →
  (∀ x, x ∈ names → ¬ linked T id x) →
  ∃ T', exec_all (save_tag_statements id names) T = inr T'
    ∧ wf T'
    ∧ images T' = images T
    ∧ tags T `prefix_of` tags T'
    ∧ ∀ id' x, linked T' id' x ↔ linked T id' x ∨ (id' = id ∧ x ∈ names).
Proof.
  revert T. induction names as [|name names IH]; intros T Hwf Hid Hnd Hfresh.
  - exists T. split_and!; try done. intros id' x. rewrite elem_of_nil. tauto.
  - apply NoDup_cons in Hnd as [Hname Hnd].
    destruct (exec_InsertOrIgnoreTag_wf T name Hwf)
      as (T1 & n1 & He1 & Hwf1 & Him1 & Hin1 & _ & Hl1).
    assert (id ∈ image_ids T1) as Hid1 by (unfold image_ids; by rewrite Him1).
    destruct (exec_InsertImageTag_fresh T1 id name Hwf1 Hid1)
      as (T2 & n2 & He2).
    { rewrite Hl1. apply Hfresh. left. }
    pose proof He2 as Hins. cbn [exec] in Hins.
    apply insert_link_Done in Hins as (Hwf2 & Him2 & Htg2 & Hl2); [|done].
    destruct (IH T2 Hwf2) as (T' & Hrun & Hwf' & Him' & Hpre & Hl'); [|done|..].
    { unfold image_ids. by rewrite Him2. }
    { intros x Hx. rewrite Hl2, Hl1. intros [Hold|(_ & -> & _)]; [|done].
      apply (Hfresh x); [by right|done]. }
    exists T'. rewrite save_tag_statements_cons.
    rewrite (exec_all_Done _ _ _ _ _ He1), (exec_all_Done _ _ _ _ _ He2).
    split_and!; [done..|congruence| |].
    + etrans; [by eapply exec_InsertOrIgnoreTag_prefix|]. by rewrite <-Htg2.
    + intros id' x. rewrite Hl', Hl2, Hl1, elem_of_cons. tauto.
Qed.

(** A [saveImage] of a new image with a valid orientation and distinct
    tags. *)
Lemma saveImage_statements_run metadata T :
  wf T →
  ImageMetadata.id metadata ∉ image_ids T →
  orientation_ok (ImageMetadata.orientation metadata) →
  NoDup (ImageMetadata.tags metadata) →
  ∃ T', exec_all (saveImage_statements metadata) T = inr T'
    ∧ wf T'
    ∧ images T' = images T ++ [metadataToRow metadata]
    ∧ tags T `prefix_of` tags T'
    ∧ ∀ id' x,
        linked T' id' x
        ↔ linked T id' x
          ∨ (id' = ImageMetadata.id metadata ∧ x ∈ ImageMetadata.tags metadata).
Proof.
  intros Hwf Hid Hok Hnd. unfold saveImage_statements.
  fold (save_tag_statements (ImageMetadata.id metadata)
          (ImageMetadata.tags metadata)).
  set (T1 := set_images (images T ++ [metadataToRow metadata]) T).
  assert (exec (InsertImage (metadataToRow metadata)) T = Done T1 1) as He.
  { cbn [exec]. by rewrite decide_False, decide_True. }
  pose proof (exec_wf _ _ _ _ Hwf He) as Hwf1.
  destruct (run_save_tags T1 (ImageMetadata.id metadata)
              (ImageMetadata.tags metadata) Hwf1)
    as (T' & Hrun & Hwf' & Him & Hpre & Hl); [|done|..].
  { unfold image_ids, T1. simpl. rewrite fmap_app. apply elem_of_app.
    right. by apply list_elem_of_singleton. }
  { intros x _ Hl. apply Hid. by eapply (linked_image_id T). }
  exists T'. rewrite (exec_all_Done _ _ _ _ _ He).
  split_and!; done.
Qed.
End SaveThenGet.

Lemma or_empty_or_null (s : string) : or_empty (or_null (Some s)) = s.
Proof. simpl. by case_decide. Qed.

Lemma or_null_idemp (o : option string) : or_null (or_null o) = or_null o.
Proof.
  destruct o as [v|]; simpl; [|done].
  case_decide; simpl; [done|]. by rewrite decide_False.
Qed.

(** Reading back the row [saveImage] binds gives the record again, with the
    expiry time normalised. *)
Lemma rowToMetadata_metadataToRow (metadata : ImageMetadata.t)
    (tags : list string) :
  rowToMetadata (metadataToRow metadata) tags
  = ImageMetadata.mk
      (ImageMetadata.id metadata) (ImageMetadata.originalName metadata)
      (ImageMetadata.uploadTime metadata)
      (or_null (ImageMetadata.expiryTime metadata))
      (ImageMetadata.orientation metadata) tags
      (ImageMetadata.format metadata) (ImageMetadata.width metadata)
      (ImageMetadata.height metadata) (ImageMetadata.paths metadata)
      (ImageMetadata.sizes metadata).
Proof.
  destruct metadata as [id on ut et o tg f w h [po pw pa] [so sw sa]].
  unfold rowToMetadata, metadataToRow. cbn [ImageRow.id ImageRow.original_name
    ImageRow.upload_time ImageRow.expiry_time ImageRow.orientation
    ImageRow.format ImageRow.width ImageRow.height ImageRow.path_original
    ImageRow.path_webp ImageRow.path_avif ImageRow.size_original
    ImageRow.size_webp ImageRow.size_avif ImageMetadata.id
    ImageMetadata.originalName ImageMetadata.uploadTime
    ImageMetadata.expiryTime ImageMetadata.orientation ImageMetadata.format
    ImageMetadata.width ImageMetadata.height ImageMetadata.paths
    ImageMetadata.sizes Paths.original Paths.webp Paths.avif Sizes.original
    Sizes.webp Sizes.avif].
  by rewrite !or_empty_or_null, or_null_idemp.
Qed.

Lemma saveImage_Fulfilled_inv (metadata : ImageMetadata.t) (db : D1Database) :
  (saveImage metadata db).2 = Fulfilled () →
  (ImageMetadata.id metadata ∉ image_ids (tables db))
  ∧ orientation_ok (ImageMetadata.orientation metadata)
  ∧ NoDup (ImageMetadata.tags metadata).
Proof.
  rewrite !saveImage_batch.
  destruct (saveImage_statements_exec metadata (tables db))
    as (Hpk & Hcheck & Hgo).
  intros Hok.
  destruct (decide (ImageMetadata.id metadata ∈ image_ids (tables db)))
    as [Hin|Hout].
  { by rewrite (Hpk Hin) in Hok. }
  destruct (decide (orientation_ok (ImageMetadata.orientation metadata)))
    as [Hor|Hbad].
  2: { by rewrite (Hcheck Hout Hbad) in Hok. }
  destruct (decide (NoDup (ImageMetadata.tags metadata))) as [Hnd|Hdup];
    [done|].
  destruct (Hgo Hout Hor) as [Hab _]. by rewrite (Hab Hdup) in Hok.
Qed.

(** X1.  On tables that satisfy the schema, [saveImage] is fulfilled exactly
    when the id is not taken, the orientation passes the CHECK of the schema
    and the tag list has no duplicate. *)
Theorem saveImage_fulfilled_iff
    (metadata : ImageMetadata.t) (db : D1Database) :
  wf (tables db) →
  (saveImage metadata db).2 = Fulfilled ()
  ↔ (ImageMetadata.id metadata ∉ image_ids (tables db))
    ∧ orientation_ok (ImageMetadata.orientation metadata)
    ∧ NoDup (ImageMetadata.tags metadata).
Proof.
  intros Hwf. split; [apply saveImage_Fulfilled_inv|].
  intros (Hid & Hor & Hnd). rewrite !saveImage_batch.
  destruct (saveImage_statements_run metadata (tables db) Hwf Hid Hor Hnd)
    as (T' & -> & _). done.
Qed.

Lemma saveImage_fulfilled_iff_witness :
  wf (tables db1) ∧ (saveImage img3 db1).2 = Fulfilled ().
Proof.
  split; [exact wf_db1|].
  apply (saveImage_fulfilled_iff img3 db1 wf_db1).
  split_and!; apply (bool_decide_unpack _); vm_compute; exact I.
Defined.

(** X2.  Round trip: after a fulfilled [saveImage] on tables that satisfy
    the schema, [getImage] of the id returns the saved record, with the
    expiry time normalised (an empty one is none) and the tags in the order
    of the [tags] table: the same tags, each once. *)
Theorem saveImage_then_getImage
    (metadata : ImageMetadata.t) (db : D1Database) :
  wf (tables db) →
  (saveImage metadata db).2 = Fulfilled () →
  ∃ tags',
    getImage (ImageMetadata.id metadata) ((saveImage metadata db).1)
    = Some (ImageMetadata.mk
              (ImageMetadata.id metadata) (ImageMetadata.originalName metadata)
              (ImageMetadata.uploadTime metadata)
              (or_null (ImageMetadata.expiryTime metadata))
              (ImageMetadata.orientation metadata) tags'
              (ImageMetadata.format metadata) (ImageMetadata.width metadata)
              (ImageMetadata.height metadata) (ImageMetadata.paths metadata)
              (ImageMetadata.sizes metadata))
    ∧ tags' ≡ₚ ImageMetadata.tags metadata.
Proof.
  intros Hwf Hok. apply saveImage_Fulfilled_inv in Hok as (Hid & Hor & Hnd).
  rewrite !saveImage_batch.
  destruct (saveImage_statements_run metadata (tables db) Hwf Hid Hor Hnd)
    as (T' & -> & Hwf' & Him & _ & Hl). simpl.
  exists (tag_names_of (ImageMetadata.id metadata) T'). split.
  - unfold getImage. simpl. rewrite Him, filter_app.
    rewrite (filter_none _ (images (tables db))).
    2: { apply Forall_forall. intros r Hr Heq. apply Hid.
         rewrite <-Heq. by apply list_elem_of_fmap_2. }
    rewrite filter_cons_True by done. simpl.
    by rewrite rowToMetadata_metadataToRow.
  - apply NoDup_Permutation; [by apply tag_names_of_NoDup|done|].
    intros x. rewrite elem_of_tag_names_of, Hl. split; [|by right].
    intros [Hold|[_ Hx]]; [|done]. destruct Hid.
    by eapply linked_image_id.
Qed.

Lemma saveImage_then_getImage_witness :
  wf (tables db1)
  ∧ (saveImage img3 db1).2 = Fulfilled ()
  ∧ ∃ tags',
      getImage "img3" ((saveImage img3 db1).1)
      = Some (ImageMetadata.mk "img3" "kitten.png" "2024-05-03T10:00:00.000Z"
                (Some "2030-01-01T00:00:00.000Z") "portrait" tags' "png"
                600 800
                (Paths.mk "original/img3.png" "webp/img3.webp"
                   "avif/img3.avif")
                (Sizes.mk 2048 512 256))
      ∧ tags' ≡ₚ ["cat"].
Proof.
  assert ((saveImage img3 db1).2 = Fulfilled ()) as Hok
    by (vm_compute; reflexivity).
  split; [exact wf_db1|]. split; [exact Hok|].
  exact (saveImage_then_getImage img3 db1 wf_db1 Hok).
Defined.

(** ** What a write leaves alone *)

Section Frames.
Implicit Types (T : Tables) (id name : string) (db : D1Database).

(** [getImage] of an id is the same on two databases that satisfy the
    schema when the rows of that id are the same, the second has the tags of
    the first (and maybe more), and the id is linked to the same names. *)
Lemma getImage_frame db db' id :
  wf (tables db) → wf (tables db') →
  filter (λ r, ImageRow.id r = id) (images (tables db'))
  = filter (λ r, ImageRow.id r = id) (images (tables db)) →
  tags (tables db) `prefix_of` tags (tables db') →
  (∀ x, linked (tables db') id x ↔ linked (tables db) id x) →
  getImage id db' = getImage id db.
Proof.
  intros Hwf Hwf' Hrows [extra Htags] Hl. unfold getImage. rewrite Hrows.
  destruct (head _) as [row|]; [|done]. do 2 f_equal.
  rewrite !tag_names_of_filter by done. rewrite Htags, filter_app, fmap_app.
  rewrite (filter_none _ extra), app_nil_r.
  - f_equal. apply filter_ext_in. intros t Ht.
    rewrite <-!linked_row; [done..|]. rewrite Htags. apply elem_of_app.
    by left.
  - apply Forall_forall. intros t Ht Hrow.
    assert (linked (tables db') id (TagRow.name t)) as Hlinked.
    { exists t. split_and!; [|done..]. rewrite Htags. apply elem_of_app.
      by right. }
    apply Hl, linked_tag_name in Hlinked.
    pose proof (wf_tag_names _ Hwf') as Hnd. unfold tag_names in Hnd.
    rewrite Htags, fmap_app in Hnd. apply NoDup_app in Hnd as (_ & Hdisj & _).
    apply (Hdisj _ Hlinked). by apply list_elem_of_fmap_2.
Qed.

(** X3.  On tables that satisfy the schema, [saveImage] of a record does not
    change what [getImage] returns for any other id, fulfilled or not. *)
Theorem saveImage_other_images
    (metadata : ImageMetadata.t) (db : D1Database) (id : string) :
  wf (tables db) → id ≠ ImageMetadata.id metadata →
  getImage id ((saveImage metadata db).1) = getImage id db.
Proof.
  intros Hwf Hne.
  destruct ((saveImage metadata db).2) as [[]|e] eqn:Hok.
  - apply saveImage_Fulfilled_inv in Hok as (Hid & Hor & Hnd).
    destruct (saveImage_statements_run metadata (tables db) Hwf Hid Hor Hnd)
      as (T' & Hrun & Hwf' & Him & Hpre & Hl).
    rewrite !saveImage_batch. rewrite Hrun.
    apply getImage_frame; simpl; [done..| |done|].
    + rewrite Him, filter_app, filter_cons_False, filter_nil by done.
      by rewrite app_nil_r.
    + intros x. rewrite Hl. split; [|by left]. by intros [?|[? _]].
  - apply getImage_tables. rewrite !saveImage_batch in *.
    by destruct (exec_all _ _) as [e'|T'].
Qed.

Lemma saveImage_other_images_witness :
  wf (tables db1)
  ∧ "img1" ≠ ImageMetadata.id img3
  ∧ getImage "img1" ((saveImage img3 db1).1) = getImage "img1" db1.
Proof.
  assert ("img1" ≠ ImageMetadata.id img3) as Hne by discriminate.
  split; [exact wf_db1|]. split; [exact Hne|].
  exact (saveImage_other_images img3 db1 "img1" wf_db1 Hne).
Defined.
End Frames.

(** ** updateImage: what changes and what does not *)

Section UpdateFields.
Implicit Types (T : Tables) (id name : string) (db : D1Database).

Lemma exec_tag_statement s T T' n :
  tag_statement s → exec s T = Done T' n →
  images T' = images T ∧ tags T `prefix_of` tags T'.
Proof.
  intros Hs He. destruct s; try done.
  - split; [|by eapply exec_InsertOrIgnoreTag_prefix].
    destruct (exec_InsertOrIgnoreTag T name) as (T1 & n1 & He1 & Him & _).
    congruence.
  - cbn [exec] in He. apply insert_image_tags_Done in He as (? & -> & _).
    done.
  - cbn [exec] in He. apply insert_image_tags_Done in He as (? & -> & _).
    done.
  - cbn [exec] in He. by injection He as <- _.
Qed.

Lemma exec_all_tag_statements statements T T' :
  Forall tag_statement statements → exec_all statements T = inr T' →
  images T' = images T ∧ tags T `prefix_of` tags T'.
Proof.
  intros Hall. revert T. induction Hall as [|s rest Hs _ IH]; intros T Hrun.
  - simpl in Hrun. by injection Hrun as <-.
  - cbn [exec_all] in Hrun. destruct (exec s T) as [T1 n|e] eqn:He; [|done].
    apply exec_tag_statement in He as [Him Hpre]; [|done].
    apply IH in Hrun as [Him' Hpre']. split; [congruence|by etrans].
Qed.

Lemma with_expiry_id expiry id r :
  ImageRow.id (with_expiry expiry id r) = ImageRow.id r.
Proof. unfold with_expiry. by case_decide. Qed.

Lemma filter_with_expiry expiry id id' (l : list ImageRow.t) :
  filter (λ r, ImageRow.id r = id') (with_expiry expiry id <$> l)
  = with_expiry expiry id <$> filter (λ r, ImageRow.id r = id') l.
Proof.
  induction l as [|r l IH]; [done|]. rewrite fmap_cons, !filter_cons.
  rewrite with_expiry_id, IH. by case_decide.
Qed.

Lemma updateImage_tag_statements id image (tags : option (list string)) :
  Forall tag_statement
    (updateImage_statements id image (Updates.mk tags None)).
Proof.
  unfold updateImage_statements. simpl. rewrite app_nil_r.
  destruct tags as [tags|]; [|done]. apply Forall_app. split.
  - by apply Forall_fmap, Forall_true.
  - apply Forall_forall. intros s Hs.
    apply list_elem_of_In, in_flat_map in Hs as (tag & _ & Hs).
    apply list_elem_of_In in Hs.
    apply elem_of_cons in Hs as [->|Hs]; [done|].
    by apply list_elem_of_singleton in Hs as ->.
Qed.

(** The rows and the tags after the statements of [updateImage]. *)
Lemma updateImage_statements_rows T T' id image updates :
  exec_all (updateImage_statements id image updates) T = inr T' →
  images T'
  = match Updates.expiryTime updates with
    | Some e => with_expiry (or_null (Some e)) id <$> images T
    | None => images T
    end
  ∧ tags T `prefix_of` tags T'.
Proof.
  pose proof (updateImage_tag_statements id image (Updates.tags updates))
    as Htag.
  unfold updateImage_statements in *. simpl in Htag.
  rewrite app_nil_r in Htag. rewrite exec_all_app.
  destruct (exec_all _ T) as [e|Ta] eqn:Hrun_tags; [done|].
  apply exec_all_tag_statements in Hrun_tags as [Him Hpre]; [|done].
  destruct (Updates.expiryTime updates) as [e|]; simpl.
  - intros [= <-]. simpl. by rewrite Him.
  - by intros [= <-].
Qed.
End UpdateFields.

Lemma head_map {A B} (f : A → B) (l : list A) :
  head (f <$> l) = f <$> head l.
Proof. by destruct l. Qed.

(** X4.  On tables that satisfy the schema, [updateImage] on an existing
    image is fulfilled with a record that differs from the current one only
    in its tags and its expiry time: the tags are those supplied when a tag
    list is supplied, the expiry time is the supplied one when one is
    supplied (an empty string clears it); every other field is as before,
    and [getImage] of any other id returns what it returned before. *)
Theorem updateImage_changes_only_tags_and_expiry
    (id : string) (updates : Updates.t) (db : D1Database)
    (image : ImageMetadata.t) :
  wf (tables db) → getImage id db = Some image →
  ∃ image',
    (updateImage id updates db).2 = Fulfilled (Some image')
    ∧ image'
      = ImageMetadata.mk
          (ImageMetadata.id image) (ImageMetadata.originalName image)
          (ImageMetadata.uploadTime image)
          match Updates.expiryTime updates with
          | Some e => or_null (Some e)
          | None => ImageMetadata.expiryTime image
          end
          (ImageMetadata.orientation image) (ImageMetadata.tags image')
          (ImageMetadata.format image) (ImageMetadata.width image)
          (ImageMetadata.height image) (ImageMetadata.paths image)
          (ImageMetadata.sizes image)
    ∧ (∀ x, x ∈ ImageMetadata.tags image'
            ↔ match Updates.tags updates with
              | Some tags => x ∈ tags
              | None => x ∈ ImageMetadata.tags image
              end)
    ∧ (∀ id', id' ≠ id →
         getImage id' ((updateImage id updates db).1) = getImage id' db).
Proof.
  intros Hwf Hget.
  pose proof (getImage_Some _ _ _ Hget) as (Hid & _ & Hold).
  destruct (updateImage_Some id image updates db Hwf Hget)
    as (T' & log & image' & Hupd & Hrun & _ & Hget').
  destruct (updateImage_statements_run (tables db) id image updates Hwf Hid Hold)
    as (T'' & Hrun' & Hwf' & Hids & Hl).
  rewrite Hrun in Hrun'. injection Hrun' as <-.
  apply updateImage_statements_rows in Hrun as [Him Hpre].
  rewrite Hupd. cbn [fst snd]. exists image'. split; [done|]. split_and!.
  - unfold getImage in Hget, Hget'. cbn [tables] in Hget'.
    destruct (head (filter _ (images (tables db)))) as [r0|] eqn:Hr0;
      [|done].
    injection Hget as <-.
    assert (ImageRow.id r0 = id) as Hid0.
    { apply head_Some_elem_of in Hr0.
      by apply list_elem_of_filter in Hr0 as [? _]. }
    destruct (Updates.expiryTime updates) as [e|].
    + pose proof (or_null_idemp (Some e)) as Hidem.
      set (e' := or_null (Some e)) in *. clearbody e'.
      rewrite Him, filter_with_expiry, head_map, Hr0 in Hget'.
      injection Hget' as <-. unfold with_expiry.
      rewrite decide_True by done. destruct r0. unfold rowToMetadata.
      cbn [ImageRow.set_expiry_time ImageRow.id ImageRow.original_name
        ImageRow.upload_time ImageRow.expiry_time ImageRow.orientation
        ImageRow.format ImageRow.width ImageRow.height ImageRow.path_original
        ImageRow.path_webp ImageRow.path_avif ImageRow.size_original
        ImageRow.size_webp ImageRow.size_avif ImageMetadata.id
        ImageMetadata.originalName ImageMetadata.uploadTime
        ImageMetadata.expiryTime ImageMetadata.orientation ImageMetadata.tags
        ImageMetadata.format ImageMetadata.width ImageMetadata.height
        ImageMetadata.paths ImageMetadata.sizes].
      by rewrite Hidem.
    + rewrite Him, Hr0 in Hget'. by injection Hget' as <-.
  - intros x. apply getImage_Some in Hget' as (_ & _ & ->).
    rewrite elem_of_tag_names_of. simpl. rewrite Hl.
    destruct (Updates.tags updates); [by rewrite decide_True|].
    by rewrite Hold, elem_of_tag_names_of.
  - intros id' Hne. apply getImage_frame; simpl; [done..| |done|].
    + rewrite Him. destruct (Updates.expiryTime updates) as [e|]; [|done].
      rewrite filter_with_expiry. rewrite <-(list_fmap_id (filter _ _)) at 2.
      apply list_fmap_ext. intros i r Hr. unfold with_expiry.
      apply list_elem_of_lookup_2, list_elem_of_filter in Hr as [Hr _].
      rewrite decide_False; [done|congruence].
    + intros x. rewrite Hl.
      destruct (Updates.tags updates); [by rewrite decide_False|done].
Qed.

Lemma updateImage_changes_only_tags_and_expiry_witness :
  wf (tables db3)
  ∧ getImage "img3" db3 = Some img3
  ∧ ∃ image',
      (updateImage "img3" (Updates.mk (Some ["kitten"]) (Some "")) db3).2
      = Fulfilled (Some image')
      ∧ ImageMetadata.expiryTime image' = None
      ∧ ImageMetadata.uploadTime image' = "2024-05-03T10:00:00.000Z"
      ∧ (∀ x, x ∈ ImageMetadata.tags image' ↔ x ∈ ["kitten"])
      ∧ getImage "img1"
          ((updateImage "img3" (Updates.mk (Some ["kitten"]) (Some "")) db3).1)
        = getImage "img1" db3.
Proof.
  assert (getImage "img3" db3 = Some img3) as Hget by (vm_compute; reflexivity).
  split; [exact wf_db3|]. split; [exact Hget|].
  destruct (updateImage_changes_only_tags_and_expiry "img3"
              (Updates.mk (Some ["kitten"]) (Some "")) db3 img3 wf_db3 Hget)
    as (image' & Hres & Himg & Htags & Hframe).
  exists image'. split; [exact Hres|].
  split; [rewrite Himg; reflexivity|].
  split; [rewrite Himg; reflexivity|].
  split; [exact Htags|]. apply Hframe. discriminate.
Defined.

(** ** deleteImage, deleteTag and createTag *)

Section Deletes.
Implicit Types (T : Tables) (id name : string) (db : D1Database).

(** X5.  On tables that satisfy the schema, after [deleteImage id] the image
    is not found and no link of it is left, the tags are all still there,
    every other image has the links it had, and [getImage] of any other id
    returns what it returned before. *)
Theorem deleteImage_cascade (id : string) (db : D1Database) :
  wf (tables db) →
  let db' := (deleteImage id db).1 in
  wf (tables db')
  ∧ getImage id db' = None
  ∧ tags (tables db') = tags (tables db)
  ∧ (∀ id' x, linked (tables db') id' x
              ↔ id' ≠ id ∧ linked (tables db) id' x)
  ∧ (∀ id', id' ≠ id → getImage id' db' = getImage id' db).
Proof.
  intros Hwf db'. pose proof (deleteImage_wf id db Hwf) as Hwf'.
  fold db' in Hwf'. unfold db', deleteImage, run in *. simpl in *.
  set (gone := filter (λ r, ImageRow.id r = id) (images (tables db))) in *.
  assert (∀ id' x,
    linked
      (mkTables (filter (λ r, ImageRow.id r ≠ id) (images (tables db)))
         (tags (tables db)) (tags_seq (tables db))
         (filter (λ l, ImageTagRow.image_id l ∉ (ImageRow.id <$> gone))
            (image_tags (tables db)))) id' x
    ↔ id' ≠ id ∧ linked (tables db) id' x) as Hl.
  { intros id' x. unfold linked. simpl. split.
    - intros (t & Ht & Hn & Hrow).
      apply list_elem_of_filter in Hrow as [Hkeep Hrow]. simpl in Hkeep.
      split; [|by exists t]. intros ->. apply Hkeep.
      pose proof (wf_link_image _ Hwf) as Hfk.
      rewrite Forall_forall in Hfk. apply Hfk in Hrow. simpl in Hrow.
      apply list_elem_of_fmap in Hrow as (r & -> & Hr).
      apply list_elem_of_fmap_2. by apply list_elem_of_filter.
    - intros (Hne & t & Ht & Hn & Hrow). exists t. split_and!; [done..|].
      apply list_elem_of_filter. split; [|done]. simpl.
      intros (r & -> & [Hr _]%list_elem_of_filter)%list_elem_of_fmap. done. }
  split_and!; [done| |done|done|].
  - apply getImage_None. simpl. unfold image_ids. simpl.
    intros (r & -> & [Hr _]%list_elem_of_filter)%list_elem_of_fmap. done.
  - intros id' Hne. apply getImage_frame; simpl; [done..| |done|].
    + rewrite list_filter_filter. apply list_filter_iff.
      intros r. split; [tauto|]. intros Hr. split; [done|congruence].
    + intros x. rewrite Hl. tauto.
Qed.

Lemma deleteImage_cascade_witness :
  wf (tables db3)
  ∧ getImage "img1" ((deleteImage "img1" db3).1) = None
  ∧ tags (tables ((deleteImage "img1" db3).1)) = tags (tables db3)
  ∧ linked (tables ((deleteImage "img1" db3).1)) "img3" "cat"
  ∧ ¬ linked (tables ((deleteImage "img1" db3).1)) "img1" "cat".
Proof.
  split; [exact wf_db3|].
  destruct (deleteImage_cascade "img1" db3 wf_db3)
    as (_ & Hgone & Htags & Hl & _).
  split; [exact Hgone|]. split; [exact Htags|]. split.
  - apply Hl. split; [discriminate|]. apply elem_of_tag_names_of.
    apply (bool_decide_unpack _). vm_compute. exact I.
  - intros Hlinked. apply Hl in Hlinked as [Hne _]. by apply Hne.
Defined.

(** X6.  On tables that satisfy the schema, [deleteTag name] is fulfilled
    with the number of images linked to the tag; afterwards there is no tag
    of that name and no image is linked to it, the images and all links to
    other tags are as before; when there was no such tag, the tables are
    unchanged (and the count is 0). *)
Theorem deleteTag_cascade (name : string) (db : D1Database) :
  wf (tables db) →
  let T := tables db in
  let db' := (deleteTag name db).1 in
  (deleteTag name db).2
  = Fulfilled
      (Z.of_nat (length (filter (λ i, name ∈ tag_names_of (ImageRow.id i) T)
                           (images T))))
  ∧ wf (tables db')
  ∧ images (tables db') = images T
  ∧ (name ∉ tag_names (tables db'))
  ∧ (∀ id x, linked (tables db') id x ↔ x ≠ name ∧ linked T id x)
  ∧ (name ∉ tag_names T → tables db' = T).
Proof.
  intros Hwf. cbv zeta. pose proof (deleteTag_wf name db Hwf) as Hwf'.
  unfold deleteTag, run in *. simpl in *.
  set (T := tables db) in *.
  set (gone := filter (λ t, TagRow.name t = name) (tags T)) in *.
  split_and!; [|done|done|..].
  - f_equal. by apply count_links_named_images.
  - unfold tag_names. simpl.
    intros (t & -> & [Ht _]%list_elem_of_filter)%list_elem_of_fmap. done.
  - intros id x. unfold linked. simpl. split.
    + intros (t & [Hne Ht]%list_elem_of_filter & Hn & Hrow).
      apply list_elem_of_filter in Hrow as [_ Hrow].
      split; [congruence|]. by exists t.
    + intros (Hne & t & Ht & Hn & Hrow). exists t. split_and!; [|done|].
      * apply list_elem_of_filter. split; [congruence|done].
      * apply list_elem_of_filter. split; [|done]. simpl.
        intros (g & Hid & [Hg Hgt]%list_elem_of_filter)%list_elem_of_fmap.
        assert (t = g) as ->; [|congruence].
        eapply (NoDup_fmap_eq TagRow.id); [apply Hwf|done..].
  - intros Hout.
    assert (gone = []) as Hnil.
    { apply filter_none, Forall_forall. intros t Ht Hn. apply Hout.
      rewrite <-Hn. by apply list_elem_of_fmap_2. }
    rewrite Hnil. destruct T as [im tg sq lk]. simpl in *. f_equal.
    + apply filter_all, Forall_forall. intros t Ht Hn.
      apply Hout. rewrite <-Hn. by apply list_elem_of_fmap_2.
    + apply filter_all, Forall_forall. intros l _. apply not_elem_of_nil.
Qed.

Lemma deleteTag_cascade_witness :
  wf (tables db3)
  ∧ (deleteTag "cat" db3).2 = Fulfilled 2
  ∧ ("cat" ∉ tag_names (tables ((deleteTag "cat" db3).1)))
  ∧ images (tables ((deleteTag "cat" db3).1)) = images (tables db3)
  ∧ linked (tables ((deleteTag "cat" db3).1)) "img1" "orange".
Proof.
  split; [exact wf_db3|].
  destruct (deleteTag_cascade "cat" db3 wf_db3)
    as (Hres & _ & Him & Hout & Hl & _).
  split; [exact Hres|]. split; [exact Hout|]. split; [exact Him|].
  apply Hl. split; [discriminate|]. apply elem_of_tag_names_of.
  apply (bool_decide_unpack _). vm_compute. exact I.
Defined.
End Deletes.

(** ** getAllTags *)

Section AllTags.
Implicit Types (T : Tables) (db : D1Database).

#[local] Instance name_first_total : Total name_first.
Proof. intros a b. unfold name_first. apply String.leb_total. Qed.

Lemma filter_bind {A B} (P : B → Prop) `{∀ x, Decision (P x)}
    (f : A → list B) (l : list A) :
  filter P (l ≫= f) = l ≫= λ x, filter P (f x).
Proof.
  induction l as [|a l IH]; [done|]. csimpl. by rewrite filter_app, IH.
Qed.

Lemma bind_single {A B} (g : A → list B) (a : A) (l : list A) :
  NoDup l → a ∈ l → (∀ x, x ∈ l → x ≠ a → g x = []) → l ≫= g = g a.
Proof.
  induction 1 as [|x l Hx Hnd IH]; intros Ha Hnil.
  - by apply elem_of_nil in Ha.
  - csimpl. apply elem_of_cons in Ha as [->|Ha].
    + rewrite bind_nil_all, app_nil_r; [done|].
      intros y Hy. apply Hnil; [by right|]. by intros ->.
    + rewrite (Hnil x), IH; [done..| |left|].
      * intros y Hy. apply Hnil. by right.
      * by intros ->.
Qed.

Lemma getAllTags_Sorted db : Sorted name_first (getAllTags db).
Proof. apply Sorted_merge_sort, _. Qed.

(** The rows the LEFT JOIN gives for one tag. *)
Lemma elem_of_tags_left_join T row :
  row ∈ tags_left_join T → row.1 ∈ tags T.
Proof.
  unfold tags_left_join. intros (t & Hrow & Ht)%list_elem_of_bind.
  case_decide.
  - by apply list_elem_of_singleton in Hrow as ->.
  - by apply list_elem_of_fmap in Hrow as (it & -> & _).
Qed.

Lemma tags_left_join_tag T t :
  t ∈ tags T → ∃ o, (t, o) ∈ tags_left_join T.
Proof.
  intros Ht. unfold tags_left_join.
  destruct (filter (λ it, TagRow.id t = ImageTagRow.tag_id it) (image_tags T))
    as [|it l] eqn:Hm.
  - exists None. apply list_elem_of_bind. exists t. split; [|done].
    rewrite Hm. rewrite decide_True by done. left.
  - exists (Some it). apply list_elem_of_bind. exists t. split; [|done].
    rewrite Hm. rewrite decide_False by done. left.
Qed.

(** On tables that satisfy the schema, the group of a tag counts its
    links. *)
Lemma tags_left_join_count T t :
  wf T → t ∈ tags T →
  length (omap (λ row : TagRow.t * option ImageTagRow.t,
                  ImageTagRow.image_id <$> row.2)
            (filter (λ row, (TagRow.id row.1, TagRow.name row.1)
                            = (TagRow.id t, TagRow.name t))
               (tags_left_join T)))
  = length (filter (λ it, TagRow.id t = ImageTagRow.tag_id it) (image_tags T)).
Proof.
  intros Hwf Ht. unfold tags_left_join. rewrite filter_bind.
  assert (NoDup (tags T)) as Hnd by (eapply NoDup_fmap_1, (wf_tag_ids T Hwf)).
  rewrite (bind_single _ t); [|done..|].
  - destruct (filter _ (image_tags T)) as [|it l] eqn:Hm.
    + rewrite decide_True by done. by rewrite filter_cons_True.
    + rewrite decide_False by done.
      rewrite filter_all by (by apply Forall_fmap, Forall_true).
      generalize (it :: l). intros l'.
      induction l' as [|a l' IH]; [done|]. simpl. f_equal. exact IH.
  - intros t' Ht' Hne. apply filter_none, Forall_forall.
    intros row Hrow Hkey. apply Hne.
    assert (row.1 = t') as Hfst.
    { case_decide.
      - by apply list_elem_of_singleton in Hrow as ->.
      - by apply list_elem_of_fmap in Hrow as (it & -> & _). }
    rewrite <-Hfst. destruct (row.1), t. simpl in Hkey. congruence.
Qed.

(** The images linked to a tag are as many as its link rows. *)
Lemma links_of_tag_images T t :
  wf T → t ∈ tags T →
  length (filter (λ it, TagRow.id t = ImageTagRow.tag_id it) (image_tags T))
  = length (filter (λ i, TagRow.name t ∈ tag_names_of (ImageRow.id i) T)
              (images T)).
Proof.
  intros Hwf Ht.
  rewrite <-(length_fmap ImageTagRow.image_id),
          <-(length_fmap ImageRow.id (filter _ (images T))).
  apply Permutation_length, NoDup_Permutation.
  - apply NoDup_fmap_2_strong; [|apply NoDup_filter, Hwf].
    intros [i1 k1] [i2 k2] [Hk1 _]%list_elem_of_filter
      [Hk2 _]%list_elem_of_filter Heq. simpl in *. congruence.
  - apply NoDup_fmap_filter, Hwf.
  - intros id. rewrite !list_elem_of_fmap. split.
    + intros ([i k] & -> & [Hk Hrow]%list_elem_of_filter). simpl in *.
      subst k. pose proof (wf_link_image T Hwf) as Hfk.
      rewrite Forall_forall in Hfk. apply Hfk in Hrow as Himg.
      simpl in Himg. apply list_elem_of_fmap in Himg as (r & -> & Hr).
      exists r. split; [done|]. apply list_elem_of_filter. split; [|done].
      apply elem_of_tag_names_of. by apply linked_row.
    + intros (r & -> & [Hl Hr]%list_elem_of_filter).
      apply elem_of_tag_names_of, linked_row in Hl; [|done..].
      eexists. split; [|apply list_elem_of_filter; split; [|exact Hl]]; done.
Qed.
End AllTags.

Lemma getAllTags_Permutation (db : D1Database) :
  wf (tables db) →
  getAllTags db
  ≡ₚ (λ t,
        Tag.mk (TagRow.name t)
          (Z.of_nat
             (length (filter
                        (λ i, TagRow.name t
                              ∈ tag_names_of (ImageRow.id i) (tables db))
                        (images (tables db))))))
     <$> tags (tables db).
Proof.
  intros Hwf. set (T := tables db) in *.
  unfold getAllTags. rewrite merge_sort_Permutation. fold T.
  assert (nub ((λ row : TagRow.t * option ImageTagRow.t,
                  (TagRow.id row.1, TagRow.name row.1))
               <$> tags_left_join T)
          ≡ₚ (λ t, (TagRow.id t, TagRow.name t)) <$> tags T) as Hkeys.
  { apply NoDup_Permutation; [apply NoDup_nub| |].
    - apply NoDup_fmap_2_strong; [|eapply NoDup_fmap_1, (wf_tag_ids T Hwf)].
      intros [i1 n1] [i2 n2] _ _ Heq. simpl in Heq. congruence.
    - intros k. rewrite elem_of_nub, !list_elem_of_fmap. split.
      + intros (row & -> & Hrow). exists (row.1). split; [done|].
        by apply elem_of_tags_left_join.
      + intros (t & -> & Ht). destruct (tags_left_join_tag T t Ht) as [o Ho].
        by exists (t, o). }
  rewrite Hkeys. rewrite <-list_fmap_compose.
  match goal with |- ?l ≡ₚ ?r => assert (l = r) as ->; [|done] end.
  apply list_fmap_ext. intros i t Hi. simpl.
  apply list_elem_of_lookup_2 in Hi. f_equal. f_equal.
  rewrite tags_left_join_count by done. by apply links_of_tag_images.
Qed.

(** X7.  On tables that satisfy the schema, [getAllTags] lists every tag
    exactly once, each with the number of images linked to it (0 for a tag
    without image), in ascending order of the names. *)
Theorem getAllTags_counts (db : D1Database) :
  wf (tables db) →
  let T := tables db in
  getAllTags db
  ≡ₚ (λ t,
        Tag.mk (TagRow.name t)
          (Z.of_nat
             (length (filter
                        (λ i, TagRow.name t ∈ tag_names_of (ImageRow.id i) T)
                        (images T)))))
     <$> tags T
  ∧ Sorted name_first (getAllTags db)
  ∧ NoDup (Tag.name <$> getAllTags db).
Proof.
  intros Hwf. cbv zeta.
  pose proof (getAllTags_Permutation db Hwf) as Hperm.
  split_and!; [done|apply getAllTags_Sorted|].
  rewrite Hperm, <-list_fmap_compose. apply (wf_tag_names _ Hwf).
Qed.

Lemma getAllTags_counts_witness :
  wf (tables db3)
  ∧ Sorted name_first (getAllTags db3)
  ∧ NoDup (Tag.name <$> getAllTags db3)
  ∧ getAllTags db3 = [Tag.mk "cat" 2; Tag.mk "orange" 1].
Proof.
  split; [exact wf_db3|].
  destruct (getAllTags_counts db3 wf_db3) as (_ & Hsorted & Hnd).
  split; [exact Hsorted|]. split; [exact Hnd|]. vm_compute. reflexivity.
Defined.

(** [createTag] is one [run] of the INSERT OR IGNORE statement, which is
    never rejected. *)
Lemma createTag_run name db :
  ∃ T1 n, exec (InsertOrIgnoreTag name) (tables db) = Done T1 n
    ∧ createTag name db
      = (mkD1 T1 (calls db ++ [CallRun (InsertOrIgnoreTag name)]), Fulfilled ()).
Proof.
  destruct (exec_InsertOrIgnoreTag (tables db) name) as (T1 & n & He & _).
  exists T1, n. split; [done|]. unfold createTag, run. by rewrite He.
Qed.

(** X8.  [createTag] is never rejected and is idempotent: afterwards the tag
    exists, the images, the links and the rows of the tags that existed are
    untouched, an existing name leaves the tag rows as they are, and so does
    a second call.  On tables that satisfy the schema a new tag is listed by
    [getAllTags] with count 0. *)
Theorem createTag_idempotent (name : string) (db : D1Database) :
  let db1 := (createTag name db).1 in
  (createTag name db).2 = Fulfilled ()
  ∧ name ∈ tag_names (tables db1)
  ∧ images (tables db1) = images (tables db)
  ∧ image_tags (tables db1) = image_tags (tables db)
  ∧ tags (tables db) `prefix_of` tags (tables db1)
  ∧ (name ∈ tag_names (tables db) → tags (tables db1) = tags (tables db))
  ∧ (createTag name db1).2 = Fulfilled ()
  ∧ tags (tables ((createTag name db1).1)) = tags (tables db1)
  ∧ (wf (tables db) → name ∉ tag_names (tables db) →
     Tag.mk name 0 ∈ getAllTags db1).
Proof.
  cbv zeta. pose proof (createTag_wf name db) as Hwf1.
  destruct (createTag_run name db) as (T1 & n & He & Hrun).
  rewrite Hrun in *. cbn [fst snd tables] in *.
  set (db1 := mkD1 T1 _) in *.
  destruct (exec_InsertOrIgnoreTag (tables db) name)
    as (T1' & n' & He' & Him & Hlk & Hin & Hsame & Hnew).
  rewrite He in He'. injection He' as <- <-.
  pose proof (exec_InsertOrIgnoreTag_prefix _ _ _ _ He) as Hpre.
  destruct (createTag_run name db1) as (T2 & n2 & He2 & Hrun2).
  rewrite Hrun2. cbn [fst snd tables].
  destruct (exec_InsertOrIgnoreTag (tables db1) name)
    as (T2' & n2' & He2' & _ & _ & _ & Hsame2 & _).
  rewrite He2 in He2'. injection He2' as <- <-.
  split_and!; [done..| |done| |].
  { intros Hold. by rewrite (Hsame Hold). }
  { by rewrite (Hsame2 Hin). }
  intros Hwf Hout. specialize (Hwf1 Hwf).
  rewrite (getAllTags_Permutation db1) by done.
  apply list_elem_of_fmap.
  exists (TagRow.mk (next_tag_id (tables db)) name). split.
  - cbn [TagRow.name]. f_equal. symmetry.
    rewrite (filter_none _ (images (tables db1))); [done|].
    apply Forall_forall. intros i _ Hl.
    apply elem_of_tag_names_of in Hl as (t & Ht & Hn & Hrow).
    cbn [tables db1] in *.
    rewrite Hlk in Hrow. pose proof (wf_link_tag _ Hwf) as Hfk.
    rewrite Forall_forall in Hfk. apply Hfk in Hrow. cbn in Hrow.
    rewrite (Hnew Hout) in Ht. apply elem_of_app in Ht as [Ht|Ht].
    + apply Hout. rewrite <-Hn. by apply list_elem_of_fmap_2.
    + apply list_elem_of_singleton in Ht as ->. cbn in Hrow.
      by apply next_tag_id_fresh in Hrow.
  - cbn [tables db1]. rewrite (Hnew Hout). apply elem_of_app. right. left.
Qed.

(** ** Records built by enrichWithTags, and the expiry sweep *)

Section Enriched.
Implicit Types (T : Tables) (id name : string) (db : D1Database).

(** On tables that satisfy the schema, [getImage] of the id of a stored row
    returns that row. *)
Lemma getImage_row db row :
  wf (tables db) → row ∈ images (tables db) →
  getImage (ImageRow.id row) db
  = Some (rowToMetadata row (tag_names_of (ImageRow.id row) (tables db))).
Proof.
  intros Hwf Hrow. unfold getImage.
  by rewrite (filter_fmap_unique ImageRow.id) by (apply Hwf || done).
Qed.

Lemma elem_of_if_singleton {A} (P : Prop) `{Decision P} (x y : A) :
  y ∈ (if decide P then [x] else []) ↔ P ∧ y = x.
Proof.
  case_decide.
  - rewrite list_elem_of_singleton. tauto.
  - rewrite elem_of_nil. tauto.
Qed.

(** The rows of the tags query of [enrichWithTags] are distinct. *)
Lemma enrichWithTags_query_NoDup T (imageIds : list string) :
  wf T →
  NoDup (it ← image_tags T;
         t ← tags T;
         if decide (ImageTagRow.tag_id it = TagRow.id t
                    ∧ ImageTagRow.image_id it ∈ imageIds)
         then [(ImageTagRow.image_id it, TagRow.name t)] else []).
Proof.
  intros Hwf. apply NoDup_bind; [| |apply Hwf].
  - intros it1 it2 [i n] _ _ H1 H2.
    apply list_elem_of_bind in H1 as (t1 & H1 & Ht1).
    apply list_elem_of_bind in H2 as (t2 & H2 & Ht2).
    apply elem_of_if_singleton in H1 as [Hc1 H1].
    apply elem_of_if_singleton in H2 as [Hc2 H2].
    injection H1 as Hi1 Hn1. injection H2 as Hi2 Hn2.
    assert (t1 = t2) as ->.
    { eapply (NoDup_fmap_eq TagRow.name); [apply Hwf|done..|congruence]. }
    destruct Hc1 as [Hk1 _], Hc2 as [Hk2 _]. destruct it1, it2.
    simpl in *. congruence.
  - intros it _. apply NoDup_bind.
    + intros t1 t2 [i n] Ht1 Ht2 H1 H2.
      apply elem_of_if_singleton in H1 as [Hc1 H1].
      apply elem_of_if_singleton in H2 as [Hc2 H2].
      eapply (NoDup_fmap_eq TagRow.id); [apply Hwf|done..|].
      destruct Hc1 as [<- _], Hc2 as [<- _]. done.
    + intros t _. case_decide; [apply NoDup_singleton|apply NoDup_nil_2].
    + eapply NoDup_fmap_1, (wf_tag_ids _ Hwf).
Qed.

(** On tables that satisfy the schema, a record built by [enrichWithTags]
    from stored rows is the record [getImage] returns for its id, up to the
    order of the tags. *)
Lemma enrichWithTags_getImage rows db m :
  wf (tables db) → (∀ r, r ∈ rows → r ∈ images (tables db)) →
  m ∈ enrichWithTags rows db →
  ∃ row tags',
    row ∈ rows
    ∧ m = rowToMetadata row (ImageMetadata.tags m)
    ∧ getImage (ImageMetadata.id m) db = Some (rowToMetadata row tags')
    ∧ ImageMetadata.tags m ≡ₚ tags'.
Proof.
  intros Hwf Hsub Hm.
  pose proof (elem_of_enrichWithTags _ _ _ Hm) as (row & Hrow & Heq & Hl).
  exists row, (tag_names_of (ImageRow.id row) (tables db)).
  split; [done|]. split; [done|]. split.
  { rewrite Heq. cbn [rowToMetadata ImageMetadata.id].
    apply getImage_row; [done|by apply Hsub]. }
  apply NoDup_Permutation; [|by apply tag_names_of_NoDup|].
  - revert Hm. unfold enrichWithTags. case_decide; [by intros ?%elem_of_nil|].
    intros (row' & -> & _)%list_elem_of_fmap. cbn [rowToMetadata ImageMetadata.tags].
    rewrite tagMap_lookup, lookup_empty. cbn [default app].
    apply NoDup_fmap_2_strong.
    + intros [i1 n1] [i2 n2] [H1 _]%list_elem_of_filter
        [H2 _]%list_elem_of_filter Hn. simpl in *. congruence.
    + apply NoDup_filter. by apply enrichWithTags_query_NoDup.
  - intros x. by rewrite Hl, elem_of_tag_names_of.
Qed.

Lemma ltb_leb_trans (a b c : string) :
  String.ltb a b = true → String.leb b c = true → String.ltb a c = true.
Proof.
  intros Hab Hbc.
  assert (String.leb a b = true ∧ a ≠ b) as [Hle Hne].
  { unfold String.ltb, String.leb in *.
    destruct (a ?= b)%string eqn:Hc; try done. split; [done|].
    intros ->. pose proof (String.compare_antisym b b) as Hanti.
    rewrite Hc in Hanti. done. }
  assert (String.leb a c = true) as Hac.
  { apply Is_true_true. change (String.le a c).
    etrans; apply Is_true_true; done. }
  unfold String.ltb, String.leb in *.
  destruct (a ?= c)%string eqn:Hc; try done.
  apply String.compare_eq_iff in Hc as ->. destruct Hne.
  by apply String.leb_antisym.
Qed.

Lemma elem_of_getExpiredImages_ids now db id :
  id ∈ ImageMetadata.id <$> getExpiredImages now db
  ↔ ∃ row, row ∈ images (tables db) ∧ ImageRow.id row = id
           ∧ expired_before now row.
Proof.
  unfold getExpiredImages. rewrite enrichWithTags_ids, list_elem_of_fmap.
  split.
  - intros (row & -> & [? ?]%list_elem_of_filter). by exists row.
  - intros (row & Hrow & <- & Hex). exists row. split; [done|].
    by apply list_elem_of_filter.
Qed.

(** X9.  On tables that satisfy the schema, [getExpiredImages] returns,
    each once, the images whose stored expiry time is not null and is
    before [now] as text; each record is the one
    [getImage] returns for its id, up to the order of the tags.  An image
    without expiry time is never returned, and an image returned at [now] is
    returned at every later [now']. *)
Theorem getExpiredImages_expired (now : string) (db : D1Database) :
  wf (tables db) →
  let T := tables db in
  (∀ m, m ∈ getExpiredImages now db →
     ∃ row e tags',
       row ∈ images T
       ∧ ImageRow.expiry_time row = Some e ∧ String.ltb e now = true
       ∧ m = rowToMetadata row (ImageMetadata.tags m)
       ∧ getImage (ImageMetadata.id m) db = Some (rowToMetadata row tags')
       ∧ ImageMetadata.tags m ≡ₚ tags')
  ∧ (∀ row e, row ∈ images T → ImageRow.expiry_time row = Some e →
       String.ltb e now = true →
       ImageRow.id row ∈ ImageMetadata.id <$> getExpiredImages now db)
  ∧ (∀ row, row ∈ images T → ImageRow.expiry_time row = None →
       ImageRow.id row ∉ ImageMetadata.id <$> getExpiredImages now db)
  ∧ NoDup (ImageMetadata.id <$> getExpiredImages now db)
  ∧ (∀ now' id, String.leb now now' = true →
       id ∈ ImageMetadata.id <$> getExpiredImages now db →
       id ∈ ImageMetadata.id <$> getExpiredImages now' db).
Proof.
  intros Hwf T. split_and!.
  - intros m Hm. unfold getExpiredImages in Hm.
    apply enrichWithTags_getImage in Hm
      as (row & tags' & Hrow & Heq & Hget & Hperm); [|done|].
    2: { by intros r [_ ?]%list_elem_of_filter. }
    apply list_elem_of_filter in Hrow as [Hex Hrow].
    unfold expired_before in Hex.
    destruct (ImageRow.expiry_time row) as [e|] eqn:He; [|done].
    by exists row, e, tags'.
  - intros row e Hrow He Hlt. apply elem_of_getExpiredImages_ids.
    exists row. split_and!; [done..|]. unfold expired_before. by rewrite He.
  - intros row Hrow He (row' & Hrow' & Hid & Hex)%elem_of_getExpiredImages_ids.
    assert (row' = row) as ->.
    { eapply (NoDup_fmap_eq ImageRow.id); [apply Hwf|done..]. }
    unfold expired_before in Hex. by rewrite He in Hex.
  - unfold getExpiredImages. rewrite enrichWithTags_ids.
    apply NoDup_fmap_filter, Hwf.
  - intros now' id Hle (row & Hrow & Hid & Hex)%elem_of_getExpiredImages_ids.
    apply elem_of_getExpiredImages_ids. exists row. split_and!; [done..|].
    unfold expired_before in *.
    destruct (ImageRow.expiry_time row) as [e|]; [|done].
    by eapply ltb_leb_trans.
Qed.

Lemma getExpiredImages_expired_witness :
  wf (tables db3)
  ∧ "img3" ∈ ImageMetadata.id
             <$> getExpiredImages "2031-01-01T00:00:00.000Z" db3
  ∧ ("img1" ∉ ImageMetadata.id
              <$> getExpiredImages "2031-01-01T00:00:00.000Z" db3)
  ∧ NoDup (ImageMetadata.id
             <$> getExpiredImages "2031-01-01T00:00:00.000Z" db3).
Proof.
  split; [exact wf_db3|].
  destruct (getExpiredImages_expired "2031-01-01T00:00:00.000Z" db3 wf_db3)
    as (_ & Hin & Hout & Hnd & _).
  split; [|split; [|exact Hnd]].
  - apply (Hin (metadataToRow img3) "2030-01-01T00:00:00.000Z");
      [|reflexivity|reflexivity].
    apply (bool_decide_unpack _). vm_compute. exact I.
  - apply (Hout (metadataToRow img1)); [|reflexivity].
    apply (bool_decide_unpack _). vm_compute. exact I.
Defined.

(** X10.  After a fulfilled [saveImage] on tables that satisfy the schema,
    the saved image is among the expired ones at [now] exactly when the
    record has a non-empty expiry time that is before [now] as text; a record
    saved without expiry time never expires.  For the other images nothing
    changes. *)
Theorem saveImage_then_getExpiredImages
    (metadata : ImageMetadata.t) (db : D1Database) (now : string) :
  wf (tables db) → (saveImage metadata db).2 = Fulfilled () →
  let expired db := ImageMetadata.id <$> getExpiredImages now db in
  (ImageMetadata.id metadata ∈ expired ((saveImage metadata db).1)
   ↔ ∃ e, ImageMetadata.expiryTime metadata = Some e ∧ e ≠ ""
          ∧ String.ltb e now = true)
  ∧ (∀ id, id ≠ ImageMetadata.id metadata →
       id ∈ expired ((saveImage metadata db).1) ↔ id ∈ expired db).
Proof.
  intros Hwf Hok. cbv zeta.
  apply saveImage_Fulfilled_inv in Hok as (Hid & Hor & Hnd).
  rewrite !saveImage_batch.
  destruct (saveImage_statements_run metadata (tables db) Hwf Hid Hor Hnd)
    as (T' & -> & _ & Him & _). cbn [fst].
  assert (∀ id, id ∈ ImageMetadata.id
                  <$> getExpiredImages now
                        (mkD1 T' (calls db
                           ++ [CallBatch (saveImage_statements metadata)]))
          ↔ id ∈ ImageMetadata.id <$> getExpiredImages now db
            ∨ (id = ImageMetadata.id metadata
               ∧ expired_before now (metadataToRow metadata))) as Hchar.
  { intros id. rewrite !elem_of_getExpiredImages_ids. cbn [tables].
    rewrite Him. split.
    - intros (row & [Hrow|Hrow]%elem_of_app & Heq & Hex).
      + left. by exists row.
      + apply list_elem_of_singleton in Hrow as ->. right. by split.
    - intros [(row & Hrow & Heq & Hex)|[-> Hex]].
      + exists row. split_and!; [|done..]. apply elem_of_app. by left.
      + exists (metadataToRow metadata). split_and!; [|done..].
        apply elem_of_app. right. by apply list_elem_of_singleton. }
  split.
  - rewrite Hchar. unfold expired_before.
    cbn [metadataToRow ImageRow.expiry_time]. split.
    + intros [(row & Hrow & Heq & _)%elem_of_getExpiredImages_ids|[_ Hex]].
      { destruct Hid. rewrite <-Heq. by apply list_elem_of_fmap_2. }
      destruct (ImageMetadata.expiryTime metadata) as [e|]; [|done].
      unfold or_null in Hex. case_decide; [done|]. by exists e.
    + intros (e & -> & Hne & Hlt). right. split; [done|].
      unfold or_null. by rewrite decide_False.
  - intros id Hne. rewrite Hchar. tauto.
Qed.
Lemma saveImage_then_getExpiredImages_witness :
  wf (tables db1)
  ∧ (saveImage img3 db1).2 = Fulfilled ()
  ∧ "img3" ∈ ImageMetadata.id
             <$> getExpiredImages "2031-01-01T00:00:00.000Z"
                   ((saveImage img3 db1).1)
  ∧ ("img3" ∉ ImageMetadata.id
              <$> getExpiredImages "2029-01-01T00:00:00.000Z"
                    ((saveImage img3 db1).1)).
Proof.
  assert ((saveImage img3 db1).2 = Fulfilled ()) as Hok
    by (vm_compute; reflexivity).
  split; [exact wf_db1|]. split; [exact Hok|]. split.
  - destruct (saveImage_then_getExpiredImages img3 db1
                "2031-01-01T00:00:00.000Z" wf_db1 Hok) as [Hiff _].
    apply Hiff. exists "2030-01-01T00:00:00.000Z". split; [reflexivity|].
    split; [discriminate|reflexivity].
  - intros Hin.
    destruct (saveImage_then_getExpiredImages img3 db1
                "2029-01-01T00:00:00.000Z" wf_db1 Hok) as [Hiff _].
    apply Hiff in Hin as (e & He & _ & Hlt).
    injection He as <-. discriminate Hlt.
Defined.
End Enriched.

(** ** getImageIds and the records of a page *)

Section Listings.
Implicit Types (T : Tables) (id name : string) (db : D1Database).

Lemma filter_plain_rows (P : Joined → Prop) `{∀ x, Decision (P x)}
    (l : list ImageRow.t) :
  (filter P ((λ i, (i, None)) <$> l)).*1 = filter (λ i, P (i, None)) l.
Proof.
  induction l as [|i l IH]; [done|]. rewrite fmap_cons, !filter_cons.
  case_decide; [rewrite fmap_cons; f_equal|]; exact IH.
Qed.

(** On tables that satisfy the schema, [getImageIds] lists the ids of the
    query of [getImages] without tag filter, LIMIT and OFFSET. *)
Lemma getImageIds_eq_listing (orientation : option string) db :
  wf (tables db) →
  getImageIds orientation db = ImageRow.id <$> listing None orientation db.
Proof.
  intros Hwf. unfold getImageIds, listing, getImages_conditions.
  cbn [truthy app]. do 2 f_equal. symmetry. apply nub_NoDup.
  unfold where_, from_images. rewrite filter_plain_rows.
  by apply NoDup_filter, NoDup_images.
Qed.

(** X11.  On tables that satisfy the schema, [getImageIds] returns each id
    once, newest upload first: an id is listed exactly when its image has
    the given orientation, or when no orientation (or an empty one) is
    given, and then the list holds the id of every image. *)
Theorem getImageIds_newest_first
    (orientation : option string) (db : D1Database) :
  wf (tables db) →
  let T := tables db in
  (∀ id, id ∈ getImageIds orientation db
         ↔ ∃ r, r ∈ images T ∧ ImageRow.id r = id
                ∧ (truthy orientation →
                   ImageRow.orientation r = or_empty orientation))
  ∧ NoDup (getImageIds orientation db)
  ∧ (∃ rows, getImageIds orientation db = ImageRow.id <$> rows
             ∧ Sorted newer_first rows
             ∧ (∀ r, r ∈ rows → r ∈ images T))
  ∧ (¬ truthy orientation → getImageIds orientation db ≡ₚ image_ids T).
Proof.
  intros Hwf T. rewrite (getImageIds_eq_listing orientation db Hwf).
  pose proof (listing_Permutation None orientation db Hwf) as Hperm.
  fold T in Hperm.
  assert (∀ r, matches None orientation T r
               ↔ (truthy orientation →
                  ImageRow.orientation r = or_empty orientation)) as Hmatch.
  { intros r. unfold matches. simpl. tauto. }
  split_and!.
  - intros id. rewrite list_elem_of_fmap. split.
    + intros (r & -> & Hr). rewrite Hperm in Hr.
      apply list_elem_of_filter in Hr as [Hm Hr]. exists r.
      split; [done|]. split; [done|]. exact (proj1 (Hmatch r) Hm).
    + intros (r & Hr & <- & Ho). exists r. split; [done|]. rewrite Hperm.
      apply list_elem_of_filter. split; [|done]. exact (proj2 (Hmatch r) Ho).
  - by apply listing_ids_NoDup.
  - exists (listing None orientation db). split; [done|].
    split; [apply listing_Sorted|]. intros r Hr. rewrite Hperm in Hr.
    by apply list_elem_of_filter in Hr as [_ ?].
  - intros Hno. rewrite Hperm, filter_all; [done|].
    apply Forall_forall. intros r _. apply (proj2 (Hmatch r)). by intros ?.
Qed.

Lemma getImageIds_newest_first_witness :
  wf (tables db3)
  ∧ NoDup (getImageIds (Some "portrait") db3)
  ∧ "img3" ∈ getImageIds (Some "portrait") db3
  ∧ ("img1" ∉ getImageIds (Some "portrait") db3)
  ∧ getImageIds None db3 ≡ₚ ["img1"; "img3"].
Proof.
  split; [exact wf_db3|].
  destruct (getImageIds_newest_first (Some "portrait") db3 wf_db3)
    as (Hin & Hnd & _).
  split; [exact Hnd|]. split; [|split].
  - apply Hin. exists (metadataToRow img3). split; [|split; reflexivity].
    apply (bool_decide_unpack _). vm_compute. exact I.
  - intros Hlisted. apply Hin in Hlisted as (r & Hr & Hid & Ho).
    specialize (Ho I).
    assert (r = metadataToRow img1) as ->.
    { eapply (NoDup_fmap_eq ImageRow.id); [apply wf_db3|exact Hr| |exact Hid].
      apply (bool_decide_unpack _). vm_compute. exact I. }
    discriminate Ho.
  - destruct (getImageIds_newest_first None db3 wf_db3)
      as (_ & _ & _ & Hall).
    apply Hall. intros [].
Defined.

(** X12.  On tables that satisfy the schema, for a limit of at least 1
    whose value and offset are exact integers of JavaScript,
    [getImages] is fulfilled and
    every record of the page is the record [getImage] returns for its id,
    up to the order of the tags; it carries the tag of the filter when one
    is given and has the orientation of the filter when one is given, and
    the page holds at most [limit] records.  Without page and limit the
    call is that of the first page of 12. *)
Theorem getImages_records_as_getImage
    (tag orientation : option string) (page limit : Z) (db : D1Database) :
  wf (tables db) → 1 ≤ limit →
  limit ≤ MAX_SAFE_INTEGER →
  - MAX_SAFE_INTEGER ≤ (page - 1) * limit ≤ MAX_SAFE_INTEGER →
  (∃ records total,
     getImages (ImageFilters.mk (Some page) (Some limit) tag orientation) db
     = Fulfilled (records, total)
     ∧ (∀ m, m ∈ records →
          ∃ row tags',
            getImage (ImageMetadata.id m) db = Some (rowToMetadata row tags')
            ∧ m = rowToMetadata row (ImageMetadata.tags m)
            ∧ ImageMetadata.tags m ≡ₚ tags'
            ∧ (truthy tag → or_empty tag ∈ ImageMetadata.tags m)
            ∧ (truthy orientation →
               ImageMetadata.orientation m = or_empty orientation))
     ∧ (length records ≤ Z.to_nat limit)%nat)
  ∧ getImages (ImageFilters.mk None None tag orientation) db
    = getImages (ImageFilters.mk (Some 1) (Some 12) tag orientation) db.
Proof.
  intros Hwf Hlimit Hlmax Hoffset. split; [|done].
  unfold MAX_SAFE_INTEGER in *.
  rewrite getImages_page; [|done|unfold int64; lia|unfold int64; lia].
  eexists _, _. split; [done|].
  pose proof (listing_Permutation tag orientation db Hwf) as Hperm.
  set (window := take _ _).
  assert (∀ r, r ∈ window →
               r ∈ images (tables db)
               ∧ matches tag orientation (tables db) r) as Hwin.
  { intros r Hr. unfold window in Hr.
    apply elem_of_take in Hr as (i & Hr & _).
    apply list_elem_of_lookup_2 in Hr.
    assert (r ∈ listing tag orientation db) as Hl.
    { revert Hr. generalize (listing tag orientation db). intros l.
      generalize (Z.to_nat ((page - 1) * limit)). intros n.
      rewrite <-(take_drop n l) at 2. intros Hr. apply elem_of_app. by right. }
    rewrite Hperm in Hl. apply list_elem_of_filter in Hl. tauto. }
  split.
  - intros m Hm.
    pose proof (enrichWithTags_getImage window db m Hwf
                  (λ r Hr, proj1 (Hwin r Hr)) Hm)
      as (row & tags' & Hrow & Heq & Hget & Hp).
    exists row, tags'. split_and!; [done..| |].
    + intros Htag. rewrite Hp.
      apply getImage_Some in Hget as (_ & Hid & Htags).
      cbn [rowToMetadata ImageMetadata.tags ImageMetadata.id] in Hid, Htags.
      rewrite Htags. rewrite Heq. cbn [rowToMetadata ImageMetadata.id].
      apply Hwin in Hrow as [_ [Hm1 _]]. by apply Hm1.
    + intros Ho. rewrite Heq. cbn [rowToMetadata ImageMetadata.orientation].
      apply Hwin in Hrow as [_ [_ Hm2]]. by apply Hm2.
  - unfold enrichWithTags. case_decide as Hlen.
    + simpl. lia.
    + rewrite length_fmap. unfold window. rewrite length_take. lia.
Qed.

Lemma getImages_records_as_getImage_witness :
  wf (tables db3)
  ∧ 1 ≤ 12 ∧ 12 ≤ MAX_SAFE_INTEGER
  ∧ - MAX_SAFE_INTEGER ≤ (1 - 1) * 12 ≤ MAX_SAFE_INTEGER
  ∧ ∃ records total,
      getImages (ImageFilters.mk (Some 1) (Some 12) (Some "cat") None) db3
      = Fulfilled (records, total)
      ∧ (∀ m, m ∈ records →
           "cat" ∈ ImageMetadata.tags m
           ∧ is_Some (getImage (ImageMetadata.id m) db3))
      ∧ (length records ≤ Z.to_nat 12)%nat.
Proof.
  split; [exact wf_db3|]. split; [lia|]. split; [by vm_compute|].
  split; [by vm_compute|].
  destruct (getImages_records_as_getImage (Some "cat") None 1 12 db3 wf_db3)
    as ((records & total & Hget & Hrec & Hlen) & _);
    [lia|by vm_compute|by vm_compute|].
  exists records, total. split; [exact Hget|]. split; [|exact Hlen].
  intros m Hm. destruct (Hrec m Hm) as (row & tags' & Hsome & _ & _ & Htag & _).
  split; [apply Htag; exact I|]. rewrite Hsome. by eexists.
Defined.
End Listings.

(** ** getRandomImage: what qualifies *)

Section RandomQualifies.
Implicit Types (T : Tables) (id name : string) (db : D1Database).
Implicit Types (tags exclude : option (list string)).
Implicit Types (orientation : option string).

Lemma getRandomImage_candidates (filters : option RandomFilters.t)
    (random : nat → Z) db :
  getRandomImage filters random db
  = match head (order_by_random random
                  (candidates (filters ≫= RandomFilters.tags)
                     (filters ≫= RandomFilters.exclude)
                     (filters ≫= RandomFilters.orientation) (tables db))) with
    | None => None
    | Some result => getImage (ImageRow.id result) db
    end.
Proof. reflexivity. Qed.

Lemma elem_of_tagged_with_any T (exclude : list string) id :
  id ∈ tagged_with_any exclude T ↔ ∃ x, x ∈ exclude ∧ linked T id x.
Proof.
  unfold tagged_with_any, linked. rewrite list_elem_of_bind. split.
  - intros (it & Hin & Hit). apply list_elem_of_bind in Hin as (t & Hin & Ht).
    case_decide as Hc; [|by apply elem_of_nil in Hin].
    apply list_elem_of_singleton in Hin as ->. destruct Hc as [Hk Hx].
    exists (TagRow.name t). split; [done|]. exists t. split_and!; [done..|].
    rewrite <-Hk. by destruct it.
  - intros (x & Hx & t & Ht & <- & Hl). eexists. split; [|exact Hl].
    apply list_elem_of_bind. exists t. split; [|done]. simpl.
    rewrite decide_True by done. left.
Qed.

Lemma nonempty_default (l : option (list string)) :
  nonempty l = false → default [] l = [].
Proof. by destruct l as [[|??]|]. Qed.

(** The conditions hold of a row exactly when the image passes the exclude
    and orientation filters and, with a tag filter, the joined tag is one
    of the list. *)
Lemma holds_getRandomImage_conditions T tags exclude orientation
    (row : Joined) :
  Forall (holds T row) (getRandomImage_conditions tags exclude orientation)
  ↔ (nonempty tags → ∃ t, row.2 = Some t ∧ TagRow.name t ∈ default [] tags)
    ∧ (∀ x, x ∈ default [] exclude → ¬ linked T (ImageRow.id row.1) x)
    ∧ (truthy orientation → ImageRow.orientation row.1 = or_empty orientation).
Proof.
  unfold getRandomImage_conditions. rewrite !Forall_app.
  assert (Forall (holds T row)
            (if nonempty tags then [TagNameIn (default [] tags)] else [])
          ↔ (nonempty tags →
             ∃ t, row.2 = Some t ∧ TagRow.name t ∈ default [] tags)) as ->.
  { destruct (nonempty tags); [rewrite Forall_singleton; simpl|]; by intuition. }
  assert (Forall (holds T row)
            (if nonempty exclude then [NotTagged (default [] exclude)] else [])
          ↔ (∀ x, x ∈ default [] exclude →
                  ¬ linked T (ImageRow.id row.1) x)) as ->.
  { destruct (nonempty exclude) eqn:Hne.
    - rewrite Forall_singleton. simpl. rewrite elem_of_tagged_with_any.
      split; [|intros Hn (x & Hx & Hl); by eapply Hn].
      intros Hn x Hx Hl. apply Hn. by exists x.
    - rewrite (nonempty_default _ Hne). split; [|done].
      by intros _ x ?%elem_of_nil. }
  assert (Forall (holds T row)
            (if truthy orientation
             then [OrientationIs (or_empty orientation)] else [])
          ↔ (truthy orientation →
             ImageRow.orientation row.1 = or_empty orientation)) as ->.
  { destruct (truthy orientation); [rewrite Forall_singleton; simpl|];
      by intuition. }
  done.
Qed.

(** Every candidate row is a stored image that qualifies. *)
Lemma candidates_qualify T tags exclude orientation r :
  r ∈ candidates tags exclude orientation T →
  r ∈ images T ∧ qualifies tags exclude orientation T r.
Proof.
  unfold candidates, qualifies. destruct (nonempty tags) eqn:Hne.
  - intros Hr.
    assert (TagNameIn (default [] tags)
            ∈ getRandomImage_conditions tags exclude orientation) as Hcond.
    { unfold getRandomImage_conditions. rewrite Hne. left. }
    pose proof (having_all_tags _ _ _ _ Hcond Hr) as [_ Hall].
    apply elem_of_group_by_id_having_count in Hr as [_ [o Hrow]].
    apply list_elem_of_filter in Hrow as [Hc Hrow].
    apply holds_getRandomImage_conditions in Hc as (Htag & Hex & Hor).
    destruct Htag as (t & Ho & _); [by rewrite Hne|]. simpl in Ho. subst o.
    apply elem_of_from_images_join in Hrow as (Hi & _). done.
  - intros ([i o] & -> & Hrow)%list_elem_of_fmap.
    apply list_elem_of_filter in Hrow as [Hc Hrow].
    apply holds_getRandomImage_conditions in Hc as (_ & Hex & Hor).
    apply elem_of_from_images_plain in Hrow as [_ Hi]. simpl in *.
    split; [done|]. split_and!; [|done..].
    rewrite (nonempty_default _ Hne). by intros x ?%elem_of_nil.
Qed.

(** On tables that satisfy the schema, a stored image that qualifies is a
    candidate when the tag list has no duplicate. *)
Lemma qualifying_candidate T tags exclude orientation i :
  wf T → NoDup (default [] tags) →
  i ∈ images T → qualifies tags exclude orientation T i →
  ∃ r, r ∈ candidates tags exclude orientation T.
Proof.
  intros Hwf Hnd Hi (Htags & Hex & Hor). unfold candidates.
  set (conds := getRandomImage_conditions tags exclude orientation).
  destruct (nonempty tags) eqn:Hne.
  - assert (∀ x, x ∈ default [] tags →
              ∃ t, TagRow.name t = x
                   ∧ (i, Some t) ∈ where_ T conds (from_images true T))
      as Hrows.
    { intros x Hx. destruct (Htags x Hx) as (t & Ht & Hn & Hl).
      exists t. split; [done|]. apply list_elem_of_filter. split.
      - apply holds_getRandomImage_conditions. split_and!; [|done..].
        intros _. exists t. split; [done|]. by rewrite Hn.
      - by apply elem_of_from_images_join_2. }
    set (matching := where_ T conds (from_images true T)) in *.
    set (group := filter (λ row : Joined, ImageRow.id row.1 = ImageRow.id i)
                    matching).
    assert (length (nub (omap (λ row : Joined, TagRow.name <$> row.2) group))
            = length (default [] tags)) as Hlen.
    { apply Permutation_length, NoDup_Permutation; [apply NoDup_nub|done|].
      intros x. rewrite elem_of_nub, list_elem_of_omap. split.
      - intros ([i' o] & [_ Hrow]%list_elem_of_filter & Hname).
        apply list_elem_of_filter in Hrow as [Hc _].
        apply holds_getRandomImage_conditions in Hc as (Htag & _).
        destruct Htag as (t & Ho & Hin); [by rewrite Hne|]. simpl in *.
        subst o. simpl in Hname. by injection Hname as <-.
      - intros Hx. destruct (Hrows x Hx) as (t & Hn & Hrow).
        exists (i, Some t). split; [by apply list_elem_of_filter|].
        simpl. by rewrite Hn. }
    destruct (default [] tags) as [|x0 rest] eqn:Hd.
    { by destruct tags as [[|??]|]. }
    destruct (Hrows x0) as (t0 & _ & Hrow0); [left|].
    assert ((i, Some t0) ∈ group) as Hg by (by apply list_elem_of_filter).
    destruct (group.*1) as [|r0 others] eqn:Hg1.
    { apply (list_elem_of_fmap_2 fst) in Hg. rewrite Hg1 in Hg.
      by apply elem_of_nil in Hg. }
    exists r0. unfold group_by_id_having_count. apply list_elem_of_bind.
    exists (ImageRow.id i). split.
    + fold group. rewrite decide_True by done. rewrite Hg1. simpl. left.
    + apply elem_of_nub. apply (list_elem_of_fmap_2 ImageRow.id _ i).
      apply (list_elem_of_fmap_2 fst _ (i, Some t0)). done.
  - exists i. apply (list_elem_of_fmap_2 fst _ (i, None)).
    apply list_elem_of_filter. split.
    + apply holds_getRandomImage_conditions. split_and!; [|done..].
      by rewrite Hne.
    + by apply elem_of_from_images_plain.
Qed.

Lemma order_by_random_nonempty {A} (random : nat → Z) (l : list A) :
  l ≠ [] → is_Some (head (order_by_random random l)).
Proof.
  intros Hl. unfold order_by_random.
  assert (length ((merge_sort smaller_key
                     (imap (λ k row, (random k, row)) l)).*2) = length l)
    as Hlen.
  { by rewrite length_fmap, merge_sort_Permutation, length_imap. }
  destruct ((merge_sort _ _).*2) as [|x ?]; [|by eexists].
  by destruct l.
Qed.

(** X13.  On tables that satisfy the schema, an image returned by
    [getRandomImage] is a stored image that passes every filter: it is the
    record [getImage] returns for its id, it carries every tag of [tags] and
    no tag of [exclude], and has the orientation asked for.  Conversely,
    when the tag list has no duplicate and some stored image passes every
    filter, an image is returned whatever the random draw. *)
Theorem getRandomImage_qualifying
    (filters : option RandomFilters.t) (random : nat → Z) (db : D1Database) :
  wf (tables db) →
  let tags := filters ≫= RandomFilters.tags in
  let exclude := filters ≫= RandomFilters.exclude in
  let orientation := filters ≫= RandomFilters.orientation in
  (∀ image, getRandomImage filters random db = Some image →
     getImage (ImageMetadata.id image) db = Some image
     ∧ (∀ x, x ∈ default [] tags → x ∈ ImageMetadata.tags image)
     ∧ (∀ x, x ∈ default [] exclude → x ∉ ImageMetadata.tags image)
     ∧ (truthy orientation →
        ImageMetadata.orientation image = or_empty orientation))
  ∧ (NoDup (default [] tags) →
     (∃ i, i ∈ images (tables db)
           ∧ qualifies tags exclude orientation (tables db) i) →
     is_Some (getRandomImage filters random db)).
Proof.
  intros Hwf tags exclude orientation.
  rewrite getRandomImage_candidates. fold tags exclude orientation. split.
  - intros image Hres.
    destruct (head _) as [r|] eqn:Hhead; [|done].
    apply head_order_by_random, candidates_qualify in Hhead
      as (Hr & Htags & Hex & Hor).
    rewrite (getImage_row db r Hwf Hr) in Hres. injection Hres as <-.
    cbn [rowToMetadata ImageMetadata.id ImageMetadata.tags
      ImageMetadata.orientation].
    split; [by apply getImage_row|]. split_and!; [| |done].
    + intros x Hx. apply elem_of_tag_names_of. by apply Htags.
    + intros x Hx Hin. apply elem_of_tag_names_of in Hin. by eapply Hex.
  - intros Hnd (i & Hi & Hq).
    destruct (qualifying_candidate _ _ _ _ _ Hwf Hnd Hi Hq) as (r0 & Hr0).
    destruct (order_by_random_nonempty random
                (candidates tags exclude orientation (tables db)))
      as (r & Hhead).
    { intros Hnil. rewrite Hnil in Hr0. by apply elem_of_nil in Hr0. }
    rewrite Hhead.
    pose proof (head_order_by_random _ _ _ Hhead) as Hr.
    apply candidates_qualify in Hr as [Hr _].
    apply getImage_is_Some. by apply list_elem_of_fmap_2.
Qed.

Lemma getRandomImage_qualifying_witness :
  wf (tables db3)
  ∧ (∀ image,
       getRandomImage
         (Some (RandomFilters.mk (Some ["cat"]) (Some ["orange"]) None))
         (λ _, 0) db3 = Some image →
       "cat" ∈ ImageMetadata.tags image
       ∧ "orange" ∉ ImageMetadata.tags image)
  ∧ is_Some (getRandomImage
               (Some (RandomFilters.mk (Some ["cat"]) (Some ["orange"]) None))
               (λ _, 0) db3).
Proof.
  split; [exact wf_db3|].
  destruct (getRandomImage_qualifying
              (Some (RandomFilters.mk (Some ["cat"]) (Some ["orange"]) None))
              (λ _, 0) db3 wf_db3) as [Hsound Hsome].
  split.
  - intros image Hres. destruct (Hsound image Hres) as (_ & Htags & Hex & _).
    split; [apply Htags|apply Hex]; left.
  - apply Hsome.
    + apply (bool_decide_unpack _). vm_compute. exact I.
    + exists (metadataToRow img3). split.
      * apply (bool_decide_unpack _). vm_compute. exact I.
      * split_and!.
        -- intros x Hx. apply list_elem_of_singleton in Hx as ->.
           apply elem_of_tag_names_of.
           apply (bool_decide_unpack _). vm_compute. exact I.
        -- intros x Hx. apply list_elem_of_singleton in Hx as ->.
           intros Hl. apply elem_of_tag_names_of in Hl. revert Hl.
           apply (bool_decide_unpack _). vm_compute. exact I.
        -- intros [].
Defined.
End RandomQualifies.

(** ** How the write methods compose *)

Section Compose.
Implicit Types (T : Tables) (id name : string) (db : D1Database).

(** X14.  Every write method keeps the constraints of the schema, whether
    its call is fulfilled or rejected; so every database reached from the
    empty one by calls of the write methods satisfies them: ids and tag
    names are unique, no link is doubled and no link points to a missing
    image or tag. *)
Theorem writes_keep_schema (ws : list Write) :
  (∀ db w, wf (tables db) → wf (tables (after db w)))
  ∧ wf (tables (foldl after empty_db ws)).
Proof.
  assert (∀ db w, wf (tables db) → wf (tables (after db w))) as Hstep.
  { intros db [m|id u|id|name|old new|name|ids add rem] Hwf; simpl.
    - by apply saveImage_wf.
    - by apply updateImage_wf.
    - by apply deleteImage_wf.
    - by apply createTag_wf.
    - by apply renameTag_wf.
    - by apply deleteTag_wf.
    - by apply batchUpdateTags_wf. }
  split; [done|].
  assert (∀ db, wf (tables db) → wf (tables (foldl after db ws))) as Hall.
  { induction ws as [|w ws IH]; intros db Hwf; [done|].
    simpl. by apply IH, Hstep. }
  apply Hall, wf_empty_tables.
Qed.

Lemma exec_DeleteImage_effect T id T' n :
  wf T → exec (DeleteImage id) T = Done T' n →
  images T' = filter (λ r, ImageRow.id r ≠ id) (images T)
  ∧ tags T' = tags T
  ∧ n = Z.of_nat (length (filter (λ r, ImageRow.id r = id) (images T)))
  ∧ ∀ id' x, linked T' id' x ↔ id' ≠ id ∧ linked T id' x.
Proof.
  intros Hwf He. cbn [exec] in He. injection He as <- <-.
  split_and!; [done..|]. intros id' x. unfold linked. simpl. split.
  - intros (t & Ht & Hn & Hrow).
    apply list_elem_of_filter in Hrow as [Hkeep Hrow]. simpl in Hkeep.
    split; [|by exists t]. intros ->. apply Hkeep.
    pose proof (wf_link_image _ Hwf) as Hfk.
    rewrite Forall_forall in Hfk. apply Hfk in Hrow. simpl in Hrow.
    apply list_elem_of_fmap in Hrow as (r & -> & Hr).
    apply list_elem_of_fmap_2. by apply list_elem_of_filter.
  - intros (Hne & t & Ht & Hn & Hrow). exists t. split_and!; [done..|].
    apply list_elem_of_filter. split; [|done]. simpl.
    intros (r & -> & [Hr _]%list_elem_of_filter)%list_elem_of_fmap. done.
Qed.

(** X15.  Saving a record and then deleting its id undoes the save as far as
    images and links go: [deleteImage] is fulfilled with true, the image
    rows and every image's links are as before the save, and [getImage]
    returns for every id what it returned before.  The tags the save
    created stay. *)
Theorem saveImage_then_deleteImage
    (metadata : ImageMetadata.t) (db : D1Database) :
  wf (tables db) → (saveImage metadata db).2 = Fulfilled () →
  let id := ImageMetadata.id metadata in
  let db' := (saveImage metadata db).1 in
  let db'' := (deleteImage id db').1 in
  (deleteImage id db').2 = Fulfilled true
  ∧ images (tables db'') = images (tables db)
  ∧ (∀ id' x, linked (tables db'') id' x ↔ linked (tables db) id' x)
  ∧ (∀ id', getImage id' db'' = getImage id' db)
  ∧ (∀ x, x ∈ ImageMetadata.tags metadata → x ∈ tag_names (tables db''))
  ∧ tags (tables db) `prefix_of` tags (tables db'').
Proof.
  intros Hwf Hok id db' db''.
  pose proof (saveImage_wf metadata db Hwf) as Hwf'. fold db' in Hwf'.
  pose proof (deleteImage_wf id db' Hwf') as Hwf''. fold db'' in Hwf''.
  apply saveImage_Fulfilled_inv in Hok as (Hid & Hor & Hnd). fold id in Hid.
  destruct (saveImage_statements_run metadata (tables db) Hwf Hid Hor Hnd)
    as (T' & Hrun & _ & Him & Hpre & Hl).
  assert (tables db' = T') as HT'.
  { unfold db'. rewrite saveImage_batch. by rewrite Hrun. }
  destruct (exec (DeleteImage id) T') as [T'' n|e] eqn:He; [|done].
  destruct (exec_DeleteImage_effect T' id T'' n) as (Him' & Htg' & Hn & Hl');
    [by rewrite <-HT'|done|].
  assert (deleteImage id db'
          = (mkD1 T'' (calls db' ++ [CallRun (DeleteImage id)]),
             Fulfilled (bool_decide (0 < n)))) as Hdel.
  { unfold deleteImage, run. by rewrite HT', He. }
  assert (filter (λ r, ImageRow.id r = id) (images (tables db)) = [])
    as Hnone.
  { apply filter_none, Forall_forall. intros r Hr Heq. apply Hid.
    rewrite <-Heq. by apply list_elem_of_fmap_2. }
  assert (images T'' = images (tables db)) as Himages.
  { rewrite Him', Him, filter_app, filter_cons_False, filter_nil, app_nil_r.
    - apply filter_all, Forall_forall. intros r Hr Heq. apply Hid.
      rewrite <-Heq. by apply list_elem_of_fmap_2.
    - simpl. by intros ?. }
  assert (∀ id' x, linked T'' id' x ↔ linked (tables db) id' x) as Hlinks.
  { intros id' x. rewrite Hl', Hl. split; [tauto|]. intros Hold.
    split; [|by left]. intros ->. apply Hid. by eapply linked_image_id. }
  unfold db'' in *. rewrite Hdel in *. cbn [fst snd tables] in *.
  split_and!; [|done|done| | |by rewrite Htg'].
  - do 2 f_equal. apply bool_decide_eq_true. rewrite Hn, Him, filter_app.
    rewrite Hnone, filter_cons_True; [simpl; lia|done].
  - intros id'. apply getImage_frame; cbn [tables]; [done..| | |done].
    + by rewrite Himages.
    + by rewrite Htg'.
  - intros x Hx. unfold tag_names. rewrite Htg'.
    apply (linked_tag_name T' id). apply Hl. by right.
Qed.
Lemma saveImage_then_deleteImage_witness :
  wf (tables db1)
  ∧ (saveImage img3 db1).2 = Fulfilled ()
  ∧ (deleteImage "img3" ((saveImage img3 db1).1)).2 = Fulfilled true
  ∧ images (tables ((deleteImage "img3" ((saveImage img3 db1).1)).1))
    = images (tables db1)
  ∧ getImage "img1" ((deleteImage "img3" ((saveImage img3 db1).1)).1)
    = getImage "img1" db1.
Proof.
  assert ((saveImage img3 db1).2 = Fulfilled ()) as Hok
    by (vm_compute; reflexivity).
  split; [exact wf_db1|]. split; [exact Hok|].
  destruct (saveImage_then_deleteImage img3 db1 wf_db1 Hok)
    as (Hres & Him & _ & Hget & _).
  split; [exact Hres|]. split; [exact Him|]. apply Hget.
Defined.

Lemma rename_tag_back (new old : string) (t : TagRow.t) :
  TagRow.name t ≠ new → rename_tag old new (rename_tag new old t) = t.
Proof.
  intros Hne. unfold rename_tag. destruct (decide (TagRow.name t = old)) as [Ho|Ho].
  - cbn [TagRow.name TagRow.id]. rewrite decide_True by done.
    destruct t. simpl in *. by subst.
  - by rewrite decide_False.
Qed.

(** X16.  Renaming a tag to a name no tag has and then renaming it back
    restores the tables: on tables that satisfy the schema both calls are
    fulfilled with the same count, and afterwards the tables, and so what
    [getImage] returns for every id, are as before. *)
Theorem renameTag_round_trip (oldName newName : string) (db : D1Database) :
  wf (tables db) → newName ∉ tag_names (tables db) →
  let db' := (renameTag oldName newName db).1 in
  let db'' := (renameTag newName oldName db').1 in
  tables db'' = tables db
  ∧ (∃ n, (renameTag oldName newName db).2 = Fulfilled n
          ∧ (renameTag newName oldName db').2 = Fulfilled n)
  ∧ (∀ id, getImage id db'' = getImage id db).
Proof.
  intros Hwf Hfree db' db''.
  destruct (exec_UpdateTagName_wf (tables db) newName oldName Hwf)
    as (T' & n & He & Hwf' & Him & Hlk & _ & Hl); [by left|].
  assert (tags T' = rename_tag newName oldName <$> tags (tables db)
          ∧ tags_seq T' = tags_seq (tables db)) as [Htags Hseq].
  { cbn [exec] in He. case_decide; [|done]. by injection He as <- _. }
  assert (renameTag oldName newName db
          = (mkD1 T' (calls db ++ [CallRun (UpdateTagName newName oldName)]),
             Fulfilled (count_links_named oldName (tables db)))) as Hfirst.
  { unfold renameTag, run. by rewrite He. }
  assert (rename_tag oldName newName <$> tags T' = tags (tables db)) as Hback.
  { rewrite Htags, <-list_fmap_compose.
    rewrite <-(list_fmap_id (tags (tables db))) at 2.
    apply list_fmap_ext. intros i t Ht. simpl. apply rename_tag_back.
    intros Hn. apply Hfree. rewrite <-Hn.
    by apply list_elem_of_fmap_2, list_elem_of_lookup_2 with i. }
  assert (exec (UpdateTagName oldName newName) T'
          = Done (tables db)
              (Z.of_nat (length (filter (λ t, TagRow.name t = newName)
                                   (tags T'))))) as He2.
  { cbn [exec]. rewrite Hback. rewrite decide_True by apply Hwf.
    f_equal. destruct (tables db). simpl in *. by subst. }
  assert (count_links_named newName T' = count_links_named oldName (tables db))
    as Hcount.
  { rewrite !count_links_named_images by done. rewrite Him. do 2 f_equal.
    apply filter_ext_in. intros i _. rewrite !elem_of_tag_names_of, Hl.
    split; [|by left; split].
    intros [[_ Hold]|[_ Hnew]]; [done|]. destruct Hfree.
    by eapply linked_tag_name. }
  assert (tables db'' = tables db
          ∧ (renameTag newName oldName db').2
            = Fulfilled (count_links_named oldName (tables db)))
    as [Htables Hres].
  { unfold db'', db'. rewrite Hfirst. cbn [fst]. unfold renameTag, run.
    cbn [tables]. rewrite He2. cbn [fst snd tables]. by rewrite Hcount. }
  split; [done|]. split.
  - exists (count_links_named oldName (tables db)). by rewrite Hfirst.
  - intros id. by apply getImage_tables.
Qed.

Lemma renameTag_round_trip_witness :
  wf (tables db3)
  ∧ ("feline" ∉ tag_names (tables db3))
  ∧ tables ((renameTag "feline" "cat" ((renameTag "cat" "feline" db3).1)).1)
    = tables db3
  ∧ (renameTag "feline" "cat" ((renameTag "cat" "feline" db3).1)).2
    = Fulfilled 2.
Proof.
  assert ("feline" ∉ tag_names (tables db3)) as Hfree
    by (apply (bool_decide_unpack _); vm_compute; exact I).
  split; [exact wf_db3|]. split; [exact Hfree|].
  destruct (renameTag_round_trip "cat" "feline" db3 wf_db3 Hfree)
    as (Htables & _ & _).
  split; [exact Htables|]. vm_compute. reflexivity.
Defined.

Lemma exec_all_ensure_tags_present T (names : list string) :
  (∀ x, x ∈ names → x ∈ tag_names T) →
  exec_all (InsertOrIgnoreTag <$> names) T = inr T.
Proof.
  induction names as [|x names IH]; intros Hin; [done|].
  rewrite fmap_cons, (exec_all_Done _ _ T T 0).
  - apply IH. intros y Hy. apply Hin. by right.
  - cbn [exec]. rewrite decide_True; [done|]. apply Hin. left.
Qed.

(** What a call of [batchUpdateTags] on known images does. *)
Lemma batchUpdateTags_effect (imageIds addTags removeTags : list string) db :
  wf (tables db) →
  batchUpdateTags_statements imageIds addTags removeTags ≠ [] →
  (addTags ≠ [] → ∀ id, id ∈ imageIds → id ∈ image_ids (tables db)) →
  ∃ T',
    batchUpdateTags imageIds addTags removeTags db
    = (mkD1 T'
         (calls db
          ++ [CallBatch
                (batchUpdateTags_statements imageIds addTags removeTags)]),
       Fulfilled (Z.of_nat (length imageIds)))
    ∧ wf T'
    ∧ images T' = images (tables db)
    ∧ (∀ x, x ∈ addTags → x ∈ tag_names T')
    ∧ ((∀ x, x ∈ addTags → x ∈ tag_names (tables db)) →
       tags T' = tags (tables db))
    ∧ (∀ id x,
         linked T' id x
         ↔ if decide (id ∈ imageIds)
           then x ∈ addTags ∨ (linked (tables db) id x ∧ x ∉ removeTags)
           else linked (tables db) id x).
Proof.
  intros Hwf Hst Hids.
  destruct (run_ensure_tags (tables db) addTags Hwf)
    as (T1 & Hrun1 & Hwf1 & Him1 & Hnew & Hkeep & Hl1).
  destruct (run_all_images T1 imageIds addTags removeTags Hwf1)
    as (T' & Hrun & Hwf' & Him' & Htg' & Hl'); [|done|].
  { intros Hne id Hid. unfold image_ids. rewrite Him1. by apply Hids. }
  exists T'. split_and!; [|done|congruence| | |].
  - unfold batchUpdateTags. rewrite batch_nonempty by done.
    rewrite batchUpdateTags_statements_eq at 1.
    by rewrite exec_all_app, Hrun1, Hrun.
  - intros x Hx. unfold tag_names. rewrite Htg'. by apply Hnew.
  - intros Hpresent. rewrite Htg'.
    rewrite (exec_all_ensure_tags_present _ _ Hpresent) in Hrun1.
    by injection Hrun1 as <-.
  - intros id x. rewrite Hl'. case_decide; by rewrite Hl1.
Qed.

(** X17.  [batchUpdateTags] can be repeated: on tables that satisfy the
    schema, after a call on known images whose batch holds a statement, a
    second call with the same arguments is fulfilled with the same number
    and leaves the images, the tags and the links of every image, and so
    what [getImage] returns, as the first call left them. *)
Theorem batchUpdateTags_idempotent
    (imageIds addTags removeTags : list string) (db : D1Database) :
  wf (tables db) →
  batchUpdateTags_statements imageIds addTags removeTags ≠ [] →
  (addTags ≠ [] → ∀ id, id ∈ imageIds → id ∈ image_ids (tables db)) →
  let db' := (batchUpdateTags imageIds addTags removeTags db).1 in
  let db'' := (batchUpdateTags imageIds addTags removeTags db').1 in
  (batchUpdateTags imageIds addTags removeTags db').2
  = Fulfilled (Z.of_nat (length imageIds))
  ∧ images (tables db'') = images (tables db')
  ∧ tags (tables db'') = tags (tables db')
  ∧ (∀ id x, linked (tables db'') id x ↔ linked (tables db') id x)
  ∧ (∀ id, getImage id db'' = getImage id db').
Proof.
  intros Hwf Hst Hids db' db''.
  destruct (batchUpdateTags_effect imageIds addTags removeTags db Hwf Hst Hids)
    as (T' & Hfirst & Hwf' & Him' & Hnew' & _ & Hl').
  assert (tables db' = T') as HT' by (unfold db'; by rewrite Hfirst).
  destruct (batchUpdateTags_effect imageIds addTags removeTags db')
    as (T'' & Hsecond & Hwf'' & Him'' & _ & Htg'' & Hl'').
  { by rewrite HT'. }
  { done. }
  { intros Hne id Hid. rewrite HT'. unfold image_ids. rewrite Him'.
    by apply Hids. }
  assert (tables db'' = T'') as HT'' by (unfold db''; by rewrite Hsecond).
  assert (∀ id x, linked T'' id x ↔ linked T' id x) as Hlinks.
  { intros id x. rewrite Hl'', HT'. destruct (decide (id ∈ imageIds)).
    - rewrite !Hl', !decide_True by done. tauto.
    - done. }
  rewrite Hsecond, HT'', HT'. cbn [snd].
  assert (tags T'' = tags T') as Htags.
  { rewrite <-HT'. apply Htg''. by rewrite HT'. }
  split_and!; [done|by rewrite Him'', HT'|done|done|].
  intros id. apply getImage_frame.
  - by rewrite HT'.
  - by rewrite HT''.
  - by rewrite HT'', HT', Him'', HT'.
  - by rewrite HT'', HT', Htags.
  - intros x. by rewrite HT'', HT'.
Qed.

Lemma batchUpdateTags_idempotent_witness :
  wf (tables db3)
  ∧ batchUpdateTags_statements ["img1"; "img3"] ["tabby"] ["cat"] ≠ []
  ∧ (["tabby"] ≠ [] → ∀ id, id ∈ ["img1"; "img3"] → id ∈ image_ids (tables db3))
  ∧ (batchUpdateTags ["img1"; "img3"] ["tabby"] ["cat"]
       ((batchUpdateTags ["img1"; "img3"] ["tabby"] ["cat"] db3).1)).2
    = Fulfilled 2
  ∧ getImage "img1"
      ((batchUpdateTags ["img1"; "img3"] ["tabby"] ["cat"]
          ((batchUpdateTags ["img1"; "img3"] ["tabby"] ["cat"] db3).1)).1)
    = getImage "img1"
        ((batchUpdateTags ["img1"; "img3"] ["tabby"] ["cat"] db3).1).
Proof.
  assert (["tabby"] ≠ [] →
          ∀ id, id ∈ ["img1"; "img3"] → id ∈ image_ids (tables db3)) as Hids.
  { intros _. apply Forall_forall.
    apply (bool_decide_unpack _). vm_compute. exact I. }
  assert (batchUpdateTags_statements ["img1"; "img3"] ["tabby"] ["cat"] ≠ [])
    as Hst by discriminate.
  split; [exact wf_db3|]. split; [exact Hst|]. split; [exact Hids|].
  destruct (batchUpdateTags_idempotent ["img1"; "img3"] ["tabby"] ["cat"] db3
              wf_db3 Hst Hids) as (Hres & _ & _ & _ & Hget).
  split; [exact Hres|apply Hget].
Defined.
End Compose.

(** ** The upload handler: one entry per file *)

Section UploadFacts.
Context `{Collaborators}.
Implicit Types (w : World) (file : File.t) (tags : list string).

Lemma bind_Some {A B} (m : M A) (f : A → M B) w w' b :
  bind m f w = (w', Some b) →
  ∃ w1 a, m w = (w1, Some a) ∧ f a w1 = (w', Some b).
Proof.
  unfold bind. destruct (m w) as [w1 [a|]]; [|done]. intros Hf. by exists w1, a.
Qed.

Lemma bind_None {A B} (m : M A) (f : A → M B) w w' :
  bind m f w = (w', None) →
  m w = (w', None) ∨ ∃ w1 a, m w = (w1, Some a) ∧ f a w1 = (w', None).
Proof.
  unfold bind. destruct (m w) as [w1 [a|]].
  - intros Hf. right. by exists w1, a.
  - intros [= <-]. by left.
Qed.

Lemma keeps_ret {A} (a : A) : keeps (ret a).
Proof. by intros w w' o [= <- _]. Qed.

Lemma keeps_await {A} (o : option A) : keeps (await o).
Proof. by intros w w' o' [= <- _]. Qed.

Lemma keeps_bind {A B} (m : M A) (f : A → M B) :
  keeps m → (∀ a, keeps (f a)) → keeps (bind m f).
Proof.
  intros Hm Hf w w' o. unfold bind.
  destruct (m w) as [w1 [a|]] eqn:Hmw.
  - intros Hfa. destruct (Hm _ _ _ Hmw) as [<- <-]. by eapply Hf.
  - intros [= <- _]. by eapply Hm.
Qed.

Lemma keeps_try_catch {A} (m handler : M A) :
  keeps m → keeps handler → keeps (try_catch m handler).
Proof.
  intros Hm Hh w w' o. unfold try_catch.
  destruct (m w) as [w1 [a|]] eqn:Hmw.
  - intros [= <- _]. by eapply Hm.
  - intros Hhw. destruct (Hm _ _ _ Hmw) as [<- <-]. by eapply Hh.
Qed.

Lemma keeps_storage_upload path data contentType :
  keeps (storage_upload path data contentType).
Proof.
  intros w w' o. unfold storage_upload.
  destruct (upload _ _ _ _) as [b ok]. by intros [= <- _].
Qed.

Lemma keeps_generate_id : keeps generate_id.
Proof. by intros w w' o [= <- _]. Qed.

Lemma keeps_expiry_from_now expiryMinutes :
  keeps (expiry_from_now expiryMinutes).
Proof. by intros w w' o [= <- _]. Qed.

Lemma keeps_iso_now : keeps iso_now.
Proof. by intros w w' o [= <- _]. Qed.

Lemma keeps_store_original_copies paths arrayBuffer contentType file :
  keeps (store_original_copies paths arrayBuffer contentType file).
Proof.
  unfold store_original_copies.
  repeat (apply keeps_bind; [apply keeps_storage_upload|intros _]).
  apply keeps_ret.
Qed.

Lemma keeps_store_variants paths arrayBuffer contentType file format :
  keeps (store_variants paths arrayBuffer contentType file format).
Proof.
  unfold store_variants.
  destruct compress as [c|]; [|apply keeps_store_original_copies].
  apply keeps_try_catch; [|apply keeps_store_original_copies].
  apply keeps_bind; [apply keeps_await|intros result].
  apply keeps_bind.
  { destruct (CompressionResult.webp result);
      (apply keeps_bind; [apply keeps_storage_upload|intros _; apply keeps_ret]). }
  intros webpSize. apply keeps_bind; [|intros; apply keeps_ret].
  destruct (CompressionResult.avif result);
    (apply keeps_bind; [apply keeps_storage_upload|intros _; apply keeps_ret]).
Qed.
Lemma keeps_sizes paths arrayBuffer contentType file format :
  keeps (if bool_decide (format = "gif") then ret (0, 0)
         else store_variants paths arrayBuffer contentType file format).
Proof. case_bool_decide; [apply keeps_ret|apply keeps_store_variants]. Qed.

Lemma keeps_expiry expiryMinutes :
  keeps (if positive expiryMinutes
         then bind (expiry_from_now expiryMinutes) (λ e, ret (Some e))
         else ret None).
Proof.
  destruct (positive expiryMinutes); [|apply keeps_ret].
  apply keeps_bind; [apply keeps_expiry_from_now|intros; apply keeps_ret].
Qed.

Lemma metadata_saveImage_inv imageMetadata w w' o :
  metadata_saveImage imageMetadata w = (w', o) →
  cache w' = cache w
  ∧ match o with
    | Some _ => saveImage imageMetadata (db w) = (db w', Fulfilled ())
    | None => ∃ e, saveImage imageMetadata (db w) = (db w', Rejected e)
    end.
Proof.
  unfold metadata_saveImage.
  destruct (saveImage imageMetadata (db w)) as [db' [[]|e]]; intros [= <- <-];
    (split; [done|]); [done|by exists e].
Qed.

(** The loop body never throws, and does one step. *)
Lemma upload_file_step tags expiryMinutes file w :
  ∃ w' r, upload_file tags expiryMinutes file w = (w', Some r)
          ∧ file_step tags w file r w'.
Proof.
  unfold upload_file. unfold try_catch at 1.
  case_decide as Hsize.
  { eexists _, _. split; [reflexivity|]. split; [done|]. by left. }
  assert (File.size file ≤ MAX_FILE_SIZE) as Hfits by lia.
  match goal with
  | |- context [match ?body w with _ => _ end] =>
      destruct (body w) as [w' [r|]] eqn:Hbody
  end.
  - exists w', r. split; [done|].
    apply bind_Some in Hbody as (wa & arrayBuffer & Ha & Hbody).
    injection Ha as <- _.
    apply bind_Some in Hbody as (wb & imageInfo & Hb & Hbody).
    injection Hb as <- _.
    destruct (isSupportedFormat (ImageInfo.format imageInfo)) eqn:Hsup;
      cbn [negb] in Hbody.
    2: { injection Hbody as <- <-. split; [done|]. right. left.
         by exists (ImageInfo.format imageInfo). }
    apply bind_Some in Hbody as (wc & id & Hc & Hbody).
    apply keeps_generate_id in Hc as [Hdb1 Hca1].
    apply bind_Some in Hbody as (wd & [] & Hd & Hbody).
    apply keeps_storage_upload in Hd as [Hdb2 Hca2].
    apply bind_Some in Hbody as (we & sizes & He & Hbody).
    assert (ImageInfo.format imageInfo = "gif" → sizes = (0, 0)) as Hgif.
    { intros Hg. rewrite bool_decide_eq_true_2 in He by done.
      by injection He as _ <-. }
    apply keeps_sizes in He as [Hdb3 Hca3].
    apply bind_Some in Hbody as (wf' & expiryTime & Hf & Hbody).
    apply keeps_expiry in Hf as [Hdb4 Hca4].
    apply bind_Some in Hbody as (wg & uploadTime & Hg & Hbody).
    apply keeps_iso_now in Hg as [Hdb5 Hca5].
    apply bind_Some in Hbody as (wh & [] & Hh & Hbody).
    apply metadata_saveImage_inv in Hh as [Hca6 Hsave].
    injection Hbody as <- <-.
    split; [congruence|].
    eexists. split.
    { rewrite <-Hdb1, <-Hdb2, <-Hdb3, <-Hdb4, <-Hdb5. exact Hsave. }
    cbn [upload_metadata ImageMetadata.id ImageMetadata.originalName
      ImageMetadata.expiryTime ImageMetadata.orientation ImageMetadata.tags
      ImageMetadata.format ImageMetadata.sizes ImageMetadata.paths
      Sizes.original Sizes.webp Sizes.avif].
    split_and!; try done.
    intros Hg'. by rewrite (Hgif Hg').
  - exists w'. eexists. split; [reflexivity|].
    assert (cache w' = cache w
            ∧ (db w' = db w
               ∨ ∃ imageMetadata e,
                   ImageMetadata.tags imageMetadata = tags
                   ∧ saveImage imageMetadata (db w) = (db w', Rejected e)))
      as [Hcache Hdb].
    { apply bind_None in Hbody as [Ha|(wa & arrayBuffer & Ha & Hbody)].
      { injection Ha as <- _. by split; [|left]. }
      injection Ha as <- _.
      apply bind_None in Hbody as [Hb|(wb & imageInfo & Hb & Hbody)].
      { injection Hb as <- _. by split; [|left]. }
      injection Hb as <- _.
      destruct (isSupportedFormat (ImageInfo.format imageInfo)); [|done].
      cbn [negb] in Hbody.
      apply bind_None in Hbody as [Hc|(wc & id & Hc & Hbody)].
      { apply keeps_generate_id in Hc as [? ?]. by split; [|left]. }
      apply keeps_generate_id in Hc as [Hdb1 Hca1].
      apply bind_None in Hbody as [Hd|(wd & [] & Hd & Hbody)].
      { apply keeps_storage_upload in Hd as [? ?].
        split; [|left]; congruence. }
      apply keeps_storage_upload in Hd as [Hdb2 Hca2].
      apply bind_None in Hbody as [He|(we & sizes & He & Hbody)].
      { apply keeps_sizes in He as [? ?]. split; [|left]; congruence. }
      apply keeps_sizes in He as [Hdb3 Hca3].
      apply bind_None in Hbody as [Hf|(wf' & expiryTime & Hf & Hbody)].
      { apply keeps_expiry in Hf as [? ?]. split; [|left]; congruence. }
      apply keeps_expiry in Hf as [Hdb4 Hca4].
      apply bind_None in Hbody as [Hg|(wg & uploadTime & Hg & Hbody)].
      { apply keeps_iso_now in Hg as [? ?]. split; [|left]; congruence. }
      apply keeps_iso_now in Hg as [Hdb5 Hca5].
      apply bind_None in Hbody as [Hh|(wh & [] & Hh & Hbody)]; [|done].
      apply metadata_saveImage_inv in Hh as [Hca6 (e & Hsave)].
      split; [congruence|]. right. eexists _, e. split; [|
        rewrite <-Hdb1, <-Hdb2, <-Hdb3, <-Hdb4, <-Hdb5; exact Hsave].
      done. }
    split; [done|]. right. right. done.
Qed.

Lemma upload_files_steps tags expiryMinutes files w :
  ∃ w' results,
    upload_files tags expiryMinutes files w = (w', Some results)
    ∧ files_steps tags w files results w'.
Proof.
  revert w. induction files as [|file files IH]; intros w.
  { exists w, []. split; [done|constructor]. }
  destruct (upload_file_step tags expiryMinutes file w)
    as (w1 & r & Hfile & Hstep).
  destruct (IH w1) as (w2 & results & Hrest & Hsteps).
  exists w2, (r :: results). split; [|by econstructor].
  cbn [upload_files]. unfold bind at 1. rewrite Hfile.
  unfold bind at 1. by rewrite Hrest.
Qed.
Lemma saveImage_rejected_tables imageMetadata d d' e :
  saveImage imageMetadata d = (d', Rejected e) →
  tables d' = tables d
  ∧ calls d' = calls d ++ [CallBatch (saveImage_statements imageMetadata)].
Proof.
  rewrite saveImage_batch. destruct (exec_all _ _); [|done].
  by intros [= <- _].
Qed.

(** A fulfilled [saveImage]: the new image is stored as given, the others
    are not touched. *)
Lemma saveImage_fulfilled_effect imageMetadata d d' :
  wf (tables d) → saveImage imageMetadata d = (d', Fulfilled ()) →
  wf (tables d')
  ∧ (ImageMetadata.id imageMetadata ∉ image_ids (tables d))
  ∧ NoDup (ImageMetadata.tags imageMetadata)
  ∧ image_ids (tables d')
    = image_ids (tables d) ++ [ImageMetadata.id imageMetadata]
  ∧ calls d' = calls d ++ [CallBatch (saveImage_statements imageMetadata)]
  ∧ (∃ tags',
       getImage (ImageMetadata.id imageMetadata) d'
       = Some (rowToMetadata (metadataToRow imageMetadata) tags')
       ∧ tags' ≡ₚ ImageMetadata.tags imageMetadata)
  ∧ (∀ id, id ≠ ImageMetadata.id imageMetadata →
       getImage id d' = getImage id d).
Proof.
  intros Hwf Hsave.
  assert ((saveImage imageMetadata d).2 = Fulfilled ()) as Hok
    by (by rewrite Hsave).
  apply saveImage_Fulfilled_inv in Hok as (Hid & Hor & Hnd).
  destruct (saveImage_statements_run imageMetadata (tables d) Hwf Hid Hor Hnd)
    as (T' & Hrun & Hwf' & Him & Hpre & Hl).
  rewrite saveImage_batch, Hrun in Hsave. injection Hsave as <-.
  cbn [tables calls].
  assert (filter (λ r, ImageRow.id r = ImageMetadata.id imageMetadata)
            (images (tables d)) = []) as Hnone.
  { apply filter_none, Forall_forall. intros r Hr Heq. apply Hid.
    rewrite <-Heq. by apply list_elem_of_fmap_2. }
  split_and!; [done..| |done| |].
  - unfold image_ids. by rewrite Him, fmap_app.
  - exists (tag_names_of (ImageMetadata.id imageMetadata) T'). split.
    + unfold getImage. cbn [tables]. rewrite Him, filter_app, Hnone.
      by rewrite filter_cons_True by done.
    + apply NoDup_Permutation; [by apply tag_names_of_NoDup|done|].
      intros x. rewrite elem_of_tag_names_of, Hl. split; [|by right].
      intros [Hold|[_ Hx]]; [|done]. destruct Hid.
      by eapply linked_image_id.
  - intros id Hne. apply getImage_frame; cbn [tables]; [done..| |done|].
    + rewrite Him, filter_app, filter_cons_False, filter_nil by done.
      by rewrite app_nil_r.
    + intros x. rewrite Hl. split; [|by left]. by intros [?|[? _]].
Qed.

Lemma files_steps_entries tags w files results w' :
  files_steps tags w files results w' →
  Forall2 (entry_for tags) files results ∧ cache w' = cache w.
Proof.
  induction 1 as [w|w file r w1 files results w2 Hstep _ [IH Hc]];
    [by split; [constructor|]|].
  destruct Hstep as [Hc1 Hstep]. split; [|congruence].
  constructor; [|done]. destruct r as [id urls o tags' sizes e fmt|error].
  - destruct Hstep as (md & _ & _ & _ & _ & _ & _ & _ & _ & -> & -> & Hsz
                       & Hfit & Hsup & Hgif).
    cbn [entry_for]. split_and!; [done..|]. intros Hg.
    rewrite bool_decide_eq_true_2 by done. cbn [upload_urls Urls.webp
      Urls.avif]. destruct (Hgif Hg). done.
  - cbn [entry_for].
    destruct Hstep as [(-> & Hbig & _)|[(fmt & -> & Hsup & Hfit & _)
                                        |(-> & Hfit & _)]].
    + by left.
    + right. split; [done|]. right. by exists fmt.
    + right. split; [done|]. by left.
Qed.

(** The database calls of the loop are batches of [saveImage], at most one
    for each file that is not too large. *)
Lemma files_steps_calls tags w files results w' :
  files_steps tags w files results w' →
  ∃ saved : list ImageMetadata.t,
    calls (db w')
    = calls (db w) ++ ((λ m, CallBatch (saveImage_statements m)) <$> saved)
    ∧ Forall (λ m, ImageMetadata.tags m = tags) saved
    ∧ (length saved
       ≤ length (filter (λ file, (File.size file ≤ MAX_FILE_SIZE)%Z) files))%nat
    ∧ (length (success_ids results) ≤ length saved)%nat.
Proof.
  induction 1 as [w|w file r w1 files results w2 Hstep _
                    (saved & Hcalls & Htags & Hlen & Hsucc)].
  { exists []. by rewrite app_nil_r. }
  destruct Hstep as [_ Hstep].
  assert ((db w1 = db w ∧ is_success r = false)
          ∨ (File.size file ≤ MAX_FILE_SIZE
             ∧ ∃ m, ImageMetadata.tags m = tags
                    ∧ calls (db w1)
                      = calls (db w) ++ [CallBatch (saveImage_statements m)]))
    as [[Hsame Hfail]|(Hfit & m & Hm & Hcall)].
  { destruct r as [id urls o tags' sizes e fmt|error].
    - destruct Hstep as (md & Hsave & _ & _ & _ & _ & Htg & _ & _ & _ & _
                         & _ & Hfit & _).
      right. split; [done|]. exists md. split; [done|].
      rewrite saveImage_batch in Hsave. destruct (exec_all _ _); [done|].
      by injection Hsave as <-.
    - destruct Hstep as [(_ & _ & ->)|[(fmt & _ & _ & _ & ->)
                                       |(_ & Hfit & [Hdb|Hrej])]];
        [by left..|].
      destruct Hrej as (md & e & Htg & Hsave). right. split; [done|].
      exists md. split; [done|].
      by apply saveImage_rejected_tables in Hsave as [_ ?]. }
  - exists saved. rewrite Hcalls, Hsame. split_and!; [done..| |].
    + rewrite filter_cons. case_decide; simpl; lia.
    + destruct r; [done|]. exact Hsucc.
  - exists (m :: saved). rewrite Hcalls, Hcall, <-app_assoc.
    split_and!; [done|by constructor| |].
    + rewrite filter_cons_True by done. simpl. lia.
    + destruct r; simpl; lia.
Qed.

(** On a database that satisfies the schema, the loop adds one image for
    each success entry and changes nothing else of the images. *)
Lemma files_steps_stored tags w files results w' :
  files_steps tags w files results w' → wf (tables (db w)) →
  wf (tables (db w'))
  ∧ image_ids (tables (db w'))
    = image_ids (tables (db w)) ++ success_ids results
  ∧ (∀ id, id ∈ image_ids (tables (db w)) →
           getImage id (db w') = getImage id (db w))
  ∧ Forall2 (stored_entry (db w')) files results.
Proof.
  induction 1 as [w|w file r w1 files results w2 Hstep _ IH]; intros Hwf.
  { split_and!; [done|by rewrite app_nil_r|done|constructor]. }
  destruct Hstep as [_ Hstep].
  destruct r as [id urls o tags' sizes e fmt|error].
  - destruct Hstep as (md & Hsave & Hid & Hname & Hexp & Hor & Htg & Hfmt
                       & Hsizes & Hurls & Htags' & _).
    destruct (saveImage_fulfilled_effect md (db w) (db w1) Hwf Hsave)
      as (Hwf1 & Hnew & _ & Hids & _ & (tags1 & Hget & Hperm) & Hframe).
    destruct (IH Hwf1) as (Hwf2 & Hids2 & Hold & Hstored).
    split_and!; [done| | |].
    + rewrite Hids2, Hids, <-app_assoc. cbn [success_ids omap]. by rewrite Hid.
    + intros id' Hin. rewrite Hold.
      * apply Hframe. intros ->. by apply Hnew.
      * rewrite Hids. apply elem_of_app. by left.
    + constructor; [|done]. cbn [stored_entry].
      exists (rowToMetadata (metadataToRow md) tags1). split.
      { rewrite <-Hid, Hold; [done|]. rewrite Hids. apply elem_of_app.
        right. left. }
      cbn [rowToMetadata metadataToRow ImageRow.id ImageRow.original_name
        ImageRow.upload_time ImageRow.expiry_time ImageRow.orientation
        ImageRow.format ImageRow.width ImageRow.height ImageRow.path_original
        ImageRow.path_webp ImageRow.path_avif ImageRow.size_original
        ImageRow.size_webp ImageRow.size_avif ImageMetadata.originalName
        ImageMetadata.tags ImageMetadata.sizes ImageMetadata.orientation
        ImageMetadata.format ImageMetadata.expiryTime ImageMetadata.paths].
      rewrite !or_empty_or_null, or_null_idemp.
      split_and!; try done;
        first [ by rewrite Hperm, Htg, Htags'
              | by rewrite Hexp
              | by rewrite <-Hsizes; destruct (ImageMetadata.sizes md)
              | by rewrite Hurls; f_equal; destruct (ImageMetadata.paths md) ].
  - assert (tables (db w1) = tables (db w)) as Hsame.
    { destruct Hstep as [(_ & _ & ->)|[(fmt & _ & _ & _ & ->)
                                       |(_ & _ & [->|Hrej])]]; [done..|].
      destruct Hrej as (md & e & _ & Hsave).
      by apply saveImage_rejected_tables in Hsave as [? _]. }
    destruct IH as (Hwf2 & Hids2 & Hold & Hstored); [by rewrite Hsame|].
    split_and!; [done|by rewrite Hids2, Hsame| |by constructor].
    intros id Hin. rewrite Hold by (by rewrite Hsame).
    by apply getImage_tables.
Qed.

(** A tag list with a duplicate: no [saveImage] is fulfilled. *)
Lemma files_steps_duplicate_tags tags w files results w' :
  files_steps tags w files results w' → ¬ NoDup tags →
  Forall (λ r, is_success r = false) results
  ∧ tables (db w') = tables (db w).
Proof.
  intros Hsteps Hdup.
  induction Hsteps as [w|w file r w1 files results w2 Hstep _ [IH Htables]];
    [by split|].
  destruct Hstep as [_ Hstep].
  destruct r as [id urls o tags' sizes e fmt|error].
  - destruct Hstep as (md & Hsave & _ & _ & _ & _ & Htg & _).
    assert ((saveImage md (db w)).2 = Fulfilled ()) as Hok
      by (by rewrite Hsave).
    apply saveImage_Fulfilled_inv in Hok as (_ & _ & Hnd).
    rewrite Htg in Hnd. done.
  - split; [by constructor|]. rewrite Htables.
    destruct Hstep as [(_ & _ & ->)|[(fmt & _ & _ & _ & ->)
                                     |(_ & _ & [->|Hrej])]]; [done..|].
    destruct Hrej as (md & e & _ & Hsave).
    by apply saveImage_rejected_tables in Hsave as [? _].
Qed.

(** The handler once the form holds between 1 and 20 files. *)
Lemma uploadHandler_files (formData : FormData.t) w :
  let files := form_files (FormData.images formData) in
  let tags := parseTags (FormData.tags formData) in
  files ≠ [] → (length files ≤ MAX_UPLOAD_COUNT)%nat →
  ∃ w1 results,
    files_steps tags w files results w1
    ∧ (uploadHandler (Some formData) w
       = if decide (0 < length (filter (λ r, is_success r) results))%nat
         then
           let '(c, ok) := invalidate (cache w1) in
           (mkWorld (db w1) (bucket w1) c (generated w1) (clock w1),
            if ok then successResponse results
            else errorResponse "Upload failed")
         else (w1, successResponse results)).
Proof.
  intros files tags Hne Hmax.
  destruct (upload_files_steps tags
              (parseNumber (FormData.expiryMinutes formData)) files w)
    as (w1 & results & Hrun & Hsteps).
  exists w1, results. split; [done|].
  unfold uploadHandler. unfold bind at 1, await at 1. fold files tags.
  rewrite decide_False by (by destruct files).
  rewrite decide_False by lia.
  unfold bind at 1. rewrite Hrun. unfold bind at 1.
  case_decide; [|done]. unfold cache_invalidate.
  by destruct (invalidate (cache w1)) as [c []].
Qed.
Lemma uploadHandler_bad_count (formData : FormData.t) w :
  let files := form_files (FormData.images formData) in
  (files = [] →
   uploadHandler (Some formData) w = (w, errorResponse "No files provided"))
  ∧ ((MAX_UPLOAD_COUNT < length files)%nat →
     uploadHandler (Some formData) w
     = (w, errorResponse "Maximum 20 files allowed per upload")).
Proof.
  intros files. split.
  - intros Hnil. unfold uploadHandler, bind, await.
    fold files. by rewrite Hnil.
  - intros Hmany. unfold uploadHandler, bind at 1, await.
    fold files. rewrite decide_False.
    + by rewrite decide_True by done.
    + intros Hlen. rewrite Hlen in Hmany. unfold MAX_UPLOAD_COUNT in Hmany.
      lia.
Qed.

(** X18.  [uploadHandler] answers a form without file entries with the error
    "No files provided" and one with more than 20 with "Maximum 20 files
    allowed per upload", in both cases without touching anything; string
    entries do not count as files.  Otherwise it answers with one entry per
    file, in the order of the files: a file over 10MB gets the size error,
    any other file a success entry or an error that names the file or its
    unsupported format; the only other answer is "Upload failed", when an
    image was saved and the cache invalidation failed.  The cache is left
    alone when no entry is a success. *)
Theorem uploadHandler_one_entry_per_file (formData : FormData.t) (w : World) :
  let files := form_files (FormData.images formData) in
  let tags := parseTags (FormData.tags formData) in
  let w' := (uploadHandler (Some formData) w).1 in
  let response := (uploadHandler (Some formData) w).2 in
  uploadHandler None w = (w, errorResponse "Upload failed")
  ∧ (files = [] → w' = w ∧ response = errorResponse "No files provided")
  ∧ ((MAX_UPLOAD_COUNT < length files)%nat →
     w' = w ∧ response = errorResponse "Maximum 20 files allowed per upload")
  ∧ (files ≠ [] → (length files ≤ MAX_UPLOAD_COUNT)%nat →
     (∃ results,
        response = successResponse results
        ∧ Forall2 (entry_for tags) files results
        ∧ (success_ids results = [] → cache w' = cache w))
     ∨ (response = errorResponse "Upload failed"
        ∧ (invalidate (cache w)).2 = false)).
Proof.
  intros files tags w' response.
  destruct (uploadHandler_bad_count formData w) as [Hnone Hmany].
  fold files in Hnone, Hmany. split_and!.
  - done.
  - intros Hnil. unfold w', response. by rewrite (Hnone Hnil).
  - intros Hbig. unfold w', response. by rewrite (Hmany Hbig).
  - intros Hne Hmax.
    destruct (uploadHandler_files formData w Hne Hmax)
      as (w1 & results & Hsteps & Hrun).
    apply files_steps_entries in Hsteps as [Hentries Hcache].
    fold files tags in Hentries.
    unfold w', response. rewrite Hrun.
    assert (success_ids results = [] →
            filter (λ r, is_success r) results = []) as Hnosuccess.
    { clear. induction results as [|r results IH]; [done|].
      destruct r; cbn [success_ids omap]; [done|]. intros Hs.
      rewrite filter_cons_False by (by intros ?). by apply IH. }
    case_decide as Hcount.
    + rewrite <-Hcache. destruct (invalidate (cache w1)) as [c [|]] eqn:Hinv.
      * left. exists results. split_and!; [done..|]. intros Hs.
        rewrite (Hnosuccess Hs) in Hcount. simpl in Hcount. lia.
      * by right.
    + left. exists results. by split_and!.
Qed.

(** X19.  On a database that satisfies the schema, when [uploadHandler]
    answers with entries, the database afterwards holds the images it held
    plus exactly one image per success entry, with the ids of the entries in
    their order and all different; the images that were there are returned
    by [getImage] as before; and [getImage] of the id of a success entry
    returns a record with the name of the entry's file and with the tags,
    sizes, orientation, format, expiry time and urls of the entry. *)
Theorem uploadHandler_success_entries_stored
    (formData : FormData.t) (w : World) (results : list UploadResult) :
  wf (tables (db w)) →
  (uploadHandler (Some formData) w).2 = successResponse results →
  let w' := (uploadHandler (Some formData) w).1 in
  wf (tables (db w'))
  ∧ image_ids (tables (db w'))
    = image_ids (tables (db w)) ++ success_ids results
  ∧ NoDup (success_ids results)
  ∧ (∀ id, id ∈ image_ids (tables (db w)) →
           getImage id (db w') = getImage id (db w))
  ∧ Forall2 (stored_entry (db w')) (form_files (FormData.images formData))
      results.
Proof.
  intros Hwf Hresponse w'.
  destruct (uploadHandler_bad_count formData w) as [Hnil Hmany].
  set (files := form_files (FormData.images formData)) in *.
  destruct (decide (files = [])) as [Hempty|Hne].
  { rewrite (Hnil Hempty) in Hresponse. done. }
  destruct (decide (MAX_UPLOAD_COUNT < length files)%nat) as [Hbig|Hmax].
  { rewrite (Hmany Hbig) in Hresponse. done. }
  assert (length files ≤ MAX_UPLOAD_COUNT)%nat as Hle by lia.
  destruct (uploadHandler_files formData w Hne Hle)
    as (w1 & results1 & Hsteps & Hrun).
  assert (results1 = results ∧ db w' = db w1) as [-> Hdb].
  { unfold w'. rewrite Hrun in Hresponse |- *.
    case_decide; [|by injection Hresponse as ->].
    destruct (invalidate (cache w1)) as [c [|]]; [|done].
    by injection Hresponse as ->. }
  rewrite Hdb.
  destruct (files_steps_stored _ _ _ _ _ Hsteps Hwf)
    as (Hwf' & Hids & Hold & Hstored).
  split_and!; [done..| |done|done].
  pose proof (wf_image_ids _ Hwf') as Hnd. rewrite Hids in Hnd.
  by apply NoDup_app in Hnd as (_ & _ & ?).
Qed.
Lemma no_success_filter (results : list UploadResult) :
  Forall (λ r, is_success r = false) results →
  filter (λ r, is_success r) results = [] ∧ success_ids results = [].
Proof.
  induction 1 as [|r results Hr _ [IH1 IH2]]; [done|].
  destruct r; [done|]. rewrite filter_cons_False by (by intros ?). done.
Qed.

(** X20.  When the tag list of the form has a duplicate, [uploadHandler]
    saves no image: with 1 to 20 files it answers with one error entry per
    file, and the tables and the cache are as before, whatever was written
    to the bucket. *)
Theorem uploadHandler_duplicate_tags_save_nothing
    (formData : FormData.t) (w : World) :
  ¬ NoDup (parseTags (FormData.tags formData)) →
  form_files (FormData.images formData) ≠ [] →
  (length (form_files (FormData.images formData)) ≤ MAX_UPLOAD_COUNT)%nat →
  let w' := (uploadHandler (Some formData) w).1 in
  ∃ results,
    (uploadHandler (Some formData) w).2 = successResponse results
    ∧ length results = length (form_files (FormData.images formData))
    ∧ Forall (λ r, is_success r = false) results
    ∧ tables (db w') = tables (db w)
    ∧ cache w' = cache w.
Proof.
  intros Hdup Hne Hmax w'.
  destruct (uploadHandler_files formData w Hne Hmax)
    as (w1 & results & Hsteps & Hrun).
  destruct (files_steps_duplicate_tags _ _ _ _ _ Hsteps Hdup)
    as [Hfail Htables].
  destruct (files_steps_entries _ _ _ _ _ Hsteps) as [Hentries Hcache].
  destruct (no_success_filter results Hfail) as [Hnone _].
  rewrite Hnone in Hrun. cbn [length] in Hrun.
  rewrite decide_False in Hrun by lia.
  exists results. unfold w'. rewrite Hrun. cbn [fst snd].
  split_and!; [done| |done..].
  symmetry. by eapply Forall2_length.
Qed.

(** X21.  The only database calls [uploadHandler] makes are batches of
    [saveImage], each for a record with the tags of the form, at most one
    per file that is not over 10MB and never more than 20; a form with no
    file or with more than 20 files causes no call. *)
Theorem uploadHandler_database_calls (formData : FormData.t) (w : World) :
  let files := form_files (FormData.images formData) in
  let w' := (uploadHandler (Some formData) w).1 in
  ∃ saved : list ImageMetadata.t,
    calls (db w')
    = calls (db w) ++ ((λ m, CallBatch (saveImage_statements m)) <$> saved)
    ∧ Forall (λ m, ImageMetadata.tags m = parseTags (FormData.tags formData))
        saved
    ∧ (length saved
       ≤ length (filter (λ file, (File.size file ≤ MAX_FILE_SIZE)%Z) files))%nat
    ∧ (length saved ≤ MAX_UPLOAD_COUNT)%nat
    ∧ (files = [] ∨ (MAX_UPLOAD_COUNT < length files)%nat → saved = []).
Proof.
  intros files w'.
  destruct (uploadHandler_bad_count formData w) as [Hnil Hmany].
  fold files in Hnil, Hmany.
  destruct (decide (files = [])) as [Hempty|Hne].
  { exists []. unfold w'. rewrite (Hnil Hempty). cbn [fst fmap list_fmap].
    rewrite app_nil_r. split_and!; [done|done|simpl; lia|simpl; lia|done]. }
  destruct (decide (MAX_UPLOAD_COUNT < length files)%nat) as [Hbig|Hmax].
  { exists []. unfold w'. rewrite (Hmany Hbig). cbn [fst fmap list_fmap].
    rewrite app_nil_r. split_and!; [done|done|simpl; lia|simpl; lia|done]. }
  assert (length files ≤ MAX_UPLOAD_COUNT)%nat as Hle by lia.
  destruct (uploadHandler_files formData w Hne Hle)
    as (w1 & results & Hsteps & Hrun).
  destruct (files_steps_calls _ _ _ _ _ Hsteps)
    as (saved & Hcalls & Htags & Hlen & _).
  exists saved.
  assert (db w' = db w1) as ->.
  { unfold w'. rewrite Hrun. case_decide; [|done].
    by destruct (invalidate (cache w1)) as [c ok]. }
  split_and!; [done|done|done| |].
  - pose proof (length_filter (λ file, (File.size file ≤ MAX_FILE_SIZE)%Z)
                  files). fold files in Hlen. lia.
  - intros [?|?]; [done|lia].
Qed.
End UploadFacts.

Lemma uploadHandler_success_entries_stored_witness :
  let result := @uploadHandler sample_collaborators (Some sample_form)
                  sample_world in
  let entry :=
    UploadSuccess "upload"
      (Urls.mk "https://pics.example/r2/original/upload"
         "https://pics.example/r2/webp/upload"
         "https://pics.example/r2/avif/upload")
      "landscape" ["cat"] (Sizes.mk 100 100 100) None "png" in
  wf (tables (@db sample_collaborators sample_world))
  ∧ result.2 = successResponse [entry]
  ∧ image_ids (tables (@db sample_collaborators result.1)) = ["upload"]
  ∧ Forall2
      (@stored_entry sample_collaborators
         (@db sample_collaborators result.1))
      [File.mk "cat.png" 100 (Some [])] [entry].
Proof.
  cbv zeta.
  set (entry := UploadSuccess _ _ _ _ _ _ _).
  assert ((@uploadHandler sample_collaborators (Some sample_form)
             sample_world).2 = successResponse [entry]) as Hresponse
    by (vm_compute; reflexivity).
  split; [exact wf_empty_tables|]. split; [exact Hresponse|].
  destruct (@uploadHandler_success_entries_stored sample_collaborators
              sample_form sample_world [entry] wf_empty_tables Hresponse)
    as (_ & Hids & _ & _ & Hstored).
  split; [exact Hids|exact Hstored].
Defined.

Lemma uploadHandler_duplicate_tags_save_nothing_witness :
  let result := @uploadHandler sample_collaborators (Some sample_form_twice)
                  sample_world in
  ¬ NoDup (@parseTags sample_collaborators (FormData.tags sample_form_twice))
  ∧ form_files (FormData.images sample_form_twice) ≠ []
  ∧ (length (form_files (FormData.images sample_form_twice))
     ≤ MAX_UPLOAD_COUNT)%nat
  ∧ result.2 = successResponse [UploadError "Failed to upload cat.png"]
  ∧ tables (@db sample_collaborators result.1) = empty_tables
  ∧ @bucket sample_collaborators result.1
    = ["original/upload"; "webp/upload"; "avif/upload"].
Proof.
  cbv zeta.
  assert (¬ NoDup (@parseTags sample_collaborators
                     (FormData.tags sample_form_twice))) as Hdup.
  { apply (bool_decide_unpack _). vm_compute. exact I. }
  assert (form_files (FormData.images sample_form_twice) ≠ []) as Hne
    by discriminate.
  assert (length (form_files (FormData.images sample_form_twice))
          ≤ MAX_UPLOAD_COUNT)%nat as Hmax by (vm_compute; lia).
  split; [exact Hdup|]. split; [exact Hne|]. split; [exact Hmax|].
  destruct (@uploadHandler_duplicate_tags_save_nothing sample_collaborators
              sample_form_twice sample_world Hdup Hne Hmax)
    as (results & _ & _ & _ & Htables & _).
  split; [vm_compute; reflexivity|]. split; [exact Htables|].
  vm_compute. reflexivity.
Defined.
